(** * LogDB: write-ahead log, command handlers and start-up

    A shallow embedding of the Go sources of LogDB (package [wal], and the
    server and the configuration of package [main]) together with the properties of the
    specification that concern them.

    Conventions.
    - A Go [string] or [[]byte] is a [string]: a sequence of bytes.
    - A Go [error] is its message; [option string] is an [error] that may be
      [nil].
    - Objects that Go code mutates through a pointer are passed and returned
      explicitly.  The [*os.File] that the WAL and its [bufio.Writer] share is
      one field of the WAL record, and the writer's operations take it as an
      argument.
    - The mutex of the WAL is not modelled: every operation below is one
      critical section. *)

From stdpp Require Import gmap strings list fin_maps.
From Stdlib Require Import Ascii.

Local Open Scope stdpp_scope.

(** ** Go strings *)

Module GoStrings.

(** [len(s)] *)
Abbreviation len := String.length.

(** [s[:n]] and [s[n:]], for [n <= len(s)]. *)
Fixpoint take_bytes (n : nat) (s : string) : string :=
  match n, s with
  | S k, String a r => String a (take_bytes k r)
  | _, _ => ""
  end.

Fixpoint drop_bytes (n : nat) (s : string) : string :=
  match n, s with
  | S k, String _ r => drop_bytes k r
  | _, _ => s
  end.

(** [strings.Split(s, sep)] for a separator of one byte: the pieces of [s]
    between the occurrences of [sep].  The result is never empty;
    [Split("", sep)] is one empty piece. *)
Fixpoint Split (s : string) (sep : ascii) : list string :=
  match s with
  | "" => [""]
  | String a r =>
      if decide (a = sep) then "" :: Split r sep
      else match Split r sep with
           | piece :: pieces => String a piece :: pieces
           | [] => [String a ""]
           end
  end.

(** [a[i]] on a slice of strings, where the index is known to be in range. *)
Definition index (a : list string) (i : nat) : string := nth i a "".

(** The white space of [strings.Fields]: [unicode.IsSpace].  For a byte below
    0x80 that is the table [asciiSpace]: tab, line feed, vertical tab, form
    feed, carriage return, space. *)
Definition asciiSpace (a : ascii) : bool :=
  match a with
  | "009" | "010" | "011" | "012" | "013" | " " => true
  | _ => false
  end%char.

(** The other white space runes are U+0085, U+00A0, U+1680, U+2000..U+200A,
    U+2028, U+2029, U+202F, U+205F and U+3000.  [spaceWidth s] is the number of
    bytes of the white space rune that [s] starts with, and [0] when [s] does
    not start with one.  Go decodes a string rune by rune, and a byte that
    starts no well-formed encoding is the one-byte rune U+FFFD, which is not
    white space.  The first byte of each encoding below is no continuation
    byte, so it is never swallowed by a preceding rune: a white space rune
    is found at an offset exactly when its encoding starts there. *)
Definition spaceWidth (s : string) : nat :=
  match s with
  | "" => 0
  | String a r =>
      if asciiSpace a then 1
      else if Ascii.eqb a "194"%char then            (* C2 85, C2 A0 *)
        match r with
        | String b _ => if Ascii.eqb b "133"%char || Ascii.eqb b "160"%char then 2 else 0
        | _ => 0
        end
      else if Ascii.eqb a "225"%char then            (* E1 9A 80 *)
        match r with
        | String b (String c _) =>
            if Ascii.eqb b "154"%char && Ascii.eqb c "128"%char then 3 else 0
        | _ => 0
        end
      else if Ascii.eqb a "226"%char then            (* E2 80 80..8A, A8, A9, AF; E2 81 9F *)
        match r with
        | String b (String c _) =>
            if Ascii.eqb b "128"%char
               && (Nat.leb 128 (nat_of_ascii c) && Nat.leb (nat_of_ascii c) 138
                   || Ascii.eqb c "168"%char || Ascii.eqb c "169"%char || Ascii.eqb c "175"%char)
            then 3
            else if Ascii.eqb b "129"%char && Ascii.eqb c "159"%char then 3 else 0
        | _ => 0
        end
      else if Ascii.eqb a "227"%char then            (* E3 80 80 *)
        match r with
        | String b (String c _) =>
            if Ascii.eqb b "128"%char && Ascii.eqb c "128"%char then 3 else 0
        | _ => 0
        end
      else 0
  end.

(** [strings.Fields(s)]: the maximal runs of [s] without white space, in
    order.  [skip] counts the bytes of a white space rune still to pass over
    and [field] is the run read so far. *)
Definition emit (field : string) : list string :=
  if decide (field = "") then [] else [field].

Fixpoint fieldsFrom (s : string) (skip : nat) (field : string) : list string :=
  match s with
  | "" => emit field
  | String a r =>
      match skip with
      | S k => fieldsFrom r k field
      | 0 =>
          match spaceWidth s with
          | 0 => fieldsFrom r 0 (field +:+ String a "")
          | S k => emit field ++ fieldsFrom r k ""
          end
      end
  end.

Definition Fields (s : string) : list string := fieldsFrom s 0 "".

(** [strings.Trim(s, cutset)] for a cutset of one byte. *)
Fixpoint trimLeft (s : string) (c : ascii) : string :=
  match s with
  | String a r => if decide (a = c) then trimLeft r c else s
  | "" => ""
  end.

Fixpoint trimRight (s : string) (c : ascii) : string :=
  match s with
  | String a r =>
      match trimRight r c with
      | "" => if decide (a = c) then "" else String a ""
      | r' => String a r'
      end
  | "" => ""
  end.

Definition Trim (s : string) (c : ascii) : string := trimRight (trimLeft s c) c.

(** Does a white space rune occur in [s]? *)
Fixpoint hasSpace (s : string) : bool :=
  match s with
  | "" => false
  | String _ r => Nat.ltb 0 (spaceWidth s) || hasSpace r
  end.

(** Does the byte [c] occur in [s]? *)
Fixpoint hasByte (c : ascii) (s : string) : bool :=
  match s with
  | "" => false
  | String a r => bool_decide (a = c) || hasByte c r
  end.

End GoStrings.
Import GoStrings.

Definition newline : ascii := "010"%char.
Definition pipe : ascii := "|"%char.
(** The Go literals ["\n"] and ["|"]. *)
Definition nl : string := String newline "".
Definition delimiter : string := String pipe "".

(** ** Files

    An [*os.File].  [f_data] is what the file holds, [f_synced] how many of its
    bytes the last successful [Sync] made durable.  The operating system is
    the environment of the program: [f_io] lists the outcomes of the next
    system calls on the file, in order, and a call finds success when the list
    is used up.  [SysErr n msg] is a failure with message [msg] after [n]
    bytes were transferred. *)

Module OS.

Inductive sysres : Type :=
  | SysOk
  | SysErr (n : nat) (msg : string).

Record File : Type := mkFile {
  f_data : string;
  f_synced : nat;
  f_io : list sysres;
}.

Definition next (f : File) : sysres * File :=
  match f_io f with
  | [] => (SysOk, f)
  | r :: io => (r, mkFile (f_data f) (f_synced f) io)
  end.

(** [f.Write(p)]: all of [p] is appended, or a prefix of it and an error. *)
Definition Write (p : string) (f : File) : nat * option string * File :=
  let '(r, f) := next f in
  match r with
  | SysOk => (len p, None, mkFile (f_data f +:+ p) (f_synced f) (f_io f))
  | SysErr n msg =>
      let n := n `min` len p in
      (n, Some msg, mkFile (f_data f +:+ take_bytes n p) (f_synced f) (f_io f))
  end.

(** [f.Sync()] *)
Definition Sync (f : File) : option string * File :=
  let '(r, f) := next f in
  match r with
  | SysOk => (None, mkFile (f_data f) (len (f_data f)) (f_io f))
  | SysErr _ msg => (Some msg, f)
  end.

(** [os.OpenFile(path, os.O_RDONLY, 0644)] on the path of [f]. *)
Definition OpenFile (f : File) : option string * File :=
  let '(r, f) := next f in
  match r with
  | SysOk => (None, f)
  | SysErr _ msg => (Some msg, f)
  end.

(** [io.ReadAll] on a reader of the file opened at its beginning. *)
Definition ReadAll (f : File) : string * option string * File :=
  let '(r, f) := next f in
  match r with
  | SysOk => (f_data f, None, f)
  | SysErr n msg => (take_bytes n (f_data f), Some msg, f)
  end.

(** What [os.Stat] finds at a path: no file (with the outcomes of the system
    calls to come on that path), or a file. *)
Inductive Path : Type :=
  | NoFile (io : list sysres)
  | IsFile (f : File).

(** [os.Create(path)] where there is no file. *)
Definition Create (io : list sysres) : option string * File :=
  match io with
  | SysErr _ msg :: io => (Some msg, mkFile "" 0 io)
  | SysOk :: io => (None, mkFile "" 0 io)
  | [] => (None, mkFile "" 0 [])
  end.

(** No system call on the file fails. *)
Definition healthy (f : File) : Prop := Forall (eq SysOk) (f_io f).

End OS.

(** ** [bufio.Writer]

    [buf] is [b.buf[0:b.n]], the bytes buffered; [size] is [len(b.buf)]; [err]
    is the sticky error: once a write to the file has failed, every later
    [Write] and [Flush] returns that error.  The file written to is an
    argument of each operation. *)

Module Bufio.

Record Writer : Type := mkWriter {
  err : option string;
  buf : string;
  size : nat;
}.

Definition defaultBufSize : nat := 4096.
Definition ErrShortWrite : string := "short write".

(** [bufio.NewWriter(file)] *)
Definition NewWriter : Writer := mkWriter None "" defaultBufSize.

Definition Buffered (b : Writer) : nat := len (buf b).
Definition Available (b : Writer) : nat := size b - len (buf b).

(** [b.Reset(w)] *)
Definition Reset (b : Writer) : Writer := mkWriter None "" (size b).

(** [b.Flush()] *)
Definition Flush (b : Writer) (f : OS.File) : option string * Writer * OS.File :=
  match err b with
  | Some e => (Some e, b, f)
  | None =>
      if decide (Buffered b = 0) then (None, b, f)
      else
        let '(n, e, f) := OS.Write (buf b) f in
        let e := match e with
                 | None => if decide (n < Buffered b) then Some ErrShortWrite else None
                 | Some _ => e
                 end in
        match e with
        | Some _ => (e, mkWriter e (drop_bytes n (buf b)) (size b), f)
        | None => (None, mkWriter None "" (size b), f)
        end
  end.

(** [n := copy(b.buf[b.n:], p); b.n += n] *)
Definition copy (b : Writer) (p : string) : nat * Writer :=
  let n := Available b `min` len p in
  (n, mkWriter (err b) (buf b +:+ take_bytes n p) (size b)).

(** The body of the loop of [b.Write(p)]: the bytes taken from [p], and the
    writer and the file after it. *)
Definition writeStep (b : Writer) (f : OS.File) (p : string) : nat * Writer * OS.File :=
  if decide (Buffered b = 0) then
    (* large write, empty buffer: write directly from p *)
    let '(n, e, f) := OS.Write p f in
    (n, mkWriter e (buf b) (size b), f)
  else
    let '(n, b) := copy b p in
    let '(_, b, f) := Flush b f in
    (n, b, f).

(** The loop of [b.Write(p)]:
    [for len(p) > b.Available() && b.err == nil { ... }].
    It returns the writer, the file, the rest of [p] and the bytes taken so
    far.  [fuel] bounds the number of iterations; [writeLoop_fuel] below shows
    that the loop has ended after two. *)
Fixpoint writeLoop (fuel : nat) (b : Writer) (f : OS.File) (p : string) (nn : nat)
  : Writer * OS.File * string * nat :=
  match fuel with
  | 0 => (b, f, p, nn)
  | S fuel =>
      if decide (Available b < len p ∧ err b = None) then
        let '(n, b, f) := writeStep b f p in
        writeLoop fuel b f (drop_bytes n p) (nn + n)
      else (b, f, p, nn)
  end.

(** [b.Write(p)] *)
Definition Write (p : string) (b : Writer) (f : OS.File)
  : nat * option string * Writer * OS.File :=
  let '(b, f, p, nn) := writeLoop 2 b f p 0 in
  match err b with
  | Some e => (nn, Some e, b, f)
  | None =>
      let '(n, b) := copy b p in
      (nn + n, None, b, f)
  end.

(** [b.WriteString(s)]: the same loop over the bytes of [s]. *)
Definition WriteString (s : string) (b : Writer) (f : OS.File)
  : nat * option string * Writer * OS.File := Write s b f.

End Bufio.

(** ** Package [log_structured_merge_tree], as the WAL and the server use it

    [lsmTree.Put(k, v)], [lsmTree.Del(k)] and [lsmTree.Get(k)] on a tree of
    type [T].  [Get] returns [(val, exist)]: [Some val] when [exist]. *)

Class LSMTreeOps (T : Type) : Type := {
  Put : string → string → T → T;
  Del : string → T → T;
  Get : string → T → option string;
}.

(** ** Package [wal] *)

Module Wal.

(** Entry represents a single entry in the WAL. *)
Record Entry : Type := mkEntry {
  Key : string;
  Value : string;
  Delete : bool;
}.

Global Instance Entry_eq_dec : EqDecision Entry.
Proof. solve_decision. Defined.

Definition DEFAULT_WAL_PATH : string := "wal.aof".

(** WAL represents the Write-Ahead Log. *)
Record WAL : Type := mkWAL {
  filepath : string;
  file : OS.File;
  writer : Bufio.Writer;
}.

(** [OpenOrCreateWAL(path)], given what is at [path]. *)
Definition OpenOrCreateWAL (path : string) (at_path : OS.Path) : option WAL * option string :=
  match at_path with
  | OS.NoFile io =>
      match OS.Create io with
      | (Some e, _) => (None, Some ("failed to create WAL file: " +:+ e))
      | (None, f) => (Some (mkWAL path f Bufio.NewWriter), None)
      end
  | OS.IsFile f =>
      match OS.OpenFile f with
      | (Some e, _) => (None, Some ("failed to open WAL file: " +:+ e))
      | (None, f) => (Some (mkWAL path f Bufio.NewWriter), None)
      end
  end.

(** [w.flushBuffer()] *)
Definition flushBuffer (w : WAL) : option string * WAL :=
  let '(e, b, f) := Bufio.Flush (writer w) (file w) in
  match e with
  | Some e => (Some ("failed to flush buffer to file: " +:+ e), mkWAL (filepath w) f b)
  | None => (None, mkWAL (filepath w) f b)
  end.

(** The loop [for _, d := range data] of [Write]. *)
Fixpoint writeData (data : list string) (w : WAL) : option string * WAL :=
  match data with
  | [] => (None, w)
  | d :: data =>
      let d := d +:+ delimiter in
      let '(_, e, b, f) := Bufio.Write d (writer w) (file w) in
      let w := mkWAL (filepath w) f b in
      match e with
      | Some e => (Some ("failed to write to buffer: " +:+ e), w)
      | None => writeData data w
      end
  end.

(** [w.Write(data...)] *)
Definition Write (data : list string) (w : WAL) : option string * WAL :=
  let '(e, w) :=
    if decide (Bufio.Available (writer w) < length data) then flushBuffer w
    else (None, w) in
  match e with
  | Some e => (Some ("failed to flush buffer: " +:+ e), w)
  | None =>
      match writeData data w with
      | (Some e, w) => (Some e, w)
      | (None, w) =>
          let '(_, e, b, f) := Bufio.WriteString nl (writer w) (file w) in
          let w := mkWAL (filepath w) f b in
          match e with
          | Some e => (Some ("failed to write end byte to buffer: " +:+ e), w)
          | None => (None, w)
          end
      end
  end.

(** [w.Persist()] *)
Definition Persist (w : WAL) : option string * WAL :=
  let '(e, b, f) := Bufio.Flush (writer w) (file w) in
  match e with
  | Some e => (Some ("failed to flush buffer: " +:+ e), mkWAL (filepath w) f b)
  | None =>
      let '(e, f) := OS.Sync f in
      match e with
      | Some e => (Some ("failed to sync file: " +:+ e), mkWAL (filepath w) f b)
      | None => (None, mkWAL (filepath w) f (Bufio.Reset b))
      end
  end.

(** The body of the loop of [ReadEntries], for one line. *)
Definition readEntry (entries : list Entry) (cmd : string) : list Entry :=
  if decide (cmd = "") then entries
  else
    let args := Split cmd pipe in
    let op := index args 0 in
    if decide (op = "+") then
      if decide (length args ≠ 4) then entries
      else entries ++ [mkEntry (index args 1) (index args 2) false]
    else if decide (op = "-") then
      if decide (length args ≠ 3) then entries
      else entries ++ [mkEntry (index args 1) "" true]
    else entries.

(** [w.ReadEntries()]: the entries, or the message of the panic. *)
Definition ReadEntries (w : WAL) : (list Entry + string) * WAL :=
  let '(e, f) := OS.OpenFile (file w) in
  match e with
  | Some e =>
      (inr ("failed to open WAL file for reading: " +:+ e), mkWAL (filepath w) f (writer w))
  | None =>
      let '(data, e, f) := OS.ReadAll f in
      let w := mkWAL (filepath w) f (writer w) in
      match e with
      | Some e => (inr ("failed to read data from WAL file: " +:+ e), w)
      | None =>
          let cmds := Split data newline in
          (inl (foldl readEntry [] cmds), w)
      end
  end.

(** The body of the loop of [InitDB], for one line. *)
Definition replayCmd `{LSMTreeOps T} (lsmTree : T) (cmd : string) : T :=
  if decide (cmd = "") then lsmTree
  else
    let args := Split cmd pipe in
    let op := index args 0 in
    if decide (op = "+") then
      if decide (length args ≠ 4) then lsmTree
      else Put (index args 1) (index args 2) lsmTree
    else if decide (op = "-") then
      if decide (length args ≠ 3) then lsmTree
      else Del (index args 1) lsmTree
    else lsmTree.

(** [w.InitDB(lsmTree)] *)
Definition InitDB `{LSMTreeOps T} (lsmTree : T) (w : WAL) : option string * T * WAL :=
  let '(e, f) := OS.OpenFile (file w) in
  match e with
  | Some e =>
      (Some ("failed to open WAL file for reading: " +:+ e), lsmTree,
       mkWAL (filepath w) f (writer w))
  | None =>
      let '(data, e, f) := OS.ReadAll f in
      let w := mkWAL (filepath w) f (writer w) in
      match e with
      | Some e => (Some ("failed to read data from WAL file: " +:+ e), lsmTree, w)
      | None =>
          let cmds := Split data newline in
          (None, foldl replayCmd lsmTree cmds, w)
      end
  end.

End Wal.

(** ** The LSM index, its Bloom filter and the Disk Store

    The sources of packages [log_structured_merge_tree] and [disk_store] are
    not part of the sources at hand; this module follows the specification
    (sections 3, 4.2, 4.3, 4.4 and 4.5). *)

Module Lsm.

(** Modelled from the spec: the Bloom filter of section 4.3, whose source is
    missing.  An [m]-bit array, given by the set of the bits that are set, and
    [k] hash functions.  [m] and the hash functions, which the spec derives
    from the capacity and the error rate with real arithmetic, are fields. *)
Record BloomFilter : Type := mkBloom {
  nbits : nat;
  hashes : list (string → nat);
  bits : gset nat;
}.

Definition positions (b : BloomFilter) (key : string) : list nat :=
  (λ h, h key `mod` nbits b) <$> hashes b.

(** Modelled from the spec: [insert(key)] of the Bloom filter. *)
Definition bloom_insert (key : string) (b : BloomFilter) : BloomFilter :=
  mkBloom (nbits b) (hashes b) (bits b ∪ list_to_set (positions b key)).

(** Modelled from the spec: [contains(key)] of the Bloom filter. *)
Definition bloom_contains (key : string) (b : BloomFilter) : bool :=
  forallb (λ i, bool_decide (i ∈ bits b)) (positions b key).

(** Modelled from the spec: the Disk Store of section 4.4, whose source is
    missing.  Each partition is a key-value map; the partition of a key is
    [hash(key) mod NumOfPartitions]; a partition without a file yet is
    empty.  File input and output of the partitions is not modelled. *)
Record DiskStore : Type := mkStore {
  NumOfPartitions : nat;
  hash : string → nat;
  partitions : gmap nat (gmap string string);
}.

Definition partition_id (ds : DiskStore) (key : string) : nat :=
  hash ds key `mod` NumOfPartitions ds.

Definition partition (ds : DiskStore) (pid : nat) : gmap string string :=
  default ∅ (partitions ds !! pid).

(** Modelled from the spec: [get(key)] of the Disk Store: look up in the owning
    partition. *)
Definition ds_get (key : string) (ds : DiskStore) : option string :=
  partition ds (partition_id ds key) !! key.

(** Modelled from the spec: one step of [ingest]: route the key to its
    partition and merge; a tombstone ([None]) removes the key. *)
Definition ds_merge (key : string) (e : option string) (ds : DiskStore) : DiskStore :=
  let pid := partition_id ds key in
  let part := match e with
              | Some value => <[key := value]> (partition ds pid)
              | None => delete key (partition ds pid)
              end in
  mkStore (NumOfPartitions ds) (hash ds) (<[pid := part]> (partitions ds)).

(** Modelled from the spec: [ingest(frozen_memtable)] of the Disk Store. *)
Definition ingest (frozen : gmap string (option string)) (ds : DiskStore) : DiskStore :=
  map_fold ds_merge ds frozen.

(** Modelled from the spec: the LSM index of section 4.2, whose source is
    missing.  The memtable maps a key to a value or to a tombstone ([None]);
    the tree holds its Bloom filter and the handle of the Disk Store that
    misses fall through to. *)
Record LSMTree : Type := mkTree {
  MaxElementsBeforeFlush : nat;
  memtable : gmap string (option string);
  filter : BloomFilter;
  store : DiskStore;
}.

(** Modelled from the spec: the flush protocol of section 4.2: a fresh
    memtable is swapped in and the frozen one is handed to the Disk Store.  The
    spec triggers the flush asynchronously; here it runs to its end at the
    point where it is triggered. *)
Definition flush (t : LSMTree) : LSMTree :=
  mkTree (MaxElementsBeforeFlush t) ∅ (filter t) (ingest (memtable t) (store t)).

Definition saturation_check (t : LSMTree) : LSMTree :=
  if decide (MaxElementsBeforeFlush t < size (memtable t)) then flush t else t.

(** Modelled from the spec: [put(key, value)] of the LSM index. *)
Definition put (key value : string) (t : LSMTree) : LSMTree :=
  saturation_check
    (mkTree (MaxElementsBeforeFlush t) (<[key := Some value]> (memtable t))
            (bloom_insert key (filter t)) (store t)).

(** Modelled from the spec: [del(key)] of the LSM index: a tombstone in the
    memtable; the Bloom filter is not updated. *)
Definition del (key : string) (t : LSMTree) : LSMTree :=
  saturation_check
    (mkTree (MaxElementsBeforeFlush t) (<[key := None]> (memtable t))
            (filter t) (store t)).

(** Modelled from the spec: [get(key)] of the LSM index. *)
Definition get (key : string) (t : LSMTree) : option string :=
  if bloom_contains key (filter t) then
    match memtable t !! key with
    | Some e => e
    | None => ds_get key (store t)
    end
  else ds_get key (store t).

(** What a lookup is to find: the entry of the memtable if there is one
    (a tombstone is "not found"), else what the Disk Store holds. *)
Definition view (t : LSMTree) (key : string) : option string :=
  match memtable t !! key with
  | Some e => e
  | None => ds_get key (store t)
  end.

Global Instance lsm_tree_ops : LSMTreeOps LSMTree :=
  {| Put := put; Del := del; Get := get |}.

(** Modelled from the spec: [loadInto(lsm_sink)] of the Disk Store (section
    4.4, and step 2 of section 4.5): every pair on disk is put into the
    memtable, without saturation check. *)
Definition load_pair (key value : string) (t : LSMTree) : LSMTree :=
  mkTree (MaxElementsBeforeFlush t) (<[key := Some value]> (memtable t))
         (bloom_insert key (filter t)) (store t).

Definition loadInto (t : LSMTree) : LSMTree :=
  map_fold (λ _ part t, map_fold load_pair t part) t (partitions (store t)).

(** Modelled from the spec: [diskstore.LoadFromDisk(lsmTree, wal)], whose
    source is missing: steps 2 and 3 of section 4.5, the load of the Disk
    Store into the index and then the replay of the WAL on top. *)
Definition LoadFromDisk (t : LSMTree) (w : Wal.WAL) : option string * LSMTree * Wal.WAL :=
  Wal.InitDB (loadInto t) w.

(** Modelled from the spec: [LsmTree.New(opts)]: an empty memtable and an
    empty Bloom filter over the given Disk Store. *)
Definition New (max m : nat) (hs : list (string → nat)) (ds : DiskStore) : LSMTree :=
  mkTree max ∅ (mkBloom m hs ∅) ds.

(** Every key on disk is in the partition that its hash selects (invariant
    4 of section 8 of the specification). *)
Definition routed (ds : DiskStore) : Prop :=
  map_Forall (λ pid part, map_Forall (λ key _, partition_id ds key = pid) part)
             (partitions ds).

(** The Bloom filter has no false negative for the tree: it reports every key
    that the memtable maps to a value and every key that the Disk Store
    holds. *)
Definition filter_sound (t : LSMTree) : Prop :=
  ∀ key,
    (∃ value, memtable t !! key = Some (Some value)) ∨ is_Some (ds_get key (store t)) →
    bloom_contains key (filter t) = true.

(** During the load the memtable holds only what the Disk Store [ds] holds,
    and the filter reports it. *)
Definition mirrors (ds : DiskStore) (t : LSMTree) : Prop :=
  store t = ds ∧
  ∀ key e, memtable t !! key = Some e →
           e = ds_get key ds ∧ bloom_contains key (filter t) = true.

End Lsm.

(** ** Package [main]: the server *)

Module Server.

Definition DEFAULT_TCP_PORT : string := "8080".
Definition DEFAULT_UDP_PORT : string := "1053".
Definition DEFAULT_UDP_BUFFER_SIZE : nat := 1024.
Definition DEFAULT_HOST : string := "localhost".

(** [fmt.Fprintln(writer, operands...)]: the operands separated by spaces,
    and a newline. *)
Fixpoint Sprint (operands : list string) : string :=
  match operands with
  | [] => ""
  | [a] => a
  | a :: rest => a +:+ " " +:+ Sprint rest
  end.
Definition Fprintln (operands : list string) : string := Sprint operands +:+ nl.

(** The calls that a handler makes on the WAL and on the tree, with the error
    each returned.  The handlers record them, in order, so that properties of
    the order of calls can be stated. *)
Inductive call : Type :=
  | CallWrite (data : list string) (e : option string)
  | CallPersist (e : option string)
  | CallPut (k v : string)
  | CallGet (k : string)
  | CallDel (k : string).

(** What handling one TCP line ends in: bytes written to the connection, or a
    run-time panic of the goroutine. *)
Inductive outcome : Type :=
  | Reply (bytes : string)
  | Panic (msg : string).

Section Handlers.
Context {T : Type} `{Ops : LSMTreeOps T}.

(** The objects a handler works on: [ltree *LsmTree.LSMTree] and
    [wal *wal.WAL], and the calls made so far. *)
Record Env : Type := mkEnv {
  ltree : T;
  wal : Wal.WAL;
  calls : list call;
}.

(** Handlers are state transformers over [Env]. *)
Definition M (A : Type) : Type := Env → A * Env.
Definition ret {A} (a : A) : M A := λ s, (a, s).
Definition bind {A B} (c : M A) (k : A → M B) : M B :=
  λ s, let '(a, s) := c s in k a s.

Notation "'let*' x := c 'in' k" := (bind c (λ x, k))
  (at level 10, x name, c at level 100, k at level 200, only parsing).

Definition walWrite (data : list string) : M (option string) := λ s,
  let '(e, w) := Wal.Write data (wal s) in
  (e, mkEnv (ltree s) w (calls s ++ [CallWrite data e])).

Definition walPersist : M (option string) := λ s,
  let '(e, w) := Wal.Persist (wal s) in
  (e, mkEnv (ltree s) w (calls s ++ [CallPersist e])).

Definition ltreePut (k v : string) : M unit := λ s,
  (tt, mkEnv (Put k v (ltree s)) (wal s) (calls s ++ [CallPut k v])).

Definition ltreeDel (k : string) : M unit := λ s,
  (tt, mkEnv (Del k (ltree s)) (wal s) (calls s ++ [CallDel k])).

Definition ltreeGet (k : string) : M (option string) := λ s,
  (Get k (ltree s), mkEnv (ltree s) (wal s) (calls s ++ [CallGet k])).

(** The body of the loop of [handleConnection], after
    [cmd := strings.Fields(text)]. *)
Definition tcpCommand (cmd : list string) : M outcome :=
  if decide (length cmd = 0) then ret (Reply (Fprintln ["Invalid command"]))
  else
    let verb := index cmd 0 in
    if decide (verb = "PUT") then
      if decide (length cmd ≠ 3) then ret (Reply (Fprintln ["Invalid command"]))
      else
        let* e := walWrite ["+"; index cmd 1; index cmd 2] in
        match e with
        | Some e => ret (Reply (Fprintln ["Error writing to WAL:"; e]))
        | None =>
            let* _ := ltreePut (index cmd 1) (index cmd 2) in
            ret (Reply (Fprintln ["OK"]))
        end
    else if decide (verb = "GET") then
      let* e := walPersist in
      match e with
      | Some e => ret (Reply (Fprintln ["Error persisting WAL:"; e]))
      | None =>
          match cmd !! 1 with
          | None =>
              ret (Panic "runtime error: index out of range [1] with length 1")
          | Some k =>
              let* r := ltreeGet k in
              match r with
              | None => ret (Reply (Fprintln ["Data not found"]))
              | Some val => ret (Reply (Fprintln [val]))
              end
          end
      end
    else if decide (verb = "DEL") then
      if decide (length cmd ≠ 2) then ret (Reply (Fprintln ["Invalid command"]))
      else
        let* e := walWrite ["-"; index cmd 1] in
        match e with
        | Some e => ret (Reply (Fprintln ["Error writing to WAL:"; e]))
        | None =>
            let* _ := ltreeDel (index cmd 1) in
            ret (Reply (Fprintln ["OK"]))
        end
    else ret (Reply (Fprintln ["Invalid command"])).

(** [handleConnection(conn, ltree, wal)], on the lines that [scanner.Scan]
    delivers: what is written to the connection, and the panic that ended the
    loop if one did.  When the lines are used up the connection is closed. *)
Fixpoint handleConnection (lines : list string) : M (list string * option string) :=
  match lines with
  | [] => ret ([], None)
  | text :: lines =>
      let* o := tcpCommand (Fields text) in
      match o with
      | Reply bytes =>
          let* rest := handleConnection lines in
          ret (bytes :: rest.1, rest.2)
      | Panic msg => ret ([], Some msg)
      end
  end.

(** The [switch] of [handleUDPPacket], after [cmd := strings.Fields(request)]:
    the response. *)
Definition udpCommand (cmd : list string) : M string :=
  if decide (length cmd = 0) then ret "Invalid command"
  else
    let verb := index cmd 0 in
    if decide (verb = "GET") then
      if decide (length cmd ≠ 2) then ret "Invalid command"
      else
        let* e := walPersist in
        match e with
        | Some _ => ret "Error persisting WAL"
        | None =>
            let* r := ltreeGet (Trim (index cmd 1) newline) in
            match r with
            | None => ret "Data not found"
            | Some val => ret val
            end
        end
    else if decide (verb = "PUT") then
      if decide (length cmd ≠ 3) then ret "Invalid command"
      else
        let* e := walWrite ["+"; index cmd 1; index cmd 2] in
        match e with
        | Some e => ret ("Error writing to WAL: " +:+ e)
        | None =>
            let* _ := ltreePut (index cmd 1) (index cmd 2) in
            ret "OK"
        end
    else if decide (verb = "DEL") then
      if decide (length cmd ≠ 2) then ret "Invalid command"
      else
        let* e := walWrite ["-"; index cmd 1] in
        match e with
        | Some e => ret ("Error writing to WAL: " +:+ e)
        | None =>
            let* _ := ltreeDel (index cmd 1) in
            ret "OK"
        end
    else ret "Invalid command".

(** [handleUDPPacket(udpConn, packet, addr, ltree, wal)]: the datagram sent
    back. *)
Definition handleUDPPacket (packet : string) : M string :=
  udpCommand (Fields packet).

(** [Server.Start], up to the point where its goroutines serve clients.  The
    statements of [Start] that act on the outside, in the order in which they
    run.  The load runs in a goroutine of its own, and [Start] waits for its
    signal on [dataLoadSignal] before it goes on. *)
Inductive step : Type :=
  | ListenTCP           (* net.Listen("tcp", host:port) *)
  | ListenUDP           (* net.ListenPacket("udp", host:udpPort) *)
  | LoadData            (* s.DBEngine.LoadFromDisk(...), then dataLoadSignal <- true *)
  | StartPersistCycle   (* go s.DBEngine.Store.PersistToDisk(...) *)
  | NotifySignals       (* signal.Notify and the shutdown goroutine *)
  | AcceptTCP           (* the goroutine of listener.Accept and handleConnection *)
  | ReadUDP.            (* the goroutine of udpServer.ReadFrom and handleUDPPacket *)

Global Instance step_eq_dec : EqDecision step.
Proof. solve_decision. Defined.

(** How [Start] goes on: it returns an error, the load goroutine panics, or
    the handlers serve clients on the engine. *)
Inductive started : Type :=
  | Returned (e : string)
  | Panicked (e : string)
  | Serving (env : Env).

(** [DBEngine]; its [Store] is the one the tree holds. *)
Record DBEngine : Type := mkDBEngine {
  LsmTree : T;
  Wal : Wal.WAL;
}.

Record Server : Type := mkServer {
  Port : string;
  Host : string;
  DBEngine_ : DBEngine;
  UDPPort : string;
  UDPBufferSize : nat;
}.

(** [db.LoadFromDisk(lsmTree, wal)] of [engine.go] hands over to the Disk
    Store, whose code is a parameter here. *)
Variable LoadFromDisk : T → Wal.WAL → option string * T * Wal.WAL.

(** [s.Start()], given the errors of the two calls to listen. *)
Definition Start (tcp udp : option string) (s : Server) : list step * started :=
  match tcp with
  | Some e => ([ListenTCP], Returned e)
  | None =>
      match udp with
      | Some e => ([ListenTCP; ListenUDP], Returned e)
      | None =>
          let db := DBEngine_ s in
          let '(e, t, w) := LoadFromDisk (LsmTree db) (Wal db) in
          match e with
          | Some e => ([ListenTCP; ListenUDP; LoadData], Panicked e)
          | None =>
              ([ListenTCP; ListenUDP; LoadData; StartPersistCycle; NotifySignals;
                AcceptTCP; ReadUDP],
               Serving (mkEnv t w []))
          end
      end
  end.

End Handlers.
End Server.

(** ** Package [main]: the configuration

    [ParseServerConfig] reads a YAML file into a [ServerConfig];
    [LoadServerConfig] fills in the defaults.  The parser is outside the
    program: its result is the argument of [LoadServerConfig] here.  The
    fields of Go type [int] are integers; the one field of type [float64] is
    only ever compared with zero, so the type and that test are parameters.
    The defaults that packages [log_structured_merge_tree] and [disk_store]
    declare are parameters too. *)

Module Config.
Section Config.

Variable float64 : Type.
Variable float_is_zero : float64 → bool.

Variable DEFAULT_MAX_ELEMENTS_BEFORE_FLUSH : Z.
Variable DEFAULT_COMPACTION_FREQUENCY : Z.
Variable DEFAULT_BLOOM_FILTER_ERROR_RATE : float64.
Variable DEFAULT_BLOOM_FILTER_CAPACITY : Z.
Variable DEFAULT_NUM_OF_PARTITIONS : Z.
Variable DEFAULT_DIRECTORY : string.

(** DiskStoreConfig represents the configuration for the disk store. *)
Record DiskStoreConfig : Type := mkDiskStoreConfig {
  NumOfPartitions : Z;
  Directory : string;
}.

(** DBEngineConfig represents the configuration for the database engine. *)
Record DBEngineConfig : Type := mkDBEngineConfig {
  LSMTreeMaxElementsBeforeFlush : Z;
  LSMTreeCompactionFrequency : Z;
  BloomFilterCapacity : Z;
  BloomFilterErrorRate : float64;
  WalPath : string;
}.

(** ServerConfig represents the configuration for the server. *)
Record ServerConfig : Type := mkServerConfig {
  Port : string;
  Host : string;
  UDPPort : string;
  UDPBufferSize : Z;
  DBEngineConfig_ : DBEngineConfig;
  DiskStoreConfig_ : DiskStoreConfig;
}.

(** The assignments [serverConfig.<field> = v]. *)
Definition setPort (v : string) (c : ServerConfig) : ServerConfig :=
  mkServerConfig v (Host c) (UDPPort c) (UDPBufferSize c) (DBEngineConfig_ c)
                 (DiskStoreConfig_ c).
Definition setHost (v : string) (c : ServerConfig) : ServerConfig :=
  mkServerConfig (Port c) v (UDPPort c) (UDPBufferSize c) (DBEngineConfig_ c)
                 (DiskStoreConfig_ c).
Definition setUDPPort (v : string) (c : ServerConfig) : ServerConfig :=
  mkServerConfig (Port c) (Host c) v (UDPBufferSize c) (DBEngineConfig_ c)
                 (DiskStoreConfig_ c).
Definition setUDPBufferSize (v : Z) (c : ServerConfig) : ServerConfig :=
  mkServerConfig (Port c) (Host c) (UDPPort c) v (DBEngineConfig_ c)
                 (DiskStoreConfig_ c).
Definition setDBEngineConfig (v : DBEngineConfig) (c : ServerConfig) : ServerConfig :=
  mkServerConfig (Port c) (Host c) (UDPPort c) (UDPBufferSize c) v (DiskStoreConfig_ c).
Definition setDiskStoreConfig (v : DiskStoreConfig) (c : ServerConfig) : ServerConfig :=
  mkServerConfig (Port c) (Host c) (UDPPort c) (UDPBufferSize c) (DBEngineConfig_ c) v.

Definition setWalPath (v : string) (d : DBEngineConfig) : DBEngineConfig :=
  mkDBEngineConfig (LSMTreeMaxElementsBeforeFlush d) (LSMTreeCompactionFrequency d)
                   (BloomFilterCapacity d) (BloomFilterErrorRate d) v.
Definition setLSMTreeMaxElementsBeforeFlush (v : Z) (d : DBEngineConfig) : DBEngineConfig :=
  mkDBEngineConfig v (LSMTreeCompactionFrequency d) (BloomFilterCapacity d)
                   (BloomFilterErrorRate d) (WalPath d).
Definition setLSMTreeCompactionFrequency (v : Z) (d : DBEngineConfig) : DBEngineConfig :=
  mkDBEngineConfig (LSMTreeMaxElementsBeforeFlush d) v (BloomFilterCapacity d)
                   (BloomFilterErrorRate d) (WalPath d).
Definition setBloomFilterErrorRate (v : float64) (d : DBEngineConfig) : DBEngineConfig :=
  mkDBEngineConfig (LSMTreeMaxElementsBeforeFlush d) (LSMTreeCompactionFrequency d)
                   (BloomFilterCapacity d) v (WalPath d).
Definition setBloomFilterCapacity (v : Z) (d : DBEngineConfig) : DBEngineConfig :=
  mkDBEngineConfig (LSMTreeMaxElementsBeforeFlush d) (LSMTreeCompactionFrequency d)
                   v (BloomFilterErrorRate d) (WalPath d).

Definition setNumOfPartitions (v : Z) (d : DiskStoreConfig) : DiskStoreConfig :=
  mkDiskStoreConfig v (Directory d).
Definition setDirectory (v : string) (d : DiskStoreConfig) : DiskStoreConfig :=
  mkDiskStoreConfig (NumOfPartitions d) v.

(** The statements of [LoadServerConfig], one for each parameter:
    [if serverConfig.<field> == <zero> { serverConfig.<field> = <default> }]. *)
Definition defaultPort (c : ServerConfig) : ServerConfig :=
  if decide (Port c = "") then setPort Server.DEFAULT_TCP_PORT c else c.

Definition defaultHost (c : ServerConfig) : ServerConfig :=
  if decide (Host c = "") then setHost Server.DEFAULT_HOST c else c.

Definition defaultUDPPort (c : ServerConfig) : ServerConfig :=
  if decide (UDPPort c = "") then setUDPPort Server.DEFAULT_UDP_PORT c else c.

Definition defaultUDPBufferSize (c : ServerConfig) : ServerConfig :=
  if decide (UDPBufferSize c = 0%Z)
  then setUDPBufferSize (Z.of_nat Server.DEFAULT_UDP_BUFFER_SIZE) c else c.

Definition defaultWalPath (c : ServerConfig) : ServerConfig :=
  if decide (WalPath (DBEngineConfig_ c) = "")
  then setDBEngineConfig (setWalPath Wal.DEFAULT_WAL_PATH (DBEngineConfig_ c)) c else c.

Definition defaultLSMTreeMaxElementsBeforeFlush (c : ServerConfig) : ServerConfig :=
  if decide (LSMTreeMaxElementsBeforeFlush (DBEngineConfig_ c) = 0%Z)
  then setDBEngineConfig
         (setLSMTreeMaxElementsBeforeFlush DEFAULT_MAX_ELEMENTS_BEFORE_FLUSH
            (DBEngineConfig_ c)) c
  else c.

Definition defaultLSMTreeCompactionFrequency (c : ServerConfig) : ServerConfig :=
  if decide (LSMTreeCompactionFrequency (DBEngineConfig_ c) = 0%Z)
  then setDBEngineConfig
         (setLSMTreeCompactionFrequency DEFAULT_COMPACTION_FREQUENCY (DBEngineConfig_ c)) c
  else c.

Definition defaultBloomFilterErrorRate (c : ServerConfig) : ServerConfig :=
  if float_is_zero (BloomFilterErrorRate (DBEngineConfig_ c))
  then setDBEngineConfig
         (setBloomFilterErrorRate DEFAULT_BLOOM_FILTER_ERROR_RATE (DBEngineConfig_ c)) c
  else c.

Definition defaultBloomFilterCapacity (c : ServerConfig) : ServerConfig :=
  if decide (BloomFilterCapacity (DBEngineConfig_ c) = 0%Z)
  then setDBEngineConfig
         (setBloomFilterCapacity DEFAULT_BLOOM_FILTER_CAPACITY (DBEngineConfig_ c)) c
  else c.

Definition defaultNumOfPartitions (c : ServerConfig) : ServerConfig :=
  if decide (NumOfPartitions (DiskStoreConfig_ c) = 0%Z)
  then setDiskStoreConfig
         (setNumOfPartitions DEFAULT_NUM_OF_PARTITIONS (DiskStoreConfig_ c)) c
  else c.

Definition defaultDirectory (c : ServerConfig) : ServerConfig :=
  if decide (Directory (DiskStoreConfig_ c) = "")
  then setDiskStoreConfig (setDirectory DEFAULT_DIRECTORY (DiskStoreConfig_ c)) c
  else c.

(** [LoadServerConfig(configFile)], given what [ParseServerConfig(configFile)]
    returns: on an error of the parser the configuration is returned as it
    is, with the error; otherwise the statements run in the order of the
    source. *)
Definition LoadServerConfig (parsed : ServerConfig * option string)
  : ServerConfig * option string :=
  let '(serverConfig, err) := parsed in
  match err with
  | Some e => (serverConfig, Some e)
  | None =>
      let serverConfig := defaultPort serverConfig in
      let serverConfig := defaultHost serverConfig in
      let serverConfig := defaultUDPPort serverConfig in
      let serverConfig := defaultUDPBufferSize serverConfig in
      let serverConfig := defaultWalPath serverConfig in
      let serverConfig := defaultLSMTreeMaxElementsBeforeFlush serverConfig in
      let serverConfig := defaultLSMTreeCompactionFrequency serverConfig in
      let serverConfig := defaultBloomFilterErrorRate serverConfig in
      let serverConfig := defaultBloomFilterCapacity serverConfig in
      let serverConfig := defaultNumOfPartitions serverConfig in
      let serverConfig := defaultDirectory serverConfig in
      (serverConfig, None)
  end.

(** [initServerConfig(configFile)] of the earlier [main]: the same
    statements in the same order. *)
Definition initServerConfig (parsed : ServerConfig * option string)
  : ServerConfig * option string :=
  let '(serverConfig, err) := parsed in
  match err with
  | Some e => (serverConfig, Some e)
  | None =>
      let serverConfig := defaultPort serverConfig in
      let serverConfig := defaultHost serverConfig in
      let serverConfig := defaultUDPPort serverConfig in
      let serverConfig := defaultUDPBufferSize serverConfig in
      let serverConfig := defaultWalPath serverConfig in
      let serverConfig := defaultLSMTreeMaxElementsBeforeFlush serverConfig in
      let serverConfig := defaultLSMTreeCompactionFrequency serverConfig in
      let serverConfig := defaultBloomFilterErrorRate serverConfig in
      let serverConfig := defaultBloomFilterCapacity serverConfig in
      let serverConfig := defaultNumOfPartitions serverConfig in
      let serverConfig := defaultDirectory serverConfig in
      (serverConfig, None)
  end.

(** Every parameter is specified: no string is empty and no number is
    zero. *)
Definition specified (c : ServerConfig) : Prop :=
  Port c ≠ "" ∧ Host c ≠ "" ∧ UDPPort c ≠ "" ∧ UDPBufferSize c ≠ 0%Z ∧
  WalPath (DBEngineConfig_ c) ≠ "" ∧
  LSMTreeMaxElementsBeforeFlush (DBEngineConfig_ c) ≠ 0%Z ∧
  LSMTreeCompactionFrequency (DBEngineConfig_ c) ≠ 0%Z ∧
  float_is_zero (BloomFilterErrorRate (DBEngineConfig_ c)) = false ∧
  BloomFilterCapacity (DBEngineConfig_ c) ≠ 0%Z ∧
  NumOfPartitions (DiskStoreConfig_ c) ≠ 0%Z ∧
  Directory (DiskStoreConfig_ c) ≠ "".

End Config.
End Config.

(** ** Notions used in the statements *)

Section Notions.
Import OS Bufio Wal.

(** All the bytes appended to the log so far: those in the file, then those
    still in the buffer of the writer. *)
Definition log (w : WAL) : string := f_data (file w) +:+ buf (writer w).

(** No system call on the file of the WAL fails from now on, and the writer
    holds no error of an earlier failure. *)
Definition wal_ok (w : WAL) : Prop := healthy (file w) ∧ err (writer w) = None.

(** The line that [Write(data...)] is to append: each argument followed by
    the delimiter, then the end byte. *)
Definition record (data : list string) : string :=
  foldr (λ d line, d +:+ delimiter +:+ line) nl data.

(** A mutation, as the handlers pass it to [wal.Write] and as [ReadEntries]
    gives it back. *)
Inductive op : Type :=
  | OpPut (key value : string)
  | OpDelete (key : string).

(** The arguments of [wal.Write] for a mutation (lines 184 and 219 of the
    server). *)
Definition args_of (o : op) : list string :=
  match o with
  | OpPut key value => ["+"; key; value]
  | OpDelete key => ["-"; key]
  end.

Definition entry_of (o : op) : Entry :=
  match o with
  | OpPut key value => mkEntry key value false
  | OpDelete key => mkEntry key "" true
  end.

(** Neither pipe nor newline occurs in the key and the value. *)
Definition framed (o : op) : bool :=
  match o with
  | OpPut key value =>
      negb (hasByte pipe key) && negb (hasByte newline key)
      && negb (hasByte pipe value) && negb (hasByte newline value)
  | OpDelete key => negb (hasByte pipe key) && negb (hasByte newline key)
  end.

(** [Write] for each mutation in turn, up to the first error. *)
Fixpoint appendAll (ops : list op) (w : WAL) : option string * WAL :=
  match ops with
  | [] => (None, w)
  | o :: ops =>
      match Wal.Write (args_of o) w with
      | (Some e, w) => (Some e, w)
      | (None, w) => appendAll ops w
      end
  end.

(** The line of a mutation in the record format of the WAL:
    [+|<key>|<value>|] and [-|<key>|]. *)
Definition line_of (o : op) : string :=
  match o with
  | OpPut key value => "+|" +:+ key +:+ "|" +:+ value +:+ "|"
  | OpDelete key => "-|" +:+ key +:+ "|"
  end.

(** The records that a parser of the WAL accepts, in the words of the
    specification: a Put record has 4 pipe-split fields, of which the first
    is [+], and a Delete record has 3, of which the first is [-]. *)
Definition accepts (cmd : string) : option Entry :=
  let fields := Split cmd pipe in
  if decide (index fields 0 = "+" ∧ length fields = 4) then
    Some (mkEntry (index fields 1) (index fields 2) false)
  else if decide (index fields 0 = "-" ∧ length fields = 3) then
    Some (mkEntry (index fields 1) "" true)
  else None.

(** The accepted records among the lines of the file. *)
Definition valid_records (data : string) : list Entry :=
  omap accepts (Split data newline).

(** An entry applied to a sink. *)
Definition apply_entry `{LSMTreeOps T} (lsmTree : T) (e : Entry) : T :=
  if Delete e then Del (Key e) lsmTree else Put (Key e) (Value e) lsmTree.

(** A WAL as [OpenOrCreateWAL] makes it where there was no file. *)
Definition new_wal : WAL := mkWAL DEFAULT_WAL_PATH (mkFile "" 0 []) NewWriter.

(** [n] times the byte [a]. *)
Fixpoint bytes (n : nat) (a : ascii) : string :=
  match n with
  | 0 => ""
  | S n => String a (bytes n a)
  end.

(** In a list of calls, every lookup on the tree comes right after a
    [Persist] that returned no error. *)
Definition lookups_persisted (l : list Server.call) : Prop :=
  ∀ i k, l !! i = Some (Server.CallGet k) →
         ∃ j, i = S j ∧ l !! j = Some (Server.CallPersist None).

(** In a list of calls, every mutation of the tree comes right after the
    [Write] of its record that returned no error. *)
Definition mutations_logged (l : list Server.call) : Prop :=
  (∀ i k v, l !! i = Some (Server.CallPut k v) →
            ∃ j, i = S j ∧ l !! j = Some (Server.CallWrite ["+"; k; v] None)) ∧
  (∀ i k, l !! i = Some (Server.CallDel k) →
          ∃ j, i = S j ∧ l !! j = Some (Server.CallWrite ["-"; k] None)).

(** Both orders. *)
Definition write_ahead (l : list Server.call) : Prop :=
  lookups_persisted l ∧ mutations_logged l.

(** What is persisted for a key: the accepted records of the WAL file, in
    order, on top of what the Disk Store holds. *)
Definition persist_entry (m : string → option string) (e : Entry) : string → option string :=
  λ key, if decide (Key e = key) then (if Delete e then None else Some (Value e))
         else m key.

Definition persisted (ds : Lsm.DiskStore) (data : string) : string → option string :=
  foldl persist_entry (λ key, Lsm.ds_get key ds) (valid_records data).

(** The listeners are opened only after the load: in the steps of [Start],
    the load comes before either call to listen. *)
Definition opened_after_load (steps : list Server.step) : Prop :=
  ∀ i j,
    steps !! i = Some Server.ListenTCP ∨ steps !! i = Some Server.ListenUDP →
    steps !! j = Some Server.LoadData → j < i.

(** The handlers run only after the load: the load comes before both
    goroutines that serve clients. *)
Definition served_after_load (steps : list Server.step) : Prop :=
  ∀ i j,
    steps !! i = Some Server.AcceptTCP ∨ steps !! i = Some Server.ReadUDP →
    steps !! j = Some Server.LoadData → j < i.

(** Values for the examples: a Disk Store of two partitions by the length of
    the key, a new tree over it, a WAL whose buffer has room for one byte
    and whose file fails at the next write, and a server that restarts on a
    WAL file of three records. *)
Definition demo_store : Lsm.DiskStore :=
  Lsm.mkStore 2 len {[ 1 := {[ "a" := "1"; "d" := "4" ]} ]}.

Definition demo_tree : Lsm.LSMTree := Lsm.New 2 8 [len] demo_store.

Definition demo_env : @Server.Env Lsm.LSMTree := Server.mkEnv demo_tree new_wal [].

Definition full_wal : WAL :=
  mkWAL DEFAULT_WAL_PATH (mkFile "" 0 [SysErr 0 "no space left on device"])
        (mkWriter None (bytes 4095 "x") defaultBufSize).

Definition full_env : @Server.Env Lsm.LSMTree := Server.mkEnv demo_tree full_wal [].

Definition demo_server : @Server.Server Lsm.LSMTree :=
  Server.mkServer Server.DEFAULT_TCP_PORT Server.DEFAULT_HOST
    (Server.mkDBEngine demo_tree
       (mkWAL DEFAULT_WAL_PATH
          (mkFile ("+|b|2|" +:+ nl +:+ "-|a|" +:+ nl +:+ "+|c|3|" +:+ nl) 0 [])
          NewWriter))
    Server.DEFAULT_UDP_PORT Server.DEFAULT_UDP_BUFFER_SIZE.

(** The bytes of a file end a line: there are none, or the last is the end
    byte. *)
Definition terminated (data : string) : Prop :=
  data = "" ∨ ∃ d, data = d +:+ nl.

(** One call of the program on a WAL: [Write], [Persist], [ReadEntries] or
    [InitDB], whatever it returns. *)
Inductive wal_call (w : WAL) : WAL → Prop :=
  | call_Write data : wal_call w (Wal.Write data w).2
  | call_Persist : wal_call w (Persist w).2
  | call_ReadEntries : wal_call w (ReadEntries w).2
  | call_InitDB {T} `{LSMTreeOps T} (t : T) : wal_call w (InitDB t w).2.

(** The WALs that calls of the program lead to. *)
Definition reachable : WAL → WAL → Prop := rtc wal_call.

(** What [os.Stat] finds at a path holds these bytes. *)
Definition data_at (p : Path) : string :=
  match p with
  | NoFile _ => ""
  | IsFile f => f_data f
  end.

(** Neither pipe nor newline occurs in the key and the value of the entry,
    and the value of a Delete entry is empty. *)
Definition entry_framed (e : Entry) : Prop :=
  hasByte pipe (Key e) = false ∧ hasByte newline (Key e) = false ∧
  hasByte pipe (Value e) = false ∧ hasByte newline (Value e) = false ∧
  (Delete e = true → Value e = "").

(** The line a client sends for a mutation, and its tokens. *)
Definition command_line (o : op) : string :=
  match o with
  | OpPut key value => "PUT " +:+ key +:+ " " +:+ value
  | OpDelete key => "DEL " +:+ key
  end.

Definition command_of (o : op) : list string :=
  match o with
  | OpPut key value => ["PUT"; key; value]
  | OpDelete key => ["DEL"; key]
  end.

Definition call_of (o : op) : Server.call :=
  match o with
  | OpPut key value => Server.CallPut key value
  | OpDelete key => Server.CallDel key
  end.

(** A token of [strings.Fields]: not empty, and without white space. *)
Definition token (t : string) : Prop := t ≠ "" ∧ hasSpace t = false.

(** The key and the value are tokens in which no pipe and no newline
    occurs. *)
Definition clean (o : op) : Prop :=
  match o with
  | OpPut key value => token key ∧ token value
  | OpDelete key => token key
  end ∧ framed o = true.

(** A pipe occurs in the key or in the value. *)
Definition piped (o : op) : bool :=
  match o with
  | OpPut key value => hasByte pipe key || hasByte pipe value
  | OpDelete key => hasByte pipe key
  end.

(** No newline occurs in the key and the value. *)
Definition one_line (o : op) : bool :=
  match o with
  | OpPut key value => negb (hasByte newline key) && negb (hasByte newline value)
  | OpDelete key => negb (hasByte newline key)
  end.

(** The tree of the handlers is what a restart would rebuild: the accepted
    records of the log replayed on [t0]. *)
Definition recoverable `{LSMTreeOps T} (t0 : T) (s : Server.Env) : Prop :=
  Server.ltree s = foldl apply_entry t0 (valid_records (log (Server.wal s))).

(** The replies by which a TCP handler refuses a command. *)
Definition refusal (reply : string) : Prop :=
  reply = "Invalid command" +:+ nl ∨
  ∃ e, reply = "Error writing to WAL: " +:+ e +:+ nl ∨
       reply = "Error persisting WAL: " +:+ e +:+ nl.

End Notions.

(** * Properties *)

(** ** Strings *)

Section StringFacts.

Lemma app_cons a s r : String a s +:+ r = String a (s +:+ r).
Proof. reflexivity. Qed.

Lemma app_empty_r s : s +:+ "" = s.
Proof. induction s as [|a s IH]; [done|]. by rewrite app_cons, IH. Qed.

Lemma app_assoc_s s1 s2 s3 : (s1 +:+ s2) +:+ s3 = s1 +:+ (s2 +:+ s3).
Proof. induction s1 as [|a s1 IH]; [done|]. by rewrite !app_cons, IH. Qed.

Lemma take_drop_bytes n s : take_bytes n s +:+ drop_bytes n s = s.
Proof.
  revert s. induction n as [|n IH]; intros [|a s]; simpl; try done.
  by rewrite app_cons, IH.
Qed.

Lemma take_bytes_all n s : len s ≤ n → take_bytes n s = s.
Proof.
  revert s. induction n as [|n IH]; intros [|a s]; simpl; try done; [lia|].
  intros. f_equal. apply IH. lia.
Qed.

Lemma drop_bytes_all n s : len s ≤ n → drop_bytes n s = "".
Proof.
  revert s. induction n as [|n IH]; intros [|a s]; simpl; try done; [lia|].
  intros. apply IH. lia.
Qed.

Lemma len_zero s : len s = 0 → s = "".
Proof. by destruct s. Qed.

(** [Split] always yields a piece. *)
Lemma Split_cons s c : ∃ piece pieces, Split s c = piece :: pieces.
Proof.
  induction s as [|a s (piece & pieces & IH)]; simpl; [by eauto|].
  case_decide; [by eauto|]. rewrite IH. eauto.
Qed.

Lemma Split_app_sep s r c :
  hasByte c s = false → Split (s +:+ String c r) c = s :: Split r c.
Proof.
  induction s as [|a s IH]; simpl.
  - intros _. by rewrite decide_True.
  - intros [Ha Hs]%orb_false_elim. apply bool_decide_eq_false in Ha.
    rewrite decide_False by done. by rewrite IH.
Qed.

(** A separator splits the pieces before it from the pieces after it. *)
Lemma Split_app_split s1 s2 c :
  Split (s1 +:+ String c s2) c = Split s1 c ++ Split s2 c.
Proof.
  induction s1 as [|a s1 IH]; simpl.
  - by rewrite decide_True.
  - case_decide; [by rewrite IH|]. rewrite IH.
    by destruct (Split_cons s1 c) as (piece & pieces & ->).
Qed.

Lemma hasByte_app c s1 s2 : hasByte c (s1 +:+ s2) = hasByte c s1 || hasByte c s2.
Proof.
  induction s1 as [|a s1 IH]; [done|]. simpl.
  by rewrite IH, orb_assoc.
Qed.

End StringFacts.

(** ** The buffered writer *)

Section BufioFacts.
Import OS Bufio.

Lemma next_data f r f' :
  next f = (r, f') → f_data f' = f_data f ∧ f_synced f' = f_synced f.
Proof. unfold next. destruct (f_io f); intros [= <- <-]; done. Qed.

Lemma next_healthy f r f' :
  healthy f → next f = (r, f') → r = SysOk ∧ healthy f'.
Proof.
  unfold healthy, next. destruct (f_io f) as [|r0 io] eqn:E; intros Hh [= <- <-].
  - by rewrite E.
  - apply Forall_cons in Hh as [<- Hh]. done.
Qed.

(** A write to the file that reports no error has appended all of [p]. *)
Lemma OS_Write_ok p f n f' :
  OS.Write p f = (n, None, f') → n = len p ∧ f_data f' = f_data f +:+ p.
Proof.
  unfold OS.Write. destruct (next f) as [r f1] eqn:E.
  apply next_data in E as [E _]. destruct r; intros [= <- <-]; simpl. by rewrite E.
Qed.

Lemma OS_Write_healthy p f n e f' :
  healthy f → OS.Write p f = (n, e, f') → e = None ∧ healthy f'.
Proof.
  unfold OS.Write. destruct (next f) as [r f1] eqn:E. intros Hh.
  destruct (next_healthy _ _ _ Hh E) as [-> Hh1]. intros [= <- <- <-]. done.
Qed.

(** The error that [Flush] returns is the one it leaves in the writer. *)
Lemma Flush_err b f e b' f' : Flush b f = (e, b', f') → err b' = e.
Proof.
  unfold Flush. destruct (err b) as [e0|] eqn:E; [by intros [= <- <- <-]|].
  case_decide; [by intros [= <- <- <-]|].
  destruct (OS.Write (buf b) f) as [[n e1] f1].
  destruct e1 as [e1|]; [by intros [= <- <- <-]|].
  case_decide; by intros [= <- <- <-].
Qed.

Lemma Flush_size b f e b' f' : Flush b f = (e, b', f') → size b' = size b.
Proof.
  unfold Flush. destruct (err b) as [e0|] eqn:E; [by intros [= <- <- <-]|].
  case_decide; [by intros [= <- <- <-]|].
  destruct (OS.Write (buf b) f) as [[n e1] f1].
  destruct e1 as [e1|]; [by intros [= <- <- <-]|].
  case_decide; by intros [= <- <- <-].
Qed.

(** A [Flush] that succeeds has moved the buffer to the file. *)
Lemma Flush_ok b f b' f' :
  Flush b f = (None, b', f') →
  err b = None ∧ buf b' = "" ∧ f_data f' = f_data f +:+ buf b.
Proof.
  unfold Flush. destruct (err b) as [e0|] eqn:E; [done|].
  case_decide as Hn.
  - intros [= <- <-]. apply len_zero in Hn. by rewrite Hn, app_empty_r.
  - destruct (OS.Write (buf b) f) as [[n e1] f1] eqn:Ew.
    destruct e1 as [e1|]; [done|]. case_decide; [done|].
    intros [= <- <-]. apply OS_Write_ok in Ew as [_ ->]. done.
Qed.

Lemma Flush_healthy b f e b' f' :
  healthy f → err b = None → Flush b f = (e, b', f') → e = None ∧ healthy f'.
Proof.
  unfold Flush. intros Hh ->. case_decide; [by intros [= <- <- <-]|].
  destruct (OS.Write (buf b) f) as [[n e1] f1] eqn:Ew.
  pose proof Ew as Ew'. apply (OS_Write_healthy _ _ _ _ _ Hh) in Ew as [-> Hh1].
  apply OS_Write_ok in Ew' as [-> _].
  rewrite decide_False by (unfold Buffered; lia). by intros [= <- <- <-].
Qed.

(** With an error stored the loop of [Write] does not run. *)
Lemma writeLoop_err fuel b f p nn e :
  err b = Some e → writeLoop fuel b f p nn = (b, f, p, nn).
Proof.
  intros E. destruct fuel; [done|]. simpl.
  rewrite decide_False; [done|]. rewrite E. by intros [_ ?].
Qed.

Lemma writeLoop_S fuel b f p nn :
  writeLoop (S fuel) b f p nn =
  if decide (Available b < len p ∧ err b = None) then
    let '(n, b, f) := writeStep b f p in
    writeLoop fuel b f (drop_bytes n p) (nn + n)
  else (b, f, p, nn).
Proof. reflexivity. Qed.

(** An iteration that leaves no error keeps the size, loses no byte, and
    leaves either an empty buffer or nothing more to write. *)
Lemma writeStep_ok b f p n b' f' :
  writeStep b f p = (n, b', f') → err b' = None →
  size b' = size b ∧
  f_data f' +:+ buf b' +:+ drop_bytes n p = f_data f +:+ buf b +:+ p ∧
  buf b' = "".
Proof.
  unfold writeStep. case_decide as Hn.
  - destruct (OS.Write p f) as [[n1 e] f1] eqn:Ew. intros [= <- <- <-]; simpl.
    intros ->. apply OS_Write_ok in Ew as [-> ->]. apply len_zero in Hn.
    rewrite Hn, drop_bytes_all by lia. rewrite !app_empty_r. done.
  - unfold copy. destruct (Flush _ f) as [[e b1] f1] eqn:Ef. intros [= <- <- <-] Hb.
    pose proof (Flush_err _ _ _ _ _ Ef) as He. rewrite Hb in He. subst e.
    pose proof (Flush_size _ _ _ _ _ Ef) as Hs.
    apply Flush_ok in Ef as (_ & -> & ->). simpl in *.
    split; [done|]. split; [|done].
    rewrite !app_assoc_s. by rewrite take_drop_bytes.
Qed.

Lemma writeStep_healthy b f p n b' f' :
  healthy f → err b = None → writeStep b f p = (n, b', f') →
  err b' = None ∧ healthy f'.
Proof.
  unfold writeStep. intros Hh Hb. case_decide.
  - destruct (OS.Write p f) as [[n1 e] f1] eqn:Ew. intros [= <- <- <-]; simpl.
    by apply (OS_Write_healthy _ _ _ _ _ Hh) in Ew as [-> ?].
  - unfold copy. destruct (Flush _ f) as [[e b1] f1] eqn:Ef. intros [= <- <- <-].
    pose proof (Flush_err _ _ _ _ _ Ef) as He.
    apply (Flush_healthy _ _ _ _ _ Hh) in Ef as [-> ?]; done.
Qed.

(** The loop loses no byte. *)
Lemma writeLoop_ok fuel b f p nn b' f' p' nn' :
  writeLoop fuel b f p nn = (b', f', p', nn') → err b' = None →
  size b' = size b ∧ f_data f' +:+ buf b' +:+ p' = f_data f +:+ buf b +:+ p.
Proof.
  revert b f p nn. induction fuel as [|fuel IH]; intros b f p nn.
  { by intros [= <- <- <- <-]. }
  rewrite writeLoop_S. case_decide as Hc; [|by intros [= <- <- <- <-]].
  destruct (writeStep b f p) as [[n b1] f1] eqn:Es. intros Hl Hb'.
  destruct (err b1) as [e|] eqn:Eb1.
  - rewrite (writeLoop_err _ _ _ _ _ e) in Hl by done.
    injection Hl as <- <- <- <-. congruence.
  - destruct (IH _ _ _ _ Hl Hb') as [Hs Hd].
    destruct (writeStep_ok _ _ _ _ _ _ Es Eb1) as (Hs1 & Hd1 & _).
    split; congruence.
Qed.

(** The loop condition is false: the rest fits when no error is stored. *)
Ltac loop_ended Hc :=
  intros [= <- <- <- <-] ?; apply Nat.nlt_ge; intros ?; by apply Hc.

(** After two iterations the loop has ended: an error is stored, or the rest
    of [p] fits. *)
Lemma writeLoop_exit fuel b f p nn b' f' p' nn' :
  writeLoop (2 + fuel) b f p nn = (b', f', p', nn') →
  err b' = None → len p' ≤ Available b'.
Proof.
  assert (Hdirect : ∀ fuel b f p nn,
    buf b = "" → writeLoop (1 + fuel) b f p nn = (b', f', p', nn') →
    err b' = None → len p' ≤ Available b').
  { clear. intros fuel b f p nn Hb. simpl (1 + fuel). rewrite writeLoop_S.
    case_decide as Hc; [|loop_ended Hc].
    unfold writeStep. rewrite decide_True by (unfold Buffered; by rewrite Hb).
    destruct (OS.Write p f) as [[n e] f1] eqn:Ew. destruct e as [e|].
    - rewrite (writeLoop_err _ _ _ _ _ e) by done. intros [= <- <- <- <-]. done.
    - apply OS_Write_ok in Ew as [-> _]. rewrite drop_bytes_all by lia.
      destruct fuel; [intros [= <- <- <- <-]; simpl; lia|].
      rewrite writeLoop_S, decide_False by (simpl; lia).
      intros [= <- <- <- <-]; simpl; lia. }
  simpl (2 + fuel). rewrite writeLoop_S.
  case_decide as Hc; [|loop_ended Hc].
  destruct (writeStep b f p) as [[n b1] f1] eqn:Es. intros Hl Hb'.
  destruct (err b1) as [e|] eqn:Eb1.
  - rewrite (writeLoop_err _ _ _ _ _ e) in Hl by done.
    injection Hl as <- <- <- <-. congruence.
  - destruct (writeStep_ok _ _ _ _ _ _ Es Eb1) as (_ & _ & Hbuf).
    by apply (Hdirect fuel b1 f1 _ _ Hbuf Hl).
Qed.

(** More fuel than two changes nothing. *)
Lemma writeLoop_fuel fuel b f p nn :
  writeLoop (2 + fuel) b f p nn = writeLoop 2 b f p nn.
Proof.
  assert (Hdirect : ∀ fuel b f p nn,
    buf b = "" → writeLoop (1 + fuel) b f p nn = writeLoop 1 b f p nn).
  { clear. intros fuel b f p nn Hb. simpl (1 + fuel). rewrite !writeLoop_S.
    case_decide as Hc; [|done].
    unfold writeStep. rewrite decide_True by (unfold Buffered; by rewrite Hb).
    destruct (OS.Write p f) as [[n e] f1] eqn:Ew. destruct e as [e|].
    - by rewrite !(writeLoop_err _ _ _ _ _ e).
    - apply OS_Write_ok in Ew as [-> _]. rewrite drop_bytes_all by lia.
      destruct fuel; [done|].
      by rewrite writeLoop_S, decide_False by (simpl; lia). }
  simpl (2 + fuel). rewrite !(writeLoop_S _ b).
  case_decide as Hc; [|done].
  destruct (writeStep b f p) as [[n b1] f1] eqn:Es.
  destruct (err b1) as [e|] eqn:Eb1.
  - by rewrite !(writeLoop_err _ _ _ _ _ e).
  - destruct (writeStep_ok _ _ _ _ _ _ Es Eb1) as (_ & _ & Hbuf).
    by apply (Hdirect fuel).
Qed.

Lemma writeLoop_healthy fuel b f p nn b' f' p' nn' :
  healthy f → err b = None → writeLoop fuel b f p nn = (b', f', p', nn') →
  err b' = None ∧ healthy f'.
Proof.
  revert b f p nn. induction fuel as [|fuel IH]; intros b f p nn Hh Hb.
  { by intros [= <- <- <- <-]. }
  rewrite writeLoop_S. case_decide as Hc; [|by intros [= <- <- <- <-]].
  destruct (writeStep b f p) as [[n b1] f1] eqn:Es.
  destruct (writeStep_healthy _ _ _ _ _ _ Hh Hb Es) as [Hb1 Hh1].
  by apply IH.
Qed.

(** [Write] that reports no error has appended all of [p] to the bytes of
    the file and the buffer. *)
Lemma Write_ok p b f n b' f' :
  Bufio.Write p b f = (n, None, b', f') →
  err b = None ∧ err b' = None ∧ size b' = size b ∧
  f_data f' +:+ buf b' = (f_data f +:+ buf b) +:+ p.
Proof.
  unfold Bufio.Write. destruct (writeLoop 2 b f p 0) as [[[b1 f1] p1] nn] eqn:El.
  destruct (err b1) as [e|] eqn:Eb1; [done|].
  unfold copy. intros [= <- <- <-]; simpl.
  pose proof (writeLoop_exit 0 _ _ _ _ _ _ _ _ El Eb1) as Hfit.
  destruct (writeLoop_ok _ _ _ _ _ _ _ _ _ El Eb1) as [Hs Hd].
  assert (err b = None) as Hb.
  { destruct (err b) as [e|] eqn:Eb; [|done].
    rewrite (writeLoop_err _ _ _ _ _ e) in El by done. congruence. }
  rewrite Nat.min_r, take_bytes_all by lia. by rewrite app_assoc_s.
Qed.

Lemma Write_healthy p b f n e b' f' :
  healthy f → err b = None → Bufio.Write p b f = (n, e, b', f') →
  e = None ∧ healthy f'.
Proof.
  unfold Bufio.Write. intros Hh Hb.
  destruct (writeLoop 2 b f p 0) as [[[b1 f1] p1] nn] eqn:El.
  destruct (writeLoop_healthy _ _ _ _ _ _ _ _ _ Hh Hb El) as [-> Hh1].
  unfold copy. by intros [= <- <- <- <-].
Qed.

End BufioFacts.

(** ** The write-ahead log: appending *)

Section WalWriteFacts.
Import OS Bufio Wal.

Lemma record_app data :
  foldr (λ d line, d +:+ delimiter +:+ line) "" data +:+ nl = record data.
Proof.
  unfold record. induction data as [|d data IH]; [done|]. simpl.
  by rewrite !app_assoc_s, IH.
Qed.

Lemma flushBuffer_ok w w' :
  flushBuffer w = (None, w') →
  filepath w' = filepath w ∧ size (writer w') = size (writer w) ∧
  log w' = log w.
Proof.
  unfold flushBuffer. destruct (Flush _ _) as [[e b] f] eqn:Ef.
  destruct e; [done|]. intros [= <-]; simpl.
  pose proof (Flush_size _ _ _ _ _ Ef). unfold log; simpl.
  apply Flush_ok in Ef as (_ & -> & ->). by rewrite app_empty_r.
Qed.

Lemma writeData_ok data w w' :
  writeData data w = (None, w') →
  filepath w' = filepath w ∧ size (writer w') = size (writer w) ∧
  log w' = log w +:+ foldr (λ d line, d +:+ delimiter +:+ line) "" data.
Proof.
  revert w. induction data as [|d data IH]; intros w; simpl.
  { intros [= <-]. by rewrite app_empty_r. }
  destruct (Bufio.Write _ _ _) as [[[n e] b] f] eqn:Ew.
  destruct e; [done|]. intros Hd. apply IH in Hd as (-> & -> & ->).
  apply Write_ok in Ew as (_ & _ & Hs & Hl). unfold log; simpl.
  by rewrite Hl, !app_assoc_s.
Qed.

(** A [Write] that returns no error has appended exactly the record. *)
Lemma Wal_Write_ok data w w' :
  Wal.Write data w = (None, w') →
  filepath w' = filepath w ∧ size (writer w') = size (writer w) ∧
  err (writer w') = None ∧ log w' = log w +:+ record data.
Proof.
  unfold Wal.Write.
  destruct (if decide _ then _ else _) as [e w1] eqn:E1.
  destruct e as [e|]; [done|].
  assert (filepath w1 = filepath w ∧ size (writer w1) = size (writer w)
          ∧ log w1 = log w) as (Hp1 & Hs1 & Hl1).
  { case_decide; [by apply flushBuffer_ok|]. by injection E1 as <-. }
  destruct (writeData data w1) as [e w2] eqn:E2. destruct e as [e|]; [done|].
  apply writeData_ok in E2 as (Hp2 & Hs2 & Hl2).
  unfold WriteString. destruct (Bufio.Write nl _ _) as [[[n e] b] f] eqn:Ew.
  destruct e as [e|]; [done|]. intros [= <-]; simpl.
  apply Write_ok in Ew as (_ & Hb & Hs & Hl). unfold log in *; simpl.
  rewrite Hl, Hl2, Hl1, <- record_app, !app_assoc_s. repeat split; congruence.
Qed.

Lemma flushBuffer_healthy w e w' :
  wal_ok w → flushBuffer w = (e, w') → e = None ∧ wal_ok w'.
Proof.
  unfold flushBuffer, wal_ok. intros [Hh Hb].
  destruct (Flush _ _) as [[e1 b] f] eqn:Ef.
  pose proof (Flush_err _ _ _ _ _ Ef) as He.
  apply (Flush_healthy _ _ _ _ _ Hh Hb) in Ef as [-> ?].
  by intros [= <- <-].
Qed.

Lemma writeData_healthy data w e w' :
  wal_ok w → writeData data w = (e, w') → e = None ∧ wal_ok w'.
Proof.
  revert w. induction data as [|d data IH]; intros w [Hh Hb]; simpl.
  { by intros [= <- <-]. }
  destruct (Bufio.Write _ _ _) as [[[n e1] b] f] eqn:Ew.
  pose proof Ew as Ew'.
  apply (Write_healthy _ _ _ _ _ _ _ Hh Hb) in Ew as [-> Hh1].
  apply Write_ok in Ew' as (_ & Hb1 & _). by apply IH.
Qed.

(** Without failures of the file, [Write] returns no error. *)
Lemma Wal_Write_healthy data w e w' :
  wal_ok w → Wal.Write data w = (e, w') → e = None ∧ wal_ok w'.
Proof.
  unfold Wal.Write. intros Hw.
  destruct (if decide _ then _ else _) as [e1 w1] eqn:E1.
  assert (e1 = None ∧ wal_ok w1) as [-> Hw1].
  { case_decide; [by eapply flushBuffer_healthy|]. by injection E1 as <- <-. }
  destruct (writeData data w1) as [e2 w2] eqn:E2.
  apply (writeData_healthy _ _ _ _ Hw1) in E2 as [-> [Hh2 Hb2]].
  unfold WriteString. destruct (Bufio.Write nl _ _) as [[[n e3] b] f] eqn:Ew.
  pose proof Ew as Ew'.
  apply (Write_healthy _ _ _ _ _ _ _ Hh2 Hb2) in Ew as [-> Hh3].
  apply Write_ok in Ew' as (_ & Hb3 & _). by intros [= <- <-].
Qed.

(** Without failures of the file, [Persist] returns no error and leaves the
    whole log in the file, durable. *)
Lemma Persist_healthy w e w' :
  wal_ok w → Persist w = (e, w') →
  e = None ∧ wal_ok w' ∧ filepath w' = filepath w ∧
  f_data (file w') = log w ∧ buf (writer w') = "" ∧
  f_synced (file w') = len (log w).
Proof.
  unfold Persist, wal_ok. intros [Hh Hb].
  destruct (Flush _ _) as [[e1 b] f] eqn:Ef. pose proof Ef as Ef'.
  apply (Flush_healthy _ _ _ _ _ Hh Hb) in Ef as [-> Hh1].
  apply Flush_ok in Ef' as (_ & Hbuf & Hd).
  unfold Sync. destruct (next f) as [r f1] eqn:En.
  destruct (next_healthy _ _ _ Hh1 En) as [-> Hh2].
  apply next_data in En as [Hd1 _].
  intros [= <- <-]; simpl. unfold log. rewrite Hd1, Hd. done.
Qed.

Lemma appendAll_healthy ops w e w' :
  wal_ok w → appendAll ops w = (e, w') →
  e = None ∧ wal_ok w' ∧ filepath w' = filepath w ∧
  log w' = log w +:+ foldr (λ o data, record (args_of o) +:+ data) "" ops.
Proof.
  revert w. induction ops as [|o ops IH]; intros w Hw; simpl.
  { intros [= <- <-]. by rewrite app_empty_r. }
  destruct (Wal.Write _ w) as [e1 w1] eqn:E1. pose proof E1 as E1'.
  apply (Wal_Write_healthy _ _ _ _ Hw) in E1 as [-> Hw1].
  apply Wal_Write_ok in E1' as (Hp & _ & _ & Hl).
  intros (-> & ? & -> & ->)%IH; [|done]. by rewrite Hl, Hp, !app_assoc_s.
Qed.

End WalWriteFacts.

(** ** The write-ahead log: reading and replay *)

Section WalReadFacts.
Import OS Bufio Wal.
Context {T : Type} `{Ops : LSMTreeOps T}.

Lemma readEntry_accepts entries cmd :
  readEntry entries cmd = entries ++ option_list (accepts cmd).
Proof.
  unfold readEntry, accepts. case_decide as Hc.
  { subst cmd. simpl. by rewrite app_nil_r. }
  destruct (Split cmd pipe) as [|a0 args]; unfold index; simpl;
    repeat case_decide; simpl; rewrite ?app_nil_r; try done;
    exfalso; intuition (simplify_eq; congruence).
Qed.

Lemma replayCmd_accepts (t : T) cmd :
  replayCmd t cmd = from_option (apply_entry t) t (accepts cmd).
Proof.
  unfold replayCmd, accepts, apply_entry. case_decide as Hc.
  { by subst cmd. }
  destruct (Split cmd pipe) as [|a0 args]; unfold index; simpl;
    repeat case_decide; simpl; try done;
    exfalso; intuition (simplify_eq; congruence).
Qed.

Lemma foldl_readEntry entries cmds :
  foldl readEntry entries cmds = entries ++ omap accepts cmds.
Proof.
  revert entries. induction cmds as [|cmd cmds IH]; intros entries; simpl.
  { by rewrite app_nil_r. }
  rewrite IH, readEntry_accepts. destruct (accepts cmd); simpl.
  - by rewrite <- app_assoc.
  - by rewrite app_nil_r.
Qed.

Lemma foldl_replayCmd (t : T) cmds :
  foldl replayCmd t cmds = foldl apply_entry t (omap accepts cmds).
Proof.
  revert t. induction cmds as [|cmd cmds IH]; intros t; simpl; [done|].
  rewrite IH, replayCmd_accepts. by destruct (accepts cmd).
Qed.

Lemma Split_line_of o :
  framed o = true →
  Split (line_of o) pipe = args_of o ++ [""] ∧ hasByte newline (line_of o) = false.
Proof.
  destruct o as [key value|key]; unfold framed;
    rewrite ?andb_true_iff, ?negb_true_iff.
  - intros [[[Hk Hkn] Hv] Hvn]. split.
    + change (line_of (OpPut key value))
        with ("+" +:+ String pipe (key +:+ String pipe (value +:+ String pipe ""))).
      by rewrite !Split_app_sep.
    + unfold line_of. rewrite !hasByte_app, Hkn, Hvn. done.
  - intros [Hk Hkn]. split.
    + change (line_of (OpDelete key))
        with ("-" +:+ String pipe (key +:+ String pipe "")).
      by rewrite !Split_app_sep.
    + unfold line_of. rewrite !hasByte_app, Hkn. done.
Qed.

Lemma accepts_line_of o : framed o = true → accepts (line_of o) = Some (entry_of o).
Proof.
  intros [Hs _]%Split_line_of. unfold accepts. rewrite Hs.
  by destruct o.
Qed.

Lemma record_line_of o : record (args_of o) = line_of o +:+ nl.
Proof. by destruct o; unfold record, line_of; simpl; rewrite ?app_assoc_s. Qed.

(** A well-framed record after the lines of a file adds its entry to the
    accepted records. *)
Lemma valid_records_app data o :
  terminated data → framed o = true →
  valid_records (data +:+ line_of o +:+ nl) = valid_records data ++ [entry_of o].
Proof.
  intros Hd Ho. unfold valid_records.
  assert (omap accepts (Split (line_of o +:+ nl) newline) = [entry_of o]) as Hline.
  { pose proof (Split_line_of o Ho) as [_ Hn].
    change (line_of o +:+ nl) with (line_of o +:+ String newline "").
    rewrite Split_app_sep by done. simpl. by rewrite accepts_line_of. }
  destruct Hd as [->|[d ->]]; [done|].
  change (d +:+ nl) with (d +:+ String newline "").
  rewrite app_assoc_s. change (String newline "" +:+ ?r) with (String newline r).
  rewrite (Split_app_split d (line_of o +:+ nl)), (Split_app_split d "").
  rewrite !omap_app, Hline. simpl. by rewrite app_nil_r.
Qed.

Lemma valid_records_ops_app data ops :
  terminated data → Forall (λ o, framed o = true) ops →
  valid_records (data +:+ foldr (λ o data, record (args_of o) +:+ data) "" ops)
  = valid_records data ++ (entry_of <$> ops).
Proof.
  intros Hd Hops. revert data Hd.
  induction Hops as [|o ops Ho _ IH]; intros data Hd; simpl.
  { by rewrite app_empty_r, app_nil_r. }
  rewrite <- app_assoc_s, IH.
  - rewrite record_line_of, valid_records_app by done. by rewrite <- app_assoc.
  - right. exists (data +:+ line_of o). by rewrite record_line_of, app_assoc_s.
Qed.

(** [ReadEntries] when the file is opened and read without error. *)
Lemma ReadEntries_healthy w r w' :
  wal_ok w → ReadEntries w = (r, w') →
  r = inl (valid_records (f_data (file w))) ∧ wal_ok w'.
Proof.
  unfold ReadEntries, wal_ok, OpenFile, ReadAll. intros [Hh Hb].
  destruct (next (file w)) as [r1 f1] eqn:E1.
  destruct (next_healthy _ _ _ Hh E1) as [-> Hh1].
  destruct (next f1) as [r2 f2] eqn:E2.
  destruct (next_healthy _ _ _ Hh1 E2) as [-> Hh2].
  apply next_data in E1 as [E1 _]. apply next_data in E2 as [E2 _].
  intros [= <- <-]; simpl. split; [|done].
  by rewrite foldl_readEntry, E2, E1.
Qed.

End WalReadFacts.

(** ** The write-ahead log: record format and round trip *)

Section WalClaims.
Import OS Bufio Wal.

Example new_wal_open :
  OpenOrCreateWAL DEFAULT_WAL_PATH (NoFile []) = (Some new_wal, None).
Proof. reflexivity. Qed.

Lemma new_wal_ok : wal_ok new_wal.
Proof. split; [constructor|done]. Defined.

(** C5.  A [Write] of a Put that returns no error has appended to the log the
    one line [+|<key>|<value>|] and the end byte, a delimiter after every
    argument, and a [Write] of a Delete the line [-|<key>|]; while the file
    does not fail [Write] returns no error.  With no pipe in the key and the
    value the line of a Put splits on the pipe into the 4 fields [+], key,
    value and an empty one, and the line of a Delete into the 3 fields [-],
    key and an empty one; with no newline in them the bytes appended are one
    line. *)
Theorem Write_emits_framed_record (w : WAL) (key value : string) :
  (∀ w', Wal.Write ["+"; key; value] w = (None, w') →
         log w' = log w +:+ ("+|" +:+ key +:+ "|" +:+ value +:+ "|") +:+ nl) ∧
  (∀ w', Wal.Write ["-"; key] w = (None, w') →
         log w' = log w +:+ ("-|" +:+ key +:+ "|") +:+ nl) ∧
  (wal_ok w →
     (Wal.Write ["+"; key; value] w).1 = None ∧ (Wal.Write ["-"; key] w).1 = None) ∧
  (hasByte pipe key = false → hasByte pipe value = false →
     Split ("+|" +:+ key +:+ "|" +:+ value +:+ "|") pipe = ["+"; key; value; ""]) ∧
  (hasByte pipe key = false →
     Split ("-|" +:+ key +:+ "|") pipe = ["-"; key; ""]) ∧
  (hasByte newline key = false → hasByte newline value = false →
     Split (("+|" +:+ key +:+ "|" +:+ value +:+ "|") +:+ nl) newline
       = ["+|" +:+ key +:+ "|" +:+ value +:+ "|"; ""] ∧
     Split (("-|" +:+ key +:+ "|") +:+ nl) newline = ["-|" +:+ key +:+ "|"; ""]).
Proof.
  split_and!.
  - intros w' (_ & _ & _ & ->)%Wal_Write_ok.
    f_equal. exact (record_line_of (OpPut key value)).
  - intros w' (_ & _ & _ & ->)%Wal_Write_ok.
    f_equal. exact (record_line_of (OpDelete key)).
  - intros Hw. split.
    + destruct (Wal.Write ["+"; key; value] w) as [e w'] eqn:E.
      by apply Wal_Write_healthy in E as [-> _].
    + destruct (Wal.Write ["-"; key] w) as [e w'] eqn:E.
      by apply Wal_Write_healthy in E as [-> _].
  - intros Hk Hv.
    change ("+|" +:+ key +:+ "|" +:+ value +:+ "|")
      with ("+" +:+ String pipe (key +:+ String pipe (value +:+ String pipe ""))).
    by rewrite !Split_app_sep.
  - intros Hk.
    change ("-|" +:+ key +:+ "|")
      with ("-" +:+ String pipe (key +:+ String pipe "")).
    by rewrite !Split_app_sep.
  - intros Hk Hv. split.
    + change (?l +:+ nl) with (l +:+ String newline "").
      rewrite Split_app_sep; [done|]. simpl. by rewrite !hasByte_app, Hk, Hv.
    + change (?l +:+ nl) with (l +:+ String newline "").
      rewrite Split_app_sep; [done|]. simpl. by rewrite !hasByte_app, Hk.
Qed.

Lemma Write_emits_framed_record_witness :
  log (Wal.Write ["+"; "foo"; "bar"] new_wal).2 = "+|foo|bar|" +:+ nl ∧
  log (Wal.Write ["-"; "foo"] new_wal).2 = "-|foo|" +:+ nl ∧
  (Wal.Write ["+"; "foo"; "bar"] new_wal).1 = None ∧
  Split "+|foo|bar|" pipe = ["+"; "foo"; "bar"; ""] ∧
  Split "-|foo|" pipe = ["-"; "foo"; ""] ∧
  Split ("+|foo|bar|" +:+ nl) newline = ["+|foo|bar|"; ""].
Proof.
  destruct (Write_emits_framed_record new_wal "foo" "bar")
    as (Hput & Hdel & Hok & H4 & H3 & Hline).
  split; [apply Hput; vm_compute; reflexivity|].
  split; [apply Hdel; vm_compute; reflexivity|].
  split; [apply Hok, new_wal_ok|].
  split; [apply H4; reflexivity|].
  split; [apply H3; reflexivity|].
  apply Hline; reflexivity.
Defined.

(** C7.  On a WAL whose file does not fail, appending with [Write] a
    sequence of Puts and Deletes whose keys and values hold neither pipe nor
    newline, then [Persist], then [ReadEntries] returns no error.  When the
    log was empty [ReadEntries] yields exactly the entries of the sequence:
    the same operations, keys and values in the same order.  When the log
    held lines before, it yields the entries accepted from those, followed by
    the entries of the sequence. *)
Theorem write_read_roundtrip (ops : list op) (w : WAL) :
  wal_ok w → terminated (log w) → Forall (λ o, framed o = true) ops →
  ∃ w1 w2 w3,
    appendAll ops w = (None, w1) ∧
    Persist w1 = (None, w2) ∧
    ReadEntries w2 = (inl (valid_records (log w) ++ (entry_of <$> ops)), w3) ∧
    (log w = "" → ReadEntries w2 = (inl (entry_of <$> ops), w3)).
Proof.
  intros Hw Hlog Hops.
  destruct (appendAll ops w) as [e1 w1] eqn:E1.
  apply (appendAll_healthy _ _ _ _ Hw) in E1 as (-> & Hw1 & _ & Hl1).
  exists w1. destruct (Persist w1) as [e2 w2] eqn:E2.
  apply (Persist_healthy _ _ _ Hw1) in E2 as (-> & Hw2 & _ & Hd2 & _).
  exists w2. destruct (ReadEntries w2) as [r w3] eqn:E3.
  apply (ReadEntries_healthy _ _ _ Hw2) in E3 as [-> _].
  exists w3. split; [done|]. split; [done|].
  rewrite Hd2, Hl1, valid_records_ops_app by done.
  split; [done|]. by intros ->.
Qed.

Lemma write_read_roundtrip_witness :
  ∃ w1 w2 w3,
    appendAll [OpPut "a" "1"; OpDelete "a"; OpPut "b" "2"] new_wal = (None, w1) ∧
    Persist w1 = (None, w2) ∧
    ReadEntries w2
    = (inl [mkEntry "a" "1" false; mkEntry "a" "" true; mkEntry "b" "2" false], w3).
Proof.
  destruct (write_read_roundtrip [OpPut "a" "1"; OpDelete "a"; OpPut "b" "2"] new_wal)
    as (w1 & w2 & w3 & Ha & Hp & _ & Hr).
  - apply new_wal_ok.
  - left. reflexivity.
  - repeat constructor.
  - exists w1, w2, w3. split; [exact Ha|]. split; [exact Hp|].
    apply Hr. reflexivity.
Defined.

End WalClaims.

Section ReplayClaims.
Import OS Bufio Wal.
Context {T : Type} `{Ops : LSMTreeOps T}.

(** C6.  [ReadEntries] and [InitDB] take from a line exactly what the record
    format accepts: a Put of 4 pipe-split fields or a Delete of 3.  Every
    other line changes nothing: the empty line, a line whose first field is
    neither [+] nor [-], a line with another number of fields.  [InitDB]
    returns an error exactly when opening or reading the file fails, and
    otherwise has applied the accepted records of the file, in order, to the
    tree, whatever the file holds; [ReadEntries] yields those records. *)
Theorem replay_skips_malformed (t : T) (w : WAL) :
  (∀ entries cmd, readEntry entries cmd = entries ++ option_list (accepts cmd)) ∧
  (∀ cmd, replayCmd t cmd = from_option (apply_entry t) t (accepts cmd)) ∧
  (∀ cmd key value last,
     Split cmd pipe = ["+"; key; value; last] →
     accepts cmd = Some (mkEntry key value false)) ∧
  (∀ cmd key last,
     Split cmd pipe = ["-"; key; last] → accepts cmd = Some (mkEntry key "" true)) ∧
  accepts "" = None ∧
  (∀ cmd, index (Split cmd pipe) 0 ≠ "+" → index (Split cmd pipe) 0 ≠ "-" →
          accepts cmd = None) ∧
  (∀ cmd, length (Split cmd pipe) ≠ 4 → length (Split cmd pipe) ≠ 3 →
          accepts cmd = None) ∧
  InitDB t w =
    (let '(e, f) := OpenFile (file w) in
     match e with
     | Some e =>
         (Some ("failed to open WAL file for reading: " +:+ e), t,
          mkWAL (filepath w) f (writer w))
     | None =>
         let '(data, e, f) := ReadAll f in
         match e with
         | Some e =>
             (Some ("failed to read data from WAL file: " +:+ e), t,
              mkWAL (filepath w) f (writer w))
         | None =>
             (None, foldl apply_entry t (valid_records data),
              mkWAL (filepath w) f (writer w))
         end
     end) ∧
  ReadEntries w =
    (let '(e, f) := OpenFile (file w) in
     match e with
     | Some e =>
         (inr ("failed to open WAL file for reading: " +:+ e),
          mkWAL (filepath w) f (writer w))
     | None =>
         let '(data, e, f) := ReadAll f in
         match e with
         | Some e =>
             (inr ("failed to read data from WAL file: " +:+ e),
              mkWAL (filepath w) f (writer w))
         | None => (inl (valid_records data), mkWAL (filepath w) f (writer w))
         end
     end).
Proof.
  split; [apply readEntry_accepts|].
  split; [apply replayCmd_accepts|].
  split. { intros cmd key value last Hs. unfold accepts. by rewrite Hs. }
  split. { intros cmd key last Hs. unfold accepts. by rewrite Hs. }
  split; [done|].
  split. { intros cmd H1 H2. unfold accepts. by rewrite !decide_False by (by intros [? _]). }
  split. { intros cmd H1 H2. unfold accepts. by rewrite !decide_False by (by intros [_ ?]). }
  split.
  - unfold InitDB. destruct (OpenFile (file w)) as [[e|] f]; [done|].
    destruct (ReadAll f) as [[data [e|]] f1]; [done|].
    by rewrite foldl_replayCmd.
  - unfold ReadEntries. destruct (OpenFile (file w)) as [[e|] f]; [done|].
    destruct (ReadAll f) as [[data [e|]] f1]; [done|].
    by rewrite foldl_readEntry.
Qed.

End ReplayClaims.

Section WalEvaluation.
Import OS Bufio Wal.

(** The file [+|k|v|], a line without operation code, an empty line, a Put
    with a field too many and [-|k|]: the second, third and fourth lines are
    passed over. *)
Lemma replay_skips_malformed_witness :
  accepts "+|k|v|" = Some (mkEntry "k" "v" false) ∧
  accepts "-|k|" = Some (mkEntry "k" "" true) ∧
  accepts "?|k|v|" = None ∧ accepts "+|k|v|w|" = None ∧
  ReadEntries
    (mkWAL "wal.aof"
       (mkFile ("+|k|v|" +:+ nl +:+ "?|k|v|" +:+ nl +:+ nl +:+ "+|k|v|w|" +:+ nl
                +:+ "-|k|" +:+ nl) 0 [])
       NewWriter)
  = (inl [mkEntry "k" "v" false; mkEntry "k" "" true],
     mkWAL "wal.aof"
       (mkFile ("+|k|v|" +:+ nl +:+ "?|k|v|" +:+ nl +:+ nl +:+ "+|k|v|w|" +:+ nl
                +:+ "-|k|" +:+ nl) 0 [])
       NewWriter).
Proof.
  destruct (replay_skips_malformed (Lsm.New 4 8 [] (Lsm.mkStore 1 len ∅))
              (mkWAL "wal.aof"
                 (mkFile ("+|k|v|" +:+ nl +:+ "?|k|v|" +:+ nl +:+ nl +:+ "+|k|v|w|" +:+ nl
                          +:+ "-|k|" +:+ nl) 0 [])
                 NewWriter))
    as (_ & _ & Hput & Hdel & _ & Hop & Hlen & _ & Hread).
  split; [apply (Hput _ "k" "v" ""); reflexivity|].
  split; [apply (Hdel _ "k" ""); reflexivity|].
  split; [apply Hop; vm_compute; discriminate|].
  split; [apply Hlen; vm_compute; discriminate|].
  rewrite Hread. vm_compute. reflexivity.
Defined.

(** C8, on the code.  [Write] compares the number of its arguments, not the
    number of bytes of the record, with the room left in the buffer.  After a
    first record of 4091 bytes the buffer of 4096 bytes has room for 5.  The
    record [+|k|v|] and its end byte are 7 bytes; [Write] has 3 arguments,
    does not flush first, and the record is cut by the flush inside the
    buffered writer: its first 5 bytes go to the file with the first record,
    the last 2 stay in the buffer. *)
Theorem Write_flush_check_counts_arguments :
  let first := ["+"; bytes 4085 "x"; "v"] in
  let w1 := (Wal.Write first new_wal).2 in
  let w2 := (Wal.Write ["+"; "k"; "v"] w1).2 in
  Wal.Write first new_wal = (None, w1) ∧
  f_data (file w1) = "" ∧ buf (writer w1) = record first ∧
  Available (writer w1) = 5 ∧ len (record ["+"; "k"; "v"]) = 7 ∧
  Wal.Write ["+"; "k"; "v"] w1 = (None, w2) ∧
  f_data (file w2) = record first +:+ "+|k|v" ∧
  buf (writer w2) = "|" +:+ nl.
Proof. vm_compute. repeat split. Qed.

End WalEvaluation.

(** ** The handlers *)

Section HandlerClaims.
Import OS Bufio Wal Server.
Context {T : Type} `{Ops : LSMTreeOps T}.

Local Arguments Wal.Write : simpl never.
Local Arguments Wal.Persist : simpl never.

Lemma Fprintln2 a b : Fprintln [a; b] = a +:+ " " +:+ b +:+ nl.
Proof. unfold Fprintln. simpl. by rewrite !app_assoc_s. Qed.

(** C9.  A TCP line with no token, with a first token other than PUT, GET and
    DEL, a PUT whose number of tokens is not 3 or a DEL whose number of tokens
    is not 2 is answered [Invalid command]; the tree, the WAL and the calls
    made are as before, and the loop of the connection goes on with the next
    line in that state. *)
Theorem invalid_command_tcp (text : string) (lines : list string) (s : Env) :
  let cmd := Fields text in
  cmd = []
  ∨ (index cmd 0 ≠ "PUT" ∧ index cmd 0 ≠ "GET" ∧ index cmd 0 ≠ "DEL")
  ∨ (index cmd 0 = "PUT" ∧ length cmd ≠ 3)
  ∨ (index cmd 0 = "DEL" ∧ length cmd ≠ 2) →
  tcpCommand cmd s = (Reply ("Invalid command" +:+ nl), s) ∧
  handleConnection (text :: lines) s =
    (let '(rest, s') := handleConnection lines s in
     (("Invalid command" +:+ nl) :: rest.1, rest.2, s')).
Proof.
  intros cmd Hc.
  assert (tcpCommand cmd s = (Reply ("Invalid command" +:+ nl), s)) as Ht.
  { unfold tcpCommand. destruct Hc as [->|[(H1 & H2 & H3)|[[H1 H2]|[H1 H2]]]].
    - done.
    - destruct cmd as [|c0 cmd']; [done|].
      rewrite (decide_False (P := length (c0 :: cmd') = 0)) by done.
      cbv zeta. by rewrite !decide_False by done.
    - destruct cmd as [|c0 cmd']; [done|].
      rewrite (decide_False (P := length (c0 :: cmd') = 0)) by done.
      cbv zeta. rewrite H1. rewrite decide_True by done.
      by rewrite decide_True by done.
    - destruct cmd as [|c0 cmd']; [done|].
      rewrite (decide_False (P := length (c0 :: cmd') = 0)) by done.
      cbv zeta. rewrite H1. rewrite decide_False by done.
      rewrite decide_False by done. rewrite decide_True by done.
      by rewrite decide_True by done. }
  split; [done|].
  simpl. unfold bind at 1. fold cmd. rewrite Ht.
  unfold bind, ret. by destruct (handleConnection lines s) as [[??]?].
Qed.

(** What the handlers do with a GET. *)
Lemma get_eval (s : Env) (cmd : list string) :
  index cmd 0 = "GET" →
  let '(e, w) := Persist (wal s) in
  tcpCommand cmd s =
    match e with
    | Some e =>
        (Reply ("Error persisting WAL: " +:+ e +:+ nl),
         mkEnv (ltree s) w (calls s ++ [CallPersist (Some e)]))
    | None =>
        match cmd !! 1 with
        | None =>
            (Panic "runtime error: index out of range [1] with length 1",
             mkEnv (ltree s) w (calls s ++ [CallPersist None]))
        | Some k =>
            (Reply (default "Data not found" (Get k (ltree s)) +:+ nl),
             mkEnv (ltree s) w (calls s ++ [CallPersist None; CallGet k]))
        end
    end ∧
  udpCommand cmd s =
    if decide (length cmd = 2) then
      match e with
      | Some e =>
          ("Error persisting WAL", mkEnv (ltree s) w (calls s ++ [CallPersist (Some e)]))
      | None =>
          let k := Trim (index cmd 1) newline in
          (default "Data not found" (Get k (ltree s)),
           mkEnv (ltree s) w (calls s ++ [CallPersist None; CallGet k]))
      end
    else ("Invalid command", s).
Proof.
  intros Hv. destruct (Persist (wal s)) as [e w] eqn:Ep.
  destruct cmd as [|c0 cmd']; [done|]. unfold index in Hv. simpl in Hv. subst c0.
  split.
  - unfold tcpCommand, index; simpl. unfold bind, walPersist. rewrite Ep.
    destruct e as [e|]; simpl.
    { by rewrite Fprintln2. }
    destruct cmd' as [|k cmd']; simpl; [done|].
    unfold bind, ltreeGet, ret; simpl. rewrite <- app_assoc.
    by destruct (Get k (ltree s)).
  - unfold udpCommand. cbv zeta.
    rewrite (decide_False (P := length ("GET" :: cmd') = 0)) by done.
    rewrite (decide_True (P := index ("GET" :: cmd') 0 = "GET")) by done.
    destruct (decide (length ("GET" :: cmd') = 2)) as [Hl|Hl].
    + rewrite decide_False by (by intros ?).
      unfold bind, walPersist. rewrite Ep. destruct e as [e|]; simpl; [done|].
      unfold bind, ltreeGet, ret; simpl. rewrite <- app_assoc.
      by destruct (Get _ (ltree s)).
    + by rewrite decide_True by done.
Qed.

Lemma tcp_put_ok (s : Env) (k v : string) w :
  Wal.Write ["+"; k; v] (wal s) = (None, w) →
  tcpCommand ["PUT"; k; v] s
  = (Reply ("OK" +:+ nl),
     mkEnv (Put k v (ltree s)) w (calls s ++ [CallWrite ["+"; k; v] None; CallPut k v])).
Proof.
  intros Hw. unfold tcpCommand, index; simpl. unfold bind, walWrite; simpl.
  rewrite Hw; simpl. unfold ret, bind, ltreePut; simpl. by rewrite <- app_assoc.
Qed.

(** A lookup of [l ++ ext] is one of [l] or one of [ext]. *)
Lemma lookup_app_cases {A} (l ext : list A) i x :
  (l ++ ext) !! i = Some x →
  (i < length l ∧ l !! i = Some x) ∨ (∃ i', i = length l + i' ∧ ext !! i' = Some x).
Proof.
  intros Hi. destruct (decide (i < length l)) as [Hlt|Hge].
  - left. by rewrite lookup_app_l in Hi.
  - right. rewrite lookup_app_r in Hi by lia. exists (i - length l). split; [lia|done].
Qed.

Lemma lookup_app_before {A} (l ext : list A) i j x :
  i = S j → i < length l → l !! j = Some x → (l ++ ext) !! j = Some x.
Proof. intros. by rewrite lookup_app_l by lia. Qed.

Lemma lookup_app_after {A} (l ext : list A) j x :
  ext !! j = Some x → (l ++ ext) !! (length l + j) = Some x.
Proof.
  intros. rewrite lookup_app_r by lia.
  by replace (length l + j - length l) with j by lia.
Qed.

Lemma write_ahead_app l ext : write_ahead l → write_ahead ext → write_ahead (l ++ ext).
Proof.
  intros [Hl1 [Hl2 Hl3]] [He1 [He2 He3]]. split; [|split].
  - intros i k [[Hlt Hi]|(i' & -> & Hi)]%lookup_app_cases.
    + destruct (Hl1 i k Hi) as (j & Hj & Hr). exists j.
      eauto using lookup_app_before.
    + destruct (He1 i' k Hi) as (j & -> & Hr). exists (length l + j).
      split; [lia|]. by apply lookup_app_after.
  - intros i k v [[Hlt Hi]|(i' & -> & Hi)]%lookup_app_cases.
    + destruct (Hl2 i k v Hi) as (j & Hj & Hr). exists j.
      eauto using lookup_app_before.
    + destruct (He2 i' k v Hi) as (j & -> & Hr). exists (length l + j).
      split; [lia|]. by apply lookup_app_after.
  - intros i k [[Hlt Hi]|(i' & -> & Hi)]%lookup_app_cases.
    + destruct (Hl3 i k Hi) as (j & Hj & Hr). exists j.
      eauto using lookup_app_before.
    + destruct (He3 i' k Hi) as (j & -> & Hr). exists (length l + j).
      split; [lia|]. by apply lookup_app_after.
Qed.

(** The lists of calls that one command makes. *)
Ltac calls_made :=
  eexists; split; [rewrite <- ?app_assoc; try reflexivity; by rewrite app_nil_r|];
  split; [|split];
  [ intros [|[|[|?]]] ? | intros [|[|[|?]]] ? ? | intros [|[|[|?]]] ? ];
  simpl; intros Hcall; try discriminate Hcall; simplify_eq; eauto.

Lemma tcpCommand_calls cmd (s : Env) :
  ∃ ext, calls (tcpCommand cmd s).2 = calls s ++ ext ∧ write_ahead ext.
Proof.
  unfold tcpCommand. cbv zeta. repeat case_decide;
    unfold bind, ret, walWrite, walPersist, ltreePut, ltreeDel, ltreeGet; simpl;
    repeat match goal with
           | |- context [Wal.Write ?d ?w] => destruct (Wal.Write d w) as [[?|] ?]; simpl
           | |- context [Wal.Persist ?w] => destruct (Wal.Persist w) as [[?|] ?]; simpl
           | |- context [cmd !! 1] => destruct (cmd !! 1); simpl
           | |- context [Get ?k ?t] => destruct (Get k t); simpl
           end;
    calls_made.
Qed.

Lemma udpCommand_calls cmd (s : Env) :
  ∃ ext, calls (udpCommand cmd s).2 = calls s ++ ext ∧ write_ahead ext.
Proof.
  unfold udpCommand. cbv zeta. repeat case_decide;
    unfold bind, ret, walWrite, walPersist, ltreePut, ltreeDel, ltreeGet; simpl;
    repeat match goal with
           | |- context [Wal.Write ?d ?w] => destruct (Wal.Write d w) as [[?|] ?]; simpl
           | |- context [Wal.Persist ?w] => destruct (Wal.Persist w) as [[?|] ?]; simpl
           | |- context [Get ?k ?t] => destruct (Get k t); simpl
           end;
    calls_made.
Qed.

Lemma handleConnection_calls lines (s : Env) :
  write_ahead (calls s) → write_ahead (calls (handleConnection lines s).2).
Proof.
  revert s. induction lines as [|text lines IH]; intros s Hs; [done|].
  simpl. unfold bind at 1.
  destruct (tcpCommand_calls (Fields text) s) as (ext & Hc & He).
  destruct (tcpCommand (Fields text) s) as [o s1]. simpl in Hc.
  assert (write_ahead (calls s1)) as Hs1.
  { rewrite Hc. by apply write_ahead_app. }
  destruct o as [bytes|msg]; [|done].
  unfold bind, ret. specialize (IH s1 Hs1).
  by destruct (handleConnection lines s1) as [[??]?].
Qed.

Lemma handleUDPPacket_calls packet (s : Env) :
  write_ahead (calls s) → write_ahead (calls (handleUDPPacket packet s).2).
Proof.
  intros Hs. unfold handleUDPPacket.
  destruct (udpCommand_calls (Fields packet) s) as (ext & -> & He).
  by apply write_ahead_app.
Qed.

(** C2.  When the append of a PUT or of a DEL to the WAL returns an error,
    the TCP handler and the UDP handler answer with the text of the error and
    make no call on the tree, which is as before; when the append returns no
    error they apply the mutation to the tree and answer [OK].  So, in the
    calls of a TCP connection and of UDP packets, every Put and Del on the
    tree comes right after the [Write] of its record that returned no
    error. *)
Theorem failed_append_not_applied (s : Env) (k v : string) :
  (∀ e w, Wal.Write ["+"; k; v] (wal s) = (Some e, w) →
     let s' := mkEnv (ltree s) w (calls s ++ [CallWrite ["+"; k; v] (Some e)]) in
     tcpCommand ["PUT"; k; v] s = (Reply ("Error writing to WAL: " +:+ e +:+ nl), s') ∧
     udpCommand ["PUT"; k; v] s = ("Error writing to WAL: " +:+ e, s')) ∧
  (∀ w, Wal.Write ["+"; k; v] (wal s) = (None, w) →
     let s' := mkEnv (Put k v (ltree s)) w
                 (calls s ++ [CallWrite ["+"; k; v] None; CallPut k v]) in
     tcpCommand ["PUT"; k; v] s = (Reply ("OK" +:+ nl), s') ∧
     udpCommand ["PUT"; k; v] s = ("OK", s')) ∧
  (∀ e w, Wal.Write ["-"; k] (wal s) = (Some e, w) →
     let s' := mkEnv (ltree s) w (calls s ++ [CallWrite ["-"; k] (Some e)]) in
     tcpCommand ["DEL"; k] s = (Reply ("Error writing to WAL: " +:+ e +:+ nl), s') ∧
     udpCommand ["DEL"; k] s = ("Error writing to WAL: " +:+ e, s')) ∧
  (∀ w, Wal.Write ["-"; k] (wal s) = (None, w) →
     let s' := mkEnv (Del k (ltree s)) w
                 (calls s ++ [CallWrite ["-"; k] None; CallDel k]) in
     tcpCommand ["DEL"; k] s = (Reply ("OK" +:+ nl), s') ∧
     udpCommand ["DEL"; k] s = ("OK", s')) ∧
  (write_ahead (calls s) →
   (∀ lines, mutations_logged (calls (handleConnection lines s).2)) ∧
   (∀ packet, mutations_logged (calls (handleUDPPacket packet s).2))).
Proof.
  split_and!; [intros e w Hw|intros w Hw|intros e w Hw|intros w Hw|intros Hs].
  1-4: cbv zeta; split;
    unfold tcpCommand, udpCommand, index; simpl; unfold bind, walWrite; simpl;
    rewrite Hw; simpl; unfold ret, bind, ltreePut, ltreeDel; simpl;
    rewrite ?Fprintln2, <- ?app_assoc; done.
  split.
  - intros lines. by apply handleConnection_calls.
  - intros packet. by apply handleUDPPacket_calls.
Qed.

(** C3.  A GET calls [Persist] on the WAL first.  When [Persist] returns an
    error the handler answers with a persistence error and makes no call on
    the tree.  Only when [Persist] has returned no error does the lookup
    follow.  Over TCP this holds for a GET of any number of tokens (with one
    token no lookup follows, the handler panics); over UDP a GET of 2 tokens
    does so, and a GET of another number of tokens is answered
    [Invalid command] without any call.  So, in the calls of a TCP connection
    and of UDP packets, every lookup comes right after a [Persist] that
    returned no error. *)
Theorem get_persists_before_lookup (s : Env) (cmd : list string) :
  (index cmd 0 = "GET" →
   let '(e, w) := Persist (wal s) in
   tcpCommand cmd s =
     match e with
     | Some e =>
         (Reply ("Error persisting WAL: " +:+ e +:+ nl),
          mkEnv (ltree s) w (calls s ++ [CallPersist (Some e)]))
     | None =>
         match cmd !! 1 with
         | None =>
             (Panic "runtime error: index out of range [1] with length 1",
              mkEnv (ltree s) w (calls s ++ [CallPersist None]))
         | Some k =>
             (Reply (default "Data not found" (Get k (ltree s)) +:+ nl),
              mkEnv (ltree s) w (calls s ++ [CallPersist None; CallGet k]))
         end
     end ∧
   udpCommand cmd s =
     if decide (length cmd = 2) then
       match e with
       | Some e =>
           ("Error persisting WAL",
            mkEnv (ltree s) w (calls s ++ [CallPersist (Some e)]))
       | None =>
           let k := Trim (index cmd 1) newline in
           (default "Data not found" (Get k (ltree s)),
            mkEnv (ltree s) w (calls s ++ [CallPersist None; CallGet k]))
       end
     else ("Invalid command", s)) ∧
  (write_ahead (calls s) →
   (∀ lines, lookups_persisted (calls (handleConnection lines s).2)) ∧
   (∀ packet, lookups_persisted (calls (handleUDPPacket packet s).2))).
Proof.
  split; [apply get_eval|]. intros Hs. split.
  - intros lines. by apply handleConnection_calls.
  - intros packet. by apply handleUDPPacket_calls.
Qed.

(** C10.  Over TCP the line [GET] of one token is not checked for its
    number of tokens: after [Persist] the handler indexes the second token,
    which is out of range, and the goroutine panics; the loop of the
    connection ends there.  (When [Persist] returns an error the handler
    answers with that error before it gets to the index.)  In neither case is
    the answer [Invalid command].  Over UDP a GET whose number of tokens is
    not 2 is answered [Invalid command], and nothing is called. *)
Theorem get_arity_tcp_udp (s : Env) (lines : list string) :
  Fields "GET" = ["GET"] ∧
  tcpCommand (Fields "GET") s =
    (let '(e, w) := Persist (wal s) in
     match e with
     | Some e =>
         (Reply ("Error persisting WAL: " +:+ e +:+ nl),
          mkEnv (ltree s) w (calls s ++ [CallPersist (Some e)]))
     | None =>
         (Panic "runtime error: index out of range [1] with length 1",
          mkEnv (ltree s) w (calls s ++ [CallPersist None]))
     end) ∧
  (tcpCommand (Fields "GET") s).1 ≠ Reply ("Invalid command" +:+ nl) ∧
  ((Persist (wal s)).1 = None →
   (handleConnection ("GET" :: lines) s).1
   = ([], Some "runtime error: index out of range [1] with length 1")) ∧
  handleUDPPacket "GET" s = ("Invalid command", s) ∧
  (∀ cmd, index cmd 0 = "GET" → length cmd ≠ 2 →
          udpCommand cmd s = ("Invalid command", s)).
Proof.
  split; [done|].
  assert (index ["GET"] 0 = "GET") as Hv by done.
  pose proof (get_eval s ["GET"] Hv) as Hg.
  change (Fields "GET") with ["GET"].
  destruct (Persist (wal s)) as [e w] eqn:Ep. destruct Hg as [Ht Hu].
  split; [by rewrite Ht; destruct e|].
  split; [by rewrite Ht; destruct e|].
  split.
  { simpl. intros ->. unfold handleConnection, bind.
    change (Fields "GET") with ["GET"]. by rewrite Ht. }
  split; [done|].
  intros cmd Hc Hl. pose proof (get_eval s cmd Hc) as Hg.
  rewrite Ep in Hg. destruct Hg as [_ ->]. by rewrite decide_False.
Qed.

End HandlerClaims.

(** ** Tokens *)

Section FieldsFacts.

Lemma fieldsFrom_cons a r field :
  fieldsFrom (String a r) 0 field =
  match spaceWidth (String a r) with
  | 0 => fieldsFrom r 0 (field +:+ String a "")
  | S k => emit field ++ fieldsFrom r k ""
  end.
Proof. reflexivity. Qed.

(** What follows a token does not make a white space rune of its last
    bytes, when that is a space. *)
Lemma spaceWidth_app_space s r :
  s ≠ "" → spaceWidth s = 0 → spaceWidth (s +:+ String " " r) = 0.
Proof.
  destruct s as [|a [|b [|c s]]]; [done|..]; intros _; simpl.
  - destruct (asciiSpace a); [done|].
    intros _. repeat destruct (Ascii.eqb a _); by destruct r.
  - destruct (asciiSpace a); [done|].
    repeat (destruct (Ascii.eqb a _); [by repeat destruct (Ascii.eqb b _)|]).
    done.
  - done.
Qed.

Lemma fieldsFrom_token t r field :
  hasSpace t = false → r = "" ∨ (∃ r', r = String " " r') →
  fieldsFrom (t +:+ r) 0 field = fieldsFrom r 0 (field +:+ t).
Proof.
  intros Ht Hr. revert field Ht.
  induction t as [|a t IH]; intros field Ht.
  { by rewrite app_empty_r. }
  apply orb_false_elim in Ht as [Ha Ht]. apply Nat.ltb_ge in Ha.
  assert (spaceWidth (String a t) = 0) as Hw by lia.
  change (String a t +:+ r) with (String a (t +:+ r)). rewrite fieldsFrom_cons.
  assert (spaceWidth (String a (t +:+ r)) = 0) as ->.
  { destruct Hr as [->|[r' ->]].
    - by rewrite app_empty_r.
    - by apply (spaceWidth_app_space (String a t)). }
  rewrite IH by done. by rewrite app_assoc_s.
Qed.

Lemma fieldsFrom_space r field :
  fieldsFrom (String " " r) 0 field = emit field ++ fieldsFrom r 0 "".
Proof. reflexivity. Qed.

Lemma emit_token t : t ≠ "" → emit t = [t].
Proof. intros. unfold emit. by rewrite decide_False. Qed.

(** The tokens of [PUT <key> <value>], [GET <key>] and [DEL <key>]. *)
Lemma Fields_put k v :
  k ≠ "" → hasSpace k = false → v ≠ "" → hasSpace v = false →
  Fields ("PUT " +:+ k +:+ " " +:+ v) = ["PUT"; k; v].
Proof.
  intros Hk Hks Hv Hvs. unfold Fields.
  change ("PUT " +:+ k +:+ " " +:+ v) with ("PUT" +:+ String " " (k +:+ String " " v)).
  rewrite fieldsFrom_token, fieldsFrom_space by eauto.
  rewrite fieldsFrom_token, fieldsFrom_space by eauto.
  rewrite <- (app_empty_r v) at 1. rewrite fieldsFrom_token by eauto.
  simpl. by rewrite !emit_token.
Qed.

Lemma Fields_verb_key verb k :
  verb ≠ "" → hasSpace verb = false → k ≠ "" → hasSpace k = false →
  Fields (verb +:+ " " +:+ k) = [verb; k].
Proof.
  intros Hb Hbs Hk Hks. unfold Fields.
  change (verb +:+ " " +:+ k) with (verb +:+ String " " k).
  rewrite fieldsFrom_token, fieldsFrom_space by eauto.
  rewrite <- (app_empty_r k) at 1. rewrite fieldsFrom_token by eauto.
  simpl. by rewrite !emit_token.
Qed.

End FieldsFacts.

(** ** The LSM index *)

Section LsmFacts.
Import Lsm.

Lemma positions_insert key key' b :
  positions (bloom_insert key' b) key = positions b key.
Proof. reflexivity. Qed.

(** No false negatives: an inserted key is reported, and stays reported. *)
Lemma bloom_contains_insert key b : bloom_contains key (bloom_insert key b) = true.
Proof.
  unfold bloom_contains. rewrite positions_insert. apply forallb_forall.
  intros i Hi. apply bool_decide_eq_true. simpl.
  apply elem_of_union_r, elem_of_list_to_set, list_elem_of_In, Hi.
Qed.

Lemma bloom_contains_mono key key' b :
  bloom_contains key b = true → bloom_contains key (bloom_insert key' b) = true.
Proof.
  unfold bloom_contains. rewrite positions_insert, !forallb_forall.
  intros Hb i Hi. specialize (Hb i Hi). apply bool_decide_eq_true in Hb.
  apply bool_decide_eq_true. simpl. set_solver.
Qed.

Lemma ds_get_merge key e ds key' :
  ds_get key' (ds_merge key e ds) = if decide (key = key') then e else ds_get key' ds.
Proof.
  unfold ds_get, ds_merge, partition, partition_id; simpl.
  destruct (decide (hash ds key `mod` NumOfPartitions ds
                    = hash ds key' `mod` NumOfPartitions ds)) as [Hp|Hp].
  - rewrite <- Hp, lookup_insert_eq; simpl.
    destruct e as [value|]; case_decide as Hk; subst.
    + by rewrite lookup_insert_eq.
    + by rewrite lookup_insert_ne.
    + by rewrite lookup_delete_eq.
    + by rewrite lookup_delete_ne.
  - rewrite lookup_insert_ne by done. case_decide; [by subst|done].
Qed.

(** After [ingest] the Disk Store gives, for a key of the memtable, what the
    memtable held, and for the other keys what it gave before. *)
Lemma ds_get_ingest frozen ds key :
  ds_get key (ingest frozen ds)
  = match frozen !! key with Some e => e | None => ds_get key ds end.
Proof.
  unfold ingest. revert key.
  apply (map_fold_weak_ind
           (λ r (m : gmap string (option string)),
              ∀ key, ds_get key r
                     = match m !! key with Some e => e | None => ds_get key ds end)).
  - intros key. by rewrite lookup_empty.
  - intros k e m r Hk IH key. rewrite ds_get_merge. case_decide; subst.
    + by rewrite lookup_insert_eq.
    + by rewrite lookup_insert_ne, IH.
Qed.

Lemma view_flush t key : view (flush t) key = view t key.
Proof. unfold view, flush; simpl. by rewrite lookup_empty, ds_get_ingest. Qed.

Lemma view_saturation_check t key : view (saturation_check t) key = view t key.
Proof. unfold saturation_check. case_decide; [apply view_flush|done]. Qed.

Lemma filter_saturation_check t : filter (saturation_check t) = filter t.
Proof. unfold saturation_check. by case_decide. Qed.

Lemma view_put key value t key' :
  view (put key value t) key' = if decide (key = key') then Some value else view t key'.
Proof.
  unfold put. rewrite view_saturation_check. unfold view; simpl.
  case_decide; subst; [by rewrite lookup_insert_eq|by rewrite lookup_insert_ne].
Qed.

Lemma view_del key t key' :
  view (del key t) key' = if decide (key = key') then None else view t key'.
Proof.
  unfold del. rewrite view_saturation_check. unfold view; simpl.
  case_decide; subst; [by rewrite lookup_insert_eq|by rewrite lookup_insert_ne].
Qed.

(** A key that the Bloom filter reports is looked up as [view] says. *)
Lemma get_contained key t :
  bloom_contains key (filter t) = true → get key t = view t key.
Proof. unfold get, view. by intros ->. Qed.

(** The value just put is the one found, in any tree. *)
Lemma get_put key value t : get key (put key value t) = Some value.
Proof.
  rewrite get_contained.
  - by rewrite view_put, decide_True.
  - unfold put. rewrite filter_saturation_check. apply bloom_contains_insert.
Qed.

End LsmFacts.

(** ** A PUT and then a GET *)

Section EngineClaims.
Import OS Bufio Wal Lsm Server.

Local Arguments Wal.Write : simpl never.
Local Arguments Wal.Persist : simpl never.

(** C1.  On one connection whose WAL meets no failure of its file, for a
    key and a value that are not empty and hold no white space, the lines
    [PUT k v] and [GET k] are answered [OK] and [v].  The PUT appends the
    record to the WAL and then puts the pair into the tree; the GET persists
    the WAL, which leaves the record in the file, and then looks the key up
    in the same tree. *)
Theorem put_then_get (s : @Env LSMTree) (k v : string) :
  wal_ok (wal s) →
  k ≠ "" → hasSpace k = false → v ≠ "" → hasSpace v = false →
  ∃ s',
    handleConnection ["PUT " +:+ k +:+ " " +:+ v; "GET " +:+ k] s
    = (["OK" +:+ nl; v +:+ nl], None, s') ∧
    ltree s' = put k v (ltree s) ∧
    calls s' = calls s ++ [CallWrite ["+"; k; v] None; CallPut k v;
                           CallPersist None; CallGet k] ∧
    f_data (file (wal s')) = log (wal s) +:+ ("+|" +:+ k +:+ "|" +:+ v +:+ "|") +:+ nl.
Proof.
  intros Hw Hk Hks Hv Hvs. simpl handleConnection.
  change ("GET " +:+ k) with ("GET" +:+ " " +:+ k).
  rewrite Fields_put, (Fields_verb_key "GET") by done.
  unfold bind at 1.
  destruct (Wal.Write ["+"; k; v] (wal s)) as [e1 w1] eqn:E1. pose proof E1 as E1'.
  apply (Wal_Write_healthy _ _ _ _ Hw) in E1' as [-> Hw1].
  rewrite (tcp_put_ok s k v w1 E1). unfold bind at 1.
  set (s1 := mkEnv _ w1 _). unfold bind, ret.
  assert (index ["GET"; k] 0 = "GET") as Hg by done.
  pose proof (get_eval s1 ["GET"; k] Hg) as Heval.
  destruct (Persist (wal s1)) as [e2 w2] eqn:E2.
  apply (Persist_healthy _ _ _ Hw1) in E2 as (-> & Hw2 & _ & Hd2 & _).
  destruct Heval as [-> _]. simpl.
  change (Get k (Put k v (ltree s))) with (get k (put k v (ltree s))).
  rewrite get_put. simpl. eexists. split; [reflexivity|]. simpl.
  split; [done|]. split; [by rewrite <- app_assoc|].
  apply Wal_Write_ok in E1 as (_ & _ & _ & Hl).
  rewrite Hd2, Hl. f_equal. exact (record_line_of (OpPut k v)).
Qed.

End EngineClaims.

(** ** Load and replay *)

Section LoadFacts.
Import OS Bufio Wal Lsm.

Lemma get_view t key : filter_sound t → get key t = view t key.
Proof.
  intros Hs. unfold get, view.
  destruct (bloom_contains key (filter t)) eqn:Hb; [done|].
  destruct (memtable t !! key) as [[value|]|] eqn:Hm; [| |done].
  - rewrite Hs in Hb; [done|]. left. eauto.
  - destruct (ds_get key (store t)) as [value|] eqn:Hd; [|done].
    rewrite Hs in Hb; [done|]. right. by rewrite Hd.
Qed.

Lemma filter_sound_saturation_check t :
  filter_sound t → filter_sound (saturation_check t).
Proof.
  intros Hs. unfold saturation_check. case_decide; [|done].
  intros key [[value Hm]|Hd]; simpl in *.
  - by rewrite lookup_empty in Hm.
  - rewrite ds_get_ingest in Hd. apply Hs.
    destruct (memtable t !! key) as [e|] eqn:Hm.
    + left. destruct Hd as [value ->]. eauto.
    + by right.
Qed.

Lemma filter_sound_put key value t : filter_sound t → filter_sound (put key value t).
Proof.
  intros Hs. apply filter_sound_saturation_check. intros key' Hk; simpl in *.
  destruct (decide (key = key')) as [->|Hne]; [apply bloom_contains_insert|].
  apply bloom_contains_mono, Hs. by rewrite lookup_insert_ne in Hk.
Qed.

Lemma filter_sound_del key t : filter_sound t → filter_sound (del key t).
Proof.
  intros Hs. apply filter_sound_saturation_check. intros key' Hk; simpl in *.
  apply Hs. destruct Hk as [[value Hm]|Hd]; [left|by right].
  destruct (decide (key = key')) as [->|Hne].
  - by rewrite lookup_insert_eq in Hm.
  - rewrite lookup_insert_ne in Hm by done. eauto.
Qed.

Lemma filter_sound_apply_entry t e : filter_sound t → filter_sound (apply_entry t e).
Proof.
  unfold apply_entry. destruct (Delete e);
    [apply filter_sound_del|apply filter_sound_put].
Qed.

Lemma view_apply_entry t e key : view (apply_entry t e) key = persist_entry (view t) e key.
Proof.
  unfold apply_entry, persist_entry. destruct (Delete e).
  - apply view_del.
  - apply view_put.
Qed.

Lemma persist_entry_ext m1 m2 es :
  (∀ key, m1 key = m2 key) →
  ∀ key, foldl persist_entry m1 es key = foldl persist_entry m2 es key.
Proof.
  revert m1 m2. induction es as [|e es IH]; intros m1 m2 Hm; [done|]. simpl.
  apply IH. intros key. unfold persist_entry. by rewrite Hm.
Qed.

(** A Put record at the end of the WAL file is what is persisted for its
    key. *)
Lemma persisted_last ds data key value :
  terminated data → framed (OpPut key value) = true →
  persisted ds (data +:+ line_of (OpPut key value) +:+ nl) key = Some value.
Proof.
  intros Hd Ho. unfold persisted.
  rewrite (valid_records_app data (OpPut key value)) by done.
  rewrite foldl_app. simpl. unfold persist_entry at 1. simpl.
  by rewrite decide_True.
Qed.

(** Replay on a tree with a sound filter: the filter stays sound and the
    entries are layered, in order, on what the tree held. *)
Lemma replay_view es t :
  filter_sound t →
  filter_sound (foldl apply_entry t es) ∧
  ∀ key, view (foldl apply_entry t es) key = foldl persist_entry (view t) es key.
Proof.
  revert t. induction es as [|e es IH]; intros t Hs; [done|]. simpl.
  destruct (IH (apply_entry t e)) as [Hs' Hv]; [by apply filter_sound_apply_entry|].
  split; [done|]. intros key. rewrite Hv. apply persist_entry_ext.
  intros key'. apply view_apply_entry.
Qed.

Lemma load_pair_mirrors ds pid part key value t :
  routed ds → partitions ds !! pid = Some part → part !! key = Some value →
  mirrors ds t →
  mirrors ds (load_pair key value t) ∧
  bloom_contains key (filter (load_pair key value t)) = true ∧
  ∀ key', bloom_contains key' (filter t) = true →
          bloom_contains key' (filter (load_pair key value t)) = true.
Proof.
  intros Hr Hp Hk [Hst Hm]. split; [split; [done|]|split].
  - intros key' e; simpl. destruct (decide (key = key')) as [<-|Hne].
    + rewrite lookup_insert_eq. intros [= <-]. split; [|apply bloom_contains_insert].
      unfold ds_get, partition.
      rewrite (Hr pid part Hp key value Hk), Hp. by simpl.
    + rewrite lookup_insert_ne by done. intros [-> Hb]%Hm.
      split; [done|by apply bloom_contains_mono].
  - apply bloom_contains_insert.
  - intros key' Hb. by apply bloom_contains_mono.
Qed.

Lemma load_partition_mirrors ds pid part t :
  routed ds → partitions ds !! pid = Some part → mirrors ds t →
  ∀ m0 : gmap string string, m0 ⊆ part →
    mirrors ds (map_fold load_pair t m0) ∧
    (∀ key, is_Some (m0 !! key) →
            bloom_contains key (filter (map_fold load_pair t m0)) = true) ∧
    ∀ key, bloom_contains key (filter t) = true →
           bloom_contains key (filter (map_fold load_pair t m0)) = true.
Proof.
  intros Hr Hp Ht.
  apply (map_fold_weak_ind (λ r (m0 : gmap string string),
    m0 ⊆ part →
    mirrors ds r ∧
    (∀ key, is_Some (m0 !! key) → bloom_contains key (filter r) = true) ∧
    ∀ key, bloom_contains key (filter t) = true →
           bloom_contains key (filter r) = true)).
  - intros _. split; [done|]. split; [|done].
    intros key [? Hk]. by rewrite lookup_empty in Hk.
  - intros key value m0 r Hk0 IH Hsub.
    assert (part !! key = Some value) as Hk.
    { eapply lookup_weaken; [|done]. apply lookup_insert_eq. }
    destruct IH as (Hinv & Hin & Hmono).
    { etrans; [|done]. by apply insert_subseteq. }
    destruct (load_pair_mirrors ds pid part key value r Hr Hp Hk Hinv)
      as (Hinv' & Hb & Hmono').
    split; [done|]. split; [|by eauto].
    intros key'. destruct (decide (key = key')) as [<-|Hne]; [done|].
    rewrite lookup_insert_ne by done. eauto.
Qed.

Lemma load_partitions_mirrors ds t :
  routed ds → mirrors ds t →
  ∀ m0 : gmap nat (gmap string string), m0 ⊆ partitions ds →
    let t' := map_fold (λ _ part t, map_fold load_pair t part) t m0 in
    mirrors ds t' ∧
    ∀ pid part key, m0 !! pid = Some part → is_Some (part !! key) →
                    bloom_contains key (filter t') = true.
Proof.
  intros Hr Ht. cbv zeta.
  apply (map_fold_weak_ind (λ r (m0 : gmap nat (gmap string string)),
    m0 ⊆ partitions ds →
    mirrors ds r ∧
    ∀ pid part key, m0 !! pid = Some part → is_Some (part !! key) →
                    bloom_contains key (filter r) = true)).
  - intros _. split; [done|].
    intros pid part key Hp. by rewrite lookup_empty in Hp.
  - intros pid part m0 r Hp0 IH Hsub.
    assert (partitions ds !! pid = Some part) as Hp.
    { eapply lookup_weaken; [|done]. apply lookup_insert_eq. }
    destruct IH as (Hinv & Hin).
    { etrans; [|done]. by apply insert_subseteq. }
    destruct (load_partition_mirrors ds pid part r Hr Hp Hinv part)
      as (Hinv' & Hnew & Hmono); [done|].
    split; [done|].
    intros pid' part' key. destruct (decide (pid = pid')) as [<-|Hne].
    + rewrite lookup_insert_eq. intros [= <-]. apply Hnew.
    + rewrite lookup_insert_ne by done. intros Hp' Hk'. apply Hmono. by eapply Hin.
Qed.

(** The load of a routed Disk Store into a new tree: every pair on disk is in
    the memtable and in the filter, and nothing else is. *)
Lemma loadInto_new max m hs ds :
  routed ds →
  let t := loadInto (New max m hs ds) in
  store t = ds ∧ filter_sound t ∧ ∀ key, view t key = ds_get key ds.
Proof.
  intros Hr. cbv zeta. unfold loadInto.
  change (store (New max m hs ds)) with ds.
  destruct (load_partitions_mirrors ds (New max m hs ds) Hr) with (m0 := partitions ds)
    as ([Hst Hm] & Hall); [|done|].
  { split; [done|]. intros key e Hk. simpl in Hk. by rewrite lookup_empty in Hk. }
  simpl in Hst, Hm, Hall. split; [done|]. split.
  - intros key [[value Hk]|Hd].
    + by destruct (Hm key _ Hk).
    + rewrite Hst in Hd. unfold ds_get, partition in Hd.
      destruct (partitions ds !! partition_id ds key) as [part|] eqn:Hp.
      * by apply (Hall (partition_id ds key) part).
      * simpl in Hd. rewrite lookup_empty in Hd. by destruct Hd.
  - intros key. unfold view. rewrite Hst.
    destruct (memtable _ !! key) as [e|] eqn:Hk; [|done].
    by destruct (Hm key e Hk).
Qed.

End LoadFacts.

(** ** Start-up *)

Section StartClaims.
Import OS Bufio Wal Lsm Server.

Local Arguments Wal.Write : simpl never.
Local Arguments Wal.Persist : simpl never.

(** An [InitDB] that returns no error has replayed the accepted records of
    the file. *)
Lemma InitDB_ok (t : LSMTree) w t' w' :
  InitDB t w = (None, t', w') →
  t' = foldl apply_entry t (valid_records (f_data (file w))) ∧
  (wal_ok w → wal_ok w').
Proof.
  unfold InitDB, OpenFile, ReadAll.
  destruct (next (file w)) as [r1 f1] eqn:E1. destruct r1; [|done].
  destruct (next f1) as [r2 f2] eqn:E2. destruct r2; [|done].
  intros [= <- <-]. split.
  - apply next_data in E1 as [E1 _]. apply next_data in E2 as [E2 _].
    by rewrite foldl_replayCmd, E2, E1.
  - intros [Hh Hb]. split; [|done]. simpl.
    apply (next_healthy _ _ _ Hh) in E1 as [_ Hh1].
    by apply (next_healthy _ _ _ Hh1) in E2 as [_ Hh2].
Qed.

(** The listeners are opened before the load: [opened_after_load] does not
    hold of the steps of [Start]. *)
Lemma listeners_opened_before_load :
  ¬ opened_after_load (Start LoadFromDisk None None demo_server).1.
Proof.
  intros Hc. specialize (Hc 0 2). vm_compute in Hc.
  assert (2 < 0) as Hlt by (apply Hc; [by left|done]). lia.
Qed.

(** C4, as the code has it.  [Start] opens the TCP and the UDP listener
    first.  It starts the goroutines that accept connections and read
    packets, and with them every handler, only after the load has returned:
    the Disk Store loaded into the index and the WAL replayed on top.  No
    call has been made for a client by then.  For a new tree over a routed
    Disk Store and a WAL whose file does not fail, the first GET of a key is
    answered with the value persisted for it, and with [Data not found] when
    none is; so the value of a Put whose record ends the WAL file is the
    answer to the first GET of its key. *)
Theorem handlers_start_after_load
    (srv : @Server LSMTree) (tcp udp : option string) (steps : list step)
    (env : @Env LSMTree) :
  Start LoadFromDisk tcp udp srv = (steps, Serving env) →
  let db := DBEngine_ srv in
  steps = [ListenTCP; ListenUDP; LoadData; StartPersistCycle; NotifySignals;
           AcceptTCP; ReadUDP] ∧
  served_after_load steps ∧
  calls env = [] ∧
  LoadFromDisk (LsmTree db) (Wal db) = (None, ltree env, wal env) ∧
  ltree env
  = foldl apply_entry (loadInto (LsmTree db)) (valid_records (f_data (file (Wal db)))) ∧
  (∀ max m hs ds key,
     LsmTree db = New max m hs ds → routed ds → wal_ok (Wal db) →
     (tcpCommand ["GET"; key] env).1
     = Reply (default "Data not found"
                (persisted ds (f_data (file (Wal db))) key) +:+ nl)) ∧
  (∀ max m hs ds data key value,
     LsmTree db = New max m hs ds → routed ds → wal_ok (Wal db) →
     terminated data → framed (OpPut key value) = true →
     f_data (file (Wal db)) = data +:+ ("+|" +:+ key +:+ "|" +:+ value +:+ "|") +:+ nl →
     (tcpCommand ["GET"; key] env).1 = Reply (value +:+ nl)).
Proof.
  unfold Start. destruct tcp as [e|]; [done|]. destruct udp as [e|]; [done|].
  destruct (LoadFromDisk _ _) as [[e t] w] eqn:El. destruct e as [e|]; [done|].
  intros [= <- <-]. cbv zeta. simpl ltree. simpl wal.
  split; [done|]. split.
  { intros i j Hi Hj.
    destruct j as [|[|[|[|[|[|[|j]]]]]]]; simpl in Hj; try done.
    destruct i as [|[|[|i]]]; simpl in Hi; [by destruct Hi..|lia]. }
  split; [done|]. split; [done|].
  unfold LoadFromDisk in El. apply InitDB_ok in El as [Ht Hw].
  split; [done|].
  assert (∀ max m hs ds key,
     LsmTree (DBEngine_ srv) = New max m hs ds → routed ds →
     wal_ok (Wal (DBEngine_ srv)) →
     (tcpCommand ["GET"; key] (mkEnv t w [])).1
     = Reply (default "Data not found"
                (persisted ds (f_data (file (Wal (DBEngine_ srv)))) key) +:+ nl))
    as Hget; last first.
  { split; [done|].
    intros max m hs ds data key value Htree Hr Hok Hd Ho Hdata.
    rewrite (Hget max m hs ds key Htree Hr Hok), Hdata.
    pose proof (persisted_last ds data key value Hd Ho) as Hp.
    unfold line_of in Hp. by rewrite Hp. }
  intros max m hs ds key Htree Hr Hok. rewrite Htree in Ht.
  destruct (loadInto_new max m hs ds Hr) as (_ & Hs & Hv).
  destruct (replay_view (valid_records (f_data (file (Wal (DBEngine_ srv)))))
              _ Hs) as [Hs' Hv'].
  assert (index ["GET"; key] 0 = "GET") as Hg by done.
  pose proof (get_eval (mkEnv t w []) ["GET"; key] Hg) as Heval.
  destruct (Persist (wal (mkEnv t w []))) as [e2 w2] eqn:E2.
  apply (Persist_healthy _ _ _ (Hw Hok)) in E2 as (-> & _).
  destruct Heval as [-> _]. simpl. do 2 f_equal.
  change (Get key t) with (get key t). rewrite Ht, get_view, Hv' by done.
  unfold persisted. f_equal. by apply persist_entry_ext.
Qed.

End StartClaims.

(** ** Concrete runs *)

Section Witnesses.
Import OS Bufio Wal Lsm Server.

Lemma demo_store_routed : routed demo_store.
Proof.
  intros pid part Hp key value Hk. unfold demo_store in Hp; simpl in Hp.
  apply lookup_singleton_Some in Hp as [<- <-].
  apply lookup_insert_Some in Hk as [[<- _]|[_ Hk]]; [reflexivity|].
  apply lookup_singleton_Some in Hk as [<- _]. reflexivity.
Defined.

Lemma write_ahead_nil : write_ahead [].
Proof.
  split; [|split].
  - intros i k Hi. destruct i; discriminate Hi.
  - intros i k v Hi. destruct i; discriminate Hi.
  - intros i k Hi. destruct i; discriminate Hi.
Defined.

Lemma demo_wal_ok : wal_ok (Wal (DBEngine_ demo_server)).
Proof. split; [constructor|reflexivity]. Defined.

Lemma put_then_get_witness :
  ∃ s',
    handleConnection ["PUT " +:+ "foo" +:+ " " +:+ "bar"; "GET " +:+ "foo"] demo_env
    = (["OK" +:+ nl; "bar" +:+ nl], None, s') ∧
    ltree s' = put "foo" "bar" (ltree demo_env) ∧
    calls s' = calls demo_env ++ [CallWrite ["+"; "foo"; "bar"] None; CallPut "foo" "bar";
                                  CallPersist None; CallGet "foo"] ∧
    f_data (file (wal s'))
    = log (wal demo_env) +:+ ("+|" +:+ "foo" +:+ "|" +:+ "bar" +:+ "|") +:+ nl.
Proof.
  apply (put_then_get demo_env "foo" "bar").
  - apply new_wal_ok.
  - discriminate.
  - reflexivity.
  - discriminate.
  - reflexivity.
Defined.

Lemma failed_append_not_applied_witness :
  (tcpCommand ["PUT"; "k"; "v"] full_env).1
  = Reply ("Error writing to WAL: " +:+
           "failed to flush buffer: failed to flush buffer to file: no space left on device"
           +:+ nl) ∧
  ltree (tcpCommand ["PUT"; "k"; "v"] full_env).2 = ltree full_env ∧
  (udpCommand ["DEL"; "k"] full_env).1
  = "Error writing to WAL: " +:+
    "failed to flush buffer: failed to flush buffer to file: no space left on device" ∧
  ltree (udpCommand ["DEL"; "k"] full_env).2 = ltree full_env ∧
  (tcpCommand ["PUT"; "k"; "v"] demo_env).1 = Reply ("OK" +:+ nl) ∧
  ltree (tcpCommand ["PUT"; "k"; "v"] demo_env).2 = Put "k" "v" (ltree demo_env) ∧
  (udpCommand ["DEL"; "k"] demo_env).1 = "OK" ∧
  mutations_logged
    (calls (handleConnection ["PUT a 1"; "DEL a"; "PUT b"; "GET a"] demo_env).2).
Proof.
  destruct (failed_append_not_applied full_env "k" "v") as (Hput & _ & Hdel & _).
  destruct (failed_append_not_applied demo_env "k" "v")
    as (_ & Hput' & _ & Hdel' & Hinv).
  destruct (Hinv write_ahead_nil) as [Hconn _].
  destruct (Hput "failed to flush buffer: failed to flush buffer to file: no space left on device"
              (Wal.Write ["+"; "k"; "v"] (wal full_env)).2) as [-> _];
    [vm_compute; reflexivity|].
  destruct (Hdel "failed to flush buffer: failed to flush buffer to file: no space left on device"
              (Wal.Write ["-"; "k"] (wal full_env)).2) as [_ ->];
    [vm_compute; reflexivity|].
  destruct (Hput' (Wal.Write ["+"; "k"; "v"] (wal demo_env)).2) as [-> _];
    [vm_compute; reflexivity|].
  destruct (Hdel' (Wal.Write ["-"; "k"] (wal demo_env)).2) as [_ ->];
    [vm_compute; reflexivity|].
  repeat (split; [reflexivity|]). apply Hconn.
Defined.

Lemma get_persists_before_lookup_witness :
  (tcpCommand ["GET"; "a"] demo_env).1 = Reply ("1" +:+ nl) ∧
  calls (tcpCommand ["GET"; "a"] demo_env).2 = [CallPersist None; CallGet "a"] ∧
  (udpCommand ["GET"; "a"] full_env).1 = "Error persisting WAL" ∧
  calls (udpCommand ["GET"; "a"] full_env).2
  = [CallPersist
       (Some ("failed to flush buffer: " +:+ "no space left on device"))] ∧
  lookups_persisted
    (calls (handleConnection ["PUT a 1"; "GET a"; "GET"; "DEL a"] demo_env).2).
Proof.
  destruct (get_persists_before_lookup demo_env ["GET"; "a"]) as [Hgood Hinv].
  destruct (get_persists_before_lookup full_env ["GET"; "a"]) as [Hbad _].
  specialize (Hgood eq_refl). specialize (Hbad eq_refl).
  destruct (Hinv write_ahead_nil) as [Hconn _].
  destruct (Persist (wal demo_env)) as [e w] eqn:E.
  vm_compute in E. injection E as <- <-.
  destruct (Persist (wal full_env)) as [e' w'] eqn:E'.
  vm_compute in E'. injection E' as <- <-.
  destruct Hgood as [-> _]. destruct Hbad as [_ ->].
  split; [vm_compute; reflexivity|]. split; [reflexivity|].
  split; [reflexivity|]. split; [vm_compute; reflexivity|].
  apply Hconn.
Defined.

Lemma invalid_command_tcp_witness :
  tcpCommand (Fields "PUT onlyonearg") demo_env
  = (Reply ("Invalid command" +:+ nl), demo_env) ∧
  (handleConnection ["PUT onlyonearg"; "PUT a 1"] demo_env).1
  = (["Invalid command" +:+ nl; "OK" +:+ nl], None).
Proof.
  destruct (invalid_command_tcp "PUT onlyonearg" ["PUT a 1"] demo_env) as [Ht Hc].
  - right. right. left. split; [reflexivity|]. vm_compute. lia.
  - split; [exact Ht|]. rewrite Hc. vm_compute. reflexivity.
Defined.

Lemma get_arity_tcp_udp_witness :
  (handleConnection ["GET"; "PUT a 1"] demo_env).1
  = ([], Some "runtime error: index out of range [1] with length 1") ∧
  udpCommand ["GET"; "a"; "b"] demo_env = ("Invalid command", demo_env).
Proof.
  destruct (get_arity_tcp_udp demo_env ["PUT a 1"]) as (_ & _ & _ & Hpanic & _ & Hudp).
  split.
  - apply Hpanic. vm_compute. reflexivity.
  - apply Hudp; [reflexivity|]. simpl. lia.
Defined.

Lemma handlers_start_after_load_witness :
  ∃ env,
    Start LoadFromDisk None None demo_server
    = ([ListenTCP; ListenUDP; LoadData; StartPersistCycle; NotifySignals;
        AcceptTCP; ReadUDP], Serving env) ∧
    (tcpCommand ["GET"; "b"] env).1 = Reply ("2" +:+ nl) ∧
    (tcpCommand ["GET"; "d"] env).1 = Reply ("4" +:+ nl) ∧
    (tcpCommand ["GET"; "a"] env).1 = Reply ("Data not found" +:+ nl).
Proof.
  destruct (Start LoadFromDisk None None demo_server) as [steps st] eqn:E.
  destruct st as [e|e|env]; [vm_compute in E; discriminate E..|].
  exists env.
  destruct (handlers_start_after_load demo_server None None steps env E)
    as (-> & _ & _ & _ & _ & Hget & _).
  split; [reflexivity|].
  split; [|split].
  - rewrite (Hget 2 8 [len] demo_store "b" eq_refl demo_store_routed demo_wal_ok).
    vm_compute. reflexivity.
  - rewrite (Hget 2 8 [len] demo_store "d" eq_refl demo_store_routed demo_wal_ok).
    vm_compute. reflexivity.
  - rewrite (Hget 2 8 [len] demo_store "a" eq_refl demo_store_routed demo_wal_ok).
    vm_compute. reflexivity.
Defined.

End Witnesses.

(** * Further properties *)

(** ** The write-ahead log: what every call keeps *)

Section WalLogFacts.
Import OS Bufio Wal.

Lemma take_bytes_le n s : len s ≤ n → take_bytes n s = s ∧ drop_bytes n s = "".
Proof. intros. by rewrite take_bytes_all, drop_bytes_all. Qed.

Lemma take_bytes_add n m s :
  take_bytes n s +:+ take_bytes m (drop_bytes n s) = take_bytes (n + m) s.
Proof.
  revert s. induction n as [|n IH]; intros [|a s]; simpl; try done.
  - by destruct m.
  - by rewrite app_cons, IH.
Qed.

Lemma drop_bytes_add n m s : drop_bytes m (drop_bytes n s) = drop_bytes (n + m) s.
Proof.
  revert s. induction n as [|n IH]; intros [|a s]; simpl; try done.
  by destruct m.
Qed.

(** Whatever a write to the file returns, the file has gained a prefix of
    [p]. *)
Lemma OS_Write_any p f n e f' :
  OS.Write p f = (n, e, f') → f_data f' = f_data f +:+ take_bytes n p.
Proof.
  unfold OS.Write. destruct (next f) as [r f1] eqn:E.
  apply next_data in E as [E _]. destruct r; intros [= <- <- <-]; simpl; rewrite E.
  - by rewrite take_bytes_all.
  - done.
Qed.

(** [Flush] moves bytes from the buffer to the file and loses none, also when
    it fails. *)
Lemma Flush_any b f e b' f' :
  Flush b f = (e, b', f') →
  f_data f' +:+ buf b' = f_data f +:+ buf b ∧
  ∃ moved, f_data f' = f_data f +:+ moved.
Proof.
  unfold Flush. destruct (err b) as [e0|].
  { intros [= <- <- <-]. split; [done|]. exists "". by rewrite app_empty_r. }
  case_decide.
  { intros [= <- <- <-]. split; [done|]. exists "". by rewrite app_empty_r. }
  destruct (OS.Write (buf b) f) as [[n e1] f1] eqn:Ew.
  pose proof (OS_Write_any _ _ _ _ _ Ew) as Hd.
  assert (f_data f1 +:+ drop_bytes n (buf b) = f_data f +:+ buf b) as Hfail.
  { by rewrite Hd, app_assoc_s, take_drop_bytes. }
  destruct e1 as [e1|].
  { intros [= <- <- <-]; simpl. eauto. }
  case_decide as Hn.
  { intros [= <- <- <-]; simpl. eauto. }
  intros [= <- <- <-]; simpl. apply OS_Write_ok in Ew as [-> ->].
  rewrite app_empty_r. eauto.
Qed.

Lemma writeStep_any b f p n b' f' :
  writeStep b f p = (n, b', f') →
  f_data f' +:+ buf b' = (f_data f +:+ buf b) +:+ take_bytes n p ∧
  size b' = size b ∧
  ∃ moved, f_data f' = f_data f +:+ moved.
Proof.
  unfold writeStep. case_decide as Hn.
  - destruct (OS.Write p f) as [[n1 e] f1] eqn:Ew. intros [= <- <- <-]; simpl.
    apply OS_Write_any in Ew. apply len_zero in Hn. rewrite Hn, !app_empty_r.
    split; [done|]. split; [done|]. eauto.
  - unfold copy. destruct (Flush _ f) as [[e b1] f1] eqn:Ef. intros [= <- <- <-].
    pose proof (Flush_size _ _ _ _ _ Ef) as Hs.
    apply Flush_any in Ef as [Hl Hm]. simpl in *.
    split; [by rewrite Hl, app_assoc_s|]. done.
Qed.

Lemma writeLoop_any fuel b f p nn b' f' p' nn' :
  writeLoop fuel b f p nn = (b', f', p', nn') →
  ∃ k, p' = drop_bytes k p ∧
       f_data f' +:+ buf b' = (f_data f +:+ buf b) +:+ take_bytes k p ∧
       size b' = size b ∧
       ∃ moved, f_data f' = f_data f +:+ moved.
Proof.
  revert b f p nn. induction fuel as [|fuel IH]; intros b f p nn.
  { intros [= <- <- <- <-]. exists 0. simpl. rewrite !app_empty_r.
    split; [by destruct p|]. split; [by destruct p; rewrite ?app_empty_r|].
    split; [done|]. exists "". by rewrite app_empty_r. }
  rewrite writeLoop_S. case_decide as Hc.
  - destruct (writeStep b f p) as [[n b1] f1] eqn:Es. intros Hl.
    apply writeStep_any in Es as (Hl1 & Hs1 & m1 & Hm1).
    apply IH in Hl as (k & -> & Hl2 & Hs2 & m2 & Hm2).
    exists (n + k). rewrite drop_bytes_add. split; [done|].
    split; [by rewrite Hl2, Hl1, app_assoc_s, take_bytes_add|].
    split; [congruence|]. exists (m1 +:+ m2). by rewrite Hm2, Hm1, app_assoc_s.
  - intros [= <- <- <- <-]. exists 0. simpl.
    split; [by destruct p|]. split; [by destruct p; rewrite ?app_empty_r|].
    split; [done|]. exists "". by rewrite app_empty_r.
Qed.

(** [bufio.Writer.Write], whatever it returns: a prefix of [p] has joined the
    bytes of the file and the buffer, and the file has only grown. *)
Lemma Bufio_Write_any p b f n e b' f' :
  Bufio.Write p b f = (n, e, b', f') →
  (∃ written rest,
     p = written +:+ rest ∧
     f_data f' +:+ buf b' = (f_data f +:+ buf b) +:+ written) ∧
  size b' = size b ∧
  (∃ moved, f_data f' = f_data f +:+ moved) ∧
  err b' = e.
Proof.
  unfold Bufio.Write. destruct (writeLoop 2 b f p 0) as [[[b1 f1] p1] nn] eqn:El.
  apply writeLoop_any in El as (k & -> & Hl & Hs & Hm).
  destruct (err b1) as [e1|] eqn:Eb1.
  - intros [= <- <- <- <-]. split; [|done].
    exists (take_bytes k p), (drop_bytes k p). by rewrite take_drop_bytes.
  - unfold copy. intros [= <- <- <- <-]; simpl. split; [|done].
    set (m := Available b1 `min` len (drop_bytes k p)).
    exists (take_bytes (k + m) p), (drop_bytes (k + m) p).
    rewrite take_drop_bytes. split; [done|].
    by rewrite <- take_bytes_add, <- !app_assoc_s, Hl.
Qed.

End WalLogFacts.

Section WalInvariants.
Import OS Bufio Wal.

Lemma flushBuffer_any w e w' :
  flushBuffer w = (e, w') →
  log w' = log w ∧ filepath w' = filepath w ∧ size (writer w') = size (writer w) ∧
  (∃ moved, f_data (file w') = f_data (file w) +:+ moved) ∧
  (is_Some e → is_Some (err (writer w'))).
Proof.
  unfold flushBuffer. destruct (Flush _ _) as [[e1 b] f] eqn:Ef.
  pose proof (Flush_size _ _ _ _ _ Ef) as Hs.
  pose proof (Flush_err _ _ _ _ _ Ef) as He.
  apply Flush_any in Ef as [Hl Hm].
  destruct e1 as [e1|]; intros [= <- <-]; unfold log; simpl;
    (split_and!; [done..|]); rewrite He; [eauto|by intros [??]].
Qed.

Lemma writeData_any data w e w' :
  writeData data w = (e, w') →
  (∃ written rest,
     foldr (λ d line, d +:+ delimiter +:+ line) "" data = written +:+ rest ∧
     log w' = log w +:+ written) ∧
  filepath w' = filepath w ∧ size (writer w') = size (writer w) ∧
  (∃ moved, f_data (file w') = f_data (file w) +:+ moved) ∧
  (is_Some e → is_Some (err (writer w'))).
Proof.
  revert w. induction data as [|d data IH]; intros w; simpl.
  { intros [= <- <-]. split_and!; try done.
    - exists "", "". split; [done|by rewrite app_empty_r].
    - exists "". by rewrite app_empty_r. }
  destruct (Bufio.Write _ _ _) as [[[n e1] b] f] eqn:Ew.
  pose proof Ew as Ew'.
  apply Bufio_Write_any in Ew as ((written & rest & Hp & Hl) & Hs & (m1 & Hm1) & He).
  destruct e1 as [e1|].
  - intros [= <- <-]; unfold log; simpl. split_and!; try done.
    + exists written, (rest +:+ foldr (λ d line, d +:+ delimiter +:+ line) "" data).
      split; [|done]. by rewrite <- !app_assoc_s, <- Hp.
    + eauto.
  - intros Hd. apply IH in Hd as ((w2 & r2 & Hp2 & Hl2) & Hpath & Hs2 & (m2 & Hm2) & He2).
    apply Write_ok in Ew' as (_ & _ & _ & Hl'). simpl in *.
    split_and!; try done.
    + exists ((d +:+ delimiter) +:+ w2), r2. split.
      * by rewrite Hp2, !app_assoc_s.
      * rewrite Hl2. unfold log at 1; simpl. rewrite Hl'. unfold log.
        by rewrite !app_assoc_s.
    + congruence.
    + exists (m1 +:+ m2). by rewrite Hm2, Hm1, app_assoc_s.
Qed.

Lemma Wal_Write_any data w e w' :
  Wal.Write data w = (e, w') →
  (∃ written rest, record data = written +:+ rest ∧ log w' = log w +:+ written) ∧
  filepath w' = filepath w ∧ size (writer w') = size (writer w) ∧
  (∃ moved, f_data (file w') = f_data (file w) +:+ moved) ∧
  (is_Some e → is_Some (err (writer w'))).
Proof.
  unfold Wal.Write.
  destruct (if decide _ then _ else _) as [e1 w1] eqn:E1.
  assert (log w1 = log w ∧ filepath w1 = filepath w ∧
          size (writer w1) = size (writer w) ∧
          (∃ moved, f_data (file w1) = f_data (file w) +:+ moved) ∧
          (is_Some e1 → is_Some (err (writer w1))))
    as (Hl1 & Hp1 & Hs1 & (m1 & Hm1) & He1).
  { case_decide.
    - by apply flushBuffer_any in E1.
    - injection E1 as <- <-. split_and!; try done.
      exists "". by rewrite app_empty_r. }
  destruct e1 as [e1|].
  { intros [= <- <-]. split_and!; try done; [|by eauto|by eauto].
    exists "", (record data). split; [done|]. by rewrite app_empty_r. }
  destruct (writeData data w1) as [e2 w2] eqn:E2.
  pose proof E2 as E2'.
  apply writeData_any in E2 as ((w2' & r2 & Hp2 & Hl2) & Hpath2 & Hs2 & (m2 & Hm2) & He2).
  destruct e2 as [e2|].
  { intros [= <- <-]. split_and!; try congruence.
    - exists w2', (r2 +:+ nl). split; [|congruence].
      by rewrite <- record_app, Hp2, app_assoc_s.
    - exists (m1 +:+ m2). by rewrite Hm2, Hm1, app_assoc_s.
    - done. }
  apply writeData_ok in E2' as (_ & _ & Hl2').
  unfold WriteString. destruct (Bufio.Write nl _ _) as [[[n e3] b] f] eqn:Ew.
  apply Bufio_Write_any in Ew as ((w3 & r3 & Hp3 & Hl3) & Hs3 & (m3 & Hm3) & He3).
  assert (log (mkWAL (filepath w2) f b)
          = log w +:+ (foldr (λ d line, d +:+ delimiter +:+ line) "" data +:+ w3)) as Hlog.
  { unfold log at 1; simpl. rewrite Hl3. fold (log w2).
    by rewrite Hl2', Hl1, app_assoc_s. }
  assert (record data = (foldr (λ d line, d +:+ delimiter +:+ line) "" data +:+ w3) +:+ r3)
    as Hrec by (by rewrite <- record_app, Hp3, app_assoc_s).
  assert (∃ moved, f_data f = f_data (file w) +:+ moved) as Hmoved.
  { exists (m1 +:+ m2 +:+ m3). by rewrite Hm3, Hm2, Hm1, !app_assoc_s. }
  destruct e3 as [e3|]; intros [= <- <-]; simpl;
    (split_and!; [by eauto|congruence|congruence|done|]).
  - rewrite He3. eauto.
  - by intros [??].
Qed.

(** X1.  [Write], whether it returns an error or not, only appends: the log
    (the file, then the buffer) has gained a prefix of the record, the whole
    record when no error is returned, and the file itself has only grown. *)
Theorem Write_appends_prefix (data : list string) (w : WAL) :
  let '(e, w') := Wal.Write data w in
  (∃ written rest,
     record data = written +:+ rest ∧ log w' = log w +:+ written ∧
     (e = None → rest = "")) ∧
  (∃ moved, f_data (file w') = f_data (file w) +:+ moved) ∧
  filepath w' = filepath w ∧ size (writer w') = size (writer w).
Proof.
  destruct (Wal.Write data w) as [e w'] eqn:E.
  pose proof E as E'.
  apply Wal_Write_any in E as ((written & rest & Hr & Hl) & Hp & Hs & Hm & _).
  split_and!; try done.
  destruct e as [e|].
  - exists written, rest. by split_and!.
  - apply Wal_Write_ok in E' as (_ & _ & _ & Hl').
    exists (record data), "". split_and!; try done. by rewrite app_empty_r.
Qed.

Lemma Persist_any w e w' :
  Persist w = (e, w') →
  log w' = log w ∧ filepath w' = filepath w ∧ size (writer w') = size (writer w) ∧
  (∃ moved, f_data (file w') = f_data (file w) +:+ moved).
Proof.
  unfold Persist. destruct (Flush _ _) as [[e1 b] f] eqn:Ef.
  pose proof (Flush_size _ _ _ _ _ Ef) as Hs.
  pose proof Ef as Ef'. apply Flush_any in Ef' as [Hl Hm].
  destruct e1 as [e1|]; [by intros [= <- <-]; split_and!|].
  apply Flush_ok in Ef as (He & Hb & Hd).
  unfold Sync, next. unfold log in *.
  destruct (f_io f) as [|[|n msg] io]; simpl; intros [= <- <-]; simpl;
    rewrite ?Hb in *; by split_and!.
Qed.

Lemma Persist_ok w w' :
  Persist w = (None, w') →
  buf (writer w') = "" ∧ err (writer w') = None ∧
  f_data (file w') = log w ∧ f_synced (file w') = len (log w).
Proof.
  unfold Persist, log.
  destruct (Flush _ _) as [[[e1|] b] f] eqn:Ef; [done|].
  apply Flush_ok in Ef as (_ & Hb & Hd).
  unfold Sync, next.
  destruct (f_io f) as [|[|n msg] io]; simpl; intros [= <-]; simpl; by rewrite Hd.
Qed.

(** X2.  [Persist] loses no byte and adds none: the log is the same after
    it, whatever fails.  When it returns no error the buffer is empty, the
    file holds the whole log and all of it is synced. *)
Theorem Persist_keeps_log (w : WAL) :
  let '(e, w') := Persist w in
  log w' = log w ∧ filepath w' = filepath w ∧ size (writer w') = size (writer w) ∧
  (∃ moved, f_data (file w') = f_data (file w) +:+ moved) ∧
  (e = None →
     buf (writer w') = "" ∧ err (writer w') = None ∧
     f_data (file w') = log w ∧ f_synced (file w') = len (log w)).
Proof.
  destruct (Persist w) as [e w'] eqn:E.
  destruct (Persist_any _ _ _ E) as (Hl & Hp & Hs & Hm).
  split_and!; try done.
  intros ->. by apply Persist_ok.
Qed.

End WalInvariants.

Section WalBounds.
Import OS Bufio Wal.

Lemma len_app s r : len (s +:+ r) = len s + len r.
Proof. induction s as [|a s IH]; simpl; [done|]. by rewrite IH. Qed.

Lemma len_take n s : len (take_bytes n s) = n `min` len s.
Proof.
  revert s. induction n as [|n IH]; intros [|a s]; simpl; try done.
  by rewrite IH.
Qed.

Lemma len_drop n s : len (drop_bytes n s) = len s - n.
Proof.
  revert s. induction n as [|n IH]; intros [|a s]; simpl; try done.
Qed.

Lemma Flush_bound b f e b' f' :
  Flush b f = (e, b', f') → Buffered b ≤ size b → Buffered b' ≤ size b'.
Proof.
  unfold Flush, Buffered. destruct (err b); [by intros [= <- <- <-]|].
  case_decide; [by intros [= <- <- <-]|].
  destruct (OS.Write _ _) as [[n e1] f1].
  destruct e1 as [e1|]; [|case_decide]; intros [= <- <- <-] ?; simpl;
    rewrite ?len_drop; lia.
Qed.

Lemma copy_bound b p n b' :
  copy b p = (n, b') → Buffered b ≤ size b → Buffered b' ≤ size b'.
Proof.
  unfold copy, Buffered, Available. intros [= <- <-] ?; simpl.
  rewrite len_app, len_take. lia.
Qed.

Lemma writeStep_bound b f p n b' f' :
  writeStep b f p = (n, b', f') → Buffered b ≤ size b → Buffered b' ≤ size b'.
Proof.
  unfold writeStep. case_decide.
  - destruct (OS.Write _ _) as [[n1 e1] f1]. by intros [= <- <- <-].
  - destruct (copy b p) as [n1 b1] eqn:Ec. destruct (Flush _ _) as [[e1 b2] f2] eqn:Ef.
    intros [= <- <- <-] ?. eauto using Flush_bound, copy_bound.
Qed.

Lemma writeLoop_bound fuel b f p nn b' f' p' nn' :
  writeLoop fuel b f p nn = (b', f', p', nn') →
  Buffered b ≤ size b → Buffered b' ≤ size b'.
Proof.
  revert b f p nn. induction fuel as [|fuel IH]; intros b f p nn; simpl.
  { by intros [= <- <- <- <-]. }
  case_decide; [|by intros [= <- <- <- <-]].
  destruct (writeStep b f p) as [[n b1] f1] eqn:Es. intros Hl ?.
  eapply IH; [done|]. eauto using writeStep_bound.
Qed.

Lemma Bufio_Write_bound p b f n e b' f' :
  Bufio.Write p b f = (n, e, b', f') →
  Buffered b ≤ size b → Buffered b' ≤ size b'.
Proof.
  unfold Bufio.Write. destruct (writeLoop _ _ _ _ _) as [[[b1 f1] p1] n1] eqn:El.
  intros Hw Hb. eapply writeLoop_bound in El; [|done].
  destruct (err b1); [by injection Hw as <- <- <- <-|].
  destruct (copy b1 p1) as [n2 b2] eqn:Ec. injection Hw as <- <- <- <-.
  eauto using copy_bound.
Qed.

Lemma writeData_bound data w e w' :
  writeData data w = (e, w') →
  Buffered (writer w) ≤ size (writer w) → Buffered (writer w') ≤ size (writer w').
Proof.
  revert w. induction data as [|d data IH]; intros w; simpl.
  { by intros [= <- <-]. }
  destruct (Bufio.Write _ _ _) as [[[n e1] b] f] eqn:Ew.
  intros Hd Hb. eapply Bufio_Write_bound in Ew; [|done].
  destruct e1; [by injection Hd as <- <-|]. by eapply IH in Hd.
Qed.

Lemma Wal_Write_bound data w e w' :
  Wal.Write data w = (e, w') →
  Buffered (writer w) ≤ size (writer w) → Buffered (writer w') ≤ size (writer w').
Proof.
  unfold Wal.Write. destruct (if decide _ then _ else _) as [e1 w1] eqn:E1.
  intros Hw Hb.
  assert (Buffered (writer w1) ≤ size (writer w1)) as Hb1.
  { case_decide; [|by injection E1 as <- <-].
    revert E1. unfold flushBuffer. destruct (Flush _ _) as [[e2 b2] f2] eqn:Ef.
    eapply Flush_bound in Ef; [|done]. by destruct e2; intros [= <- <-]. }
  destruct e1; [by injection Hw as <- <-|].
  destruct (writeData data w1) as [e2 w2] eqn:E2.
  eapply writeData_bound in E2; [|done].
  destruct e2; [by injection Hw as <- <-|].
  unfold WriteString in Hw. destruct (Bufio.Write nl _ _) as [[[n e3] b] f] eqn:Ew.
  eapply Bufio_Write_bound in Ew; [|done].
  by destruct e3; injection Hw as <- <-.
Qed.

Lemma Persist_bound w e w' :
  Persist w = (e, w') →
  Buffered (writer w) ≤ size (writer w) → Buffered (writer w') ≤ size (writer w').
Proof.
  unfold Persist. destruct (Flush _ _) as [[e1 b] f] eqn:Ef. intros Hp Hb.
  eapply Flush_bound in Ef; [|done].
  destruct e1; [by injection Hp as <- <-|].
  destruct (Sync f) as [[e2|] f2]; injection Hp as <- <-; simpl; [done|].
  unfold Buffered; simpl; lia.
Qed.

Lemma ReadEntries_wal w :
  filepath (ReadEntries w).2 = filepath w ∧ writer (ReadEntries w).2 = writer w ∧
  f_data (file (ReadEntries w).2) = f_data (file w) ∧
  f_synced (file (ReadEntries w).2) = f_synced (file w).
Proof.
  destruct w as [p [d sy io] b]. unfold ReadEntries, OpenFile, ReadAll, next.
  destruct io as [|[|n msg] [|[|n' msg'] io]]; simpl; done.
Qed.

Lemma InitDB_wal `{LSMTreeOps T} (t : T) w :
  (InitDB t w).2 = (ReadEntries w).2.
Proof.
  destruct w as [p [d sy io] b]. unfold InitDB, ReadEntries, OpenFile, ReadAll, next.
  destruct io as [|[|n msg] [|[|n' msg'] io]]; simpl; done.
Qed.

Lemma wal_call_inv w w' :
  wal_call w w' →
  filepath w' = filepath w ∧ size (writer w') = size (writer w) ∧
  (∃ more, log w' = log w +:+ more) ∧
  (∃ moved, f_data (file w') = f_data (file w) +:+ moved) ∧
  (Buffered (writer w) ≤ size (writer w) → Buffered (writer w') ≤ size (writer w')).
Proof.
  assert (∀ w, filepath (ReadEntries w).2 = filepath w ∧
    size (writer (ReadEntries w).2) = size (writer w) ∧
    (∃ more, log (ReadEntries w).2 = log w +:+ more) ∧
    (∃ moved, f_data (file (ReadEntries w).2) = f_data (file w) +:+ moved) ∧
    (Buffered (writer w) ≤ size (writer w) →
     Buffered (writer (ReadEntries w).2) ≤ size (writer (ReadEntries w).2))) as Hread.
  { intros w0. destruct (ReadEntries_wal w0) as (Hp & Hw & Hd & _).
    unfold log. rewrite Hp, Hw, Hd. split_and!; try done; exists ""; by rewrite app_empty_r. }
  intros [data| | |T Ops t].
  - destruct (Wal.Write data w) as [e w1] eqn:E. simpl.
    pose proof (Wal_Write_bound _ _ _ _ E).
    apply Wal_Write_any in E as ((written & rest & _ & Hl) & ? & ? & ? & _).
    split_and!; eauto.
  - destruct (Persist w) as [e w1] eqn:E. simpl.
    pose proof (Persist_bound _ _ _ E).
    apply Persist_any in E as (Hl & ? & ? & ?). split_and!; try done.
    exists "". by rewrite app_empty_r.
  - apply Hread.
  - rewrite InitDB_wal. apply Hread.
Qed.

End WalBounds.

Section WalFailures.
Import OS Bufio Wal.

Lemma Bufio_Write_failed p b f m :
  err b = Some m → Bufio.Write p b f = (0, Some m, b, f).
Proof.
  intros He. unfold Bufio.Write. simpl.
  case_decide as Hc; [destruct Hc; congruence|]. by rewrite He.
Qed.

Lemma failed_writer w :
  is_Some (err (writer w)) →
  (∀ data, ∃ m, Wal.Write data w = (Some m, w)) ∧ ∃ m, Persist w = (Some m, w).
Proof.
  destruct w as [p f [e b sz]]; simpl. intros [m ->]. split.
  - intros data. unfold Wal.Write. case_decide.
    + unfold flushBuffer, Flush; simpl. eauto.
    + destruct data as [|d data]; simpl.
      * unfold WriteString. erewrite Bufio_Write_failed by done. simpl. eauto.
      * erewrite Bufio_Write_failed by done. simpl. eauto.
  - unfold Persist, Flush; simpl. eauto.
Qed.

(** X3.  An error of [Write] is final.  When [Write] has returned an error,
    every later [Write] and every later [Persist] on that WAL returns an
    error too and leaves the WAL as it is: nothing is appended any more. *)
Theorem failed_Write_is_final (data : list string) (w w' : WAL) (m : string) :
  Wal.Write data w = (Some m, w') →
  (∀ data', ∃ m', Wal.Write data' w' = (Some m', w')) ∧
  (∃ m', Persist w' = (Some m', w')).
Proof.
  intros E. apply Wal_Write_any in E as (_ & _ & _ & _ & He).
  apply failed_writer, He. eauto.
Qed.

Lemma open_inv path at_path w e :
  OpenOrCreateWAL path at_path = (Some w, e) →
  e = None ∧ filepath w = path ∧ writer w = NewWriter ∧ f_data (file w) = data_at at_path.
Proof.
  unfold OpenOrCreateWAL. destruct at_path as [io|f]; simpl.
  - unfold Create. destruct io as [|[|n msg] io]; by intros [= <- <-].
  - unfold OpenFile, next. destruct f as [d sy [|[|n msg] io]]; by intros [= <- <-].
Qed.

Lemma reachable_inv w w' :
  reachable w w' →
  filepath w' = filepath w ∧ size (writer w') = size (writer w) ∧
  (∃ more, log w' = log w +:+ more) ∧
  (∃ moved, f_data (file w') = f_data (file w) +:+ moved) ∧
  (Buffered (writer w) ≤ size (writer w) → Buffered (writer w') ≤ size (writer w')).
Proof.
  induction 1 as [w|w w1 w2 Hc _ IH].
  - split_and!; try done; exists ""; by rewrite app_empty_r.
  - apply wal_call_inv in Hc as (Hp & Hs & (m1 & Hl) & (d1 & Hd) & Hb).
    destruct IH as (Hp' & Hs' & (m2 & Hl') & (d2 & Hd') & Hb').
    split_and!; [congruence|congruence| | |by auto].
    + exists (m1 +:+ m2). by rewrite Hl', Hl, app_assoc_s.
    + exists (d1 +:+ d2). by rewrite Hd', Hd, app_assoc_s.
Qed.

(** X4.  Invariants of an opened WAL.  Whatever calls of [Write], [Persist],
    [ReadEntries] and [InitDB] follow [OpenOrCreateWAL], and whatever they
    return: the path is the one given, the buffer has 4096 bytes of which no
    more are in use, and log and file start with the bytes found at the path:
    the file is only ever appended to. *)
Theorem opened_wal_invariants (path : string) (at_path : Path) (w w' : WAL)
    (e : option string) :
  OpenOrCreateWAL path at_path = (Some w, e) → reachable w w' →
  filepath w' = path ∧
  size (writer w') = 4096 ∧ Buffered (writer w') ≤ 4096 ∧
  (∃ more, log w' = data_at at_path +:+ more) ∧
  (∃ moved, f_data (file w') = data_at at_path +:+ moved).
Proof.
  intros (_ & Hp & Hw & Hd)%open_inv (Hp' & Hs & Hl & Hm & Hb)%reachable_inv.
  unfold log in Hl. rewrite Hw, Hd in *. simpl in *.
  rewrite app_empty_r in Hl. rewrite Hs in Hb.
  split_and!; try done; [congruence|]. apply Hb. unfold Buffered; simpl. lia.
Qed.

Lemma Bufio_Write_fits p b f :
  err b = None → len p ≤ Available b →
  Bufio.Write p b f = (len p, None, mkWriter None (buf b +:+ p) (size b), f).
Proof.
  intros He Hl. unfold Bufio.Write. simpl.
  case_decide as Hc; [destruct Hc; lia|]. rewrite He. unfold copy.
  rewrite Nat.min_r by done. by rewrite take_bytes_all.
Qed.

Lemma writeData_fits data p f b sz :
  len (foldr (λ d line, d +:+ delimiter +:+ line) "" data) ≤ sz - len b →
  writeData data (mkWAL p f (mkWriter None b sz))
  = (None, mkWAL p f (mkWriter None
       (b +:+ foldr (λ d line, d +:+ delimiter +:+ line) "" data) sz)).
Proof.
  revert b. induction data as [|d data IH]; intros b; simpl.
  { by rewrite app_empty_r. }
  rewrite !len_app. intros Hl.
  rewrite Bufio_Write_fits; simpl; [|done|unfold Available; simpl; rewrite len_app; lia].
  rewrite IH; [|rewrite !len_app; simpl in *; lia].
  by rewrite <- !app_assoc_s.
Qed.

Lemma len_record data : length data < len (record data).
Proof.
  unfold record. induction data as [|d data IH]; simpl; [lia|].
  rewrite !len_app. change (len delimiter) with 1. lia.
Qed.

Lemma Wal_Write_fits data w :
  err (writer w) = None → len (record data) ≤ Available (writer w) →
  Wal.Write data w
  = (None, mkWAL (filepath w) (file w)
             (mkWriter None (buf (writer w) +:+ record data) (size (writer w)))).
Proof.
  destruct w as [p f [e b sz]]; simpl. intros -> Hl.
  pose proof (len_record data) as Hr. unfold Available in *; simpl in *.
  unfold Wal.Write. simpl. case_decide as Hc; [unfold Available in Hc; simpl in Hc; lia|].
  rewrite <- record_app in Hl |- *. rewrite len_app in Hl. simpl in Hl.
  rewrite writeData_fits by lia.
  unfold WriteString. rewrite Bufio_Write_fits; simpl;
    [|done|unfold Available; simpl; rewrite len_app; lia].
  by rewrite app_assoc_s.
Qed.

(** X5.  [Write] alone makes nothing durable.  A record that fits in the
    room left in the buffer is only copied there: [Write] returns no error,
    the file is untouched, and [ReadEntries] finds what it found before. *)
Theorem Write_buffers_small_record (data : list string) (w : WAL) :
  err (writer w) = None → len (record data) ≤ Available (writer w) →
  ∃ w', Wal.Write data w = (None, w') ∧
        file w' = file w ∧ buf (writer w') = buf (writer w) +:+ record data ∧
        (ReadEntries w').1 = (ReadEntries w).1.
Proof.
  intros He Hl. eexists. split; [by apply Wal_Write_fits|]. simpl.
  split_and!; try done.
  destruct w as [p [d sy io] b]. unfold ReadEntries, OpenFile, ReadAll, next; simpl.
  by destruct io as [|[|n msg] [|[|n' msg'] io]].
Qed.

End WalFailures.

(** ** Reading the log back *)

Section Replay.
Import OS Bufio Wal.
Context {T : Type} `{Ops : LSMTreeOps T}.

Lemma Split_no_sep s c : Forall (λ piece, hasByte c piece = false) (Split s c).
Proof.
  induction s as [|a s IH]; simpl; [by repeat constructor|].
  destruct (decide (a = c)) as [|Ha]; [by constructor|].
  destruct (Split s c) as [|piece pieces]; [by repeat constructor; simpl; rewrite bool_decide_eq_false_2|].
  inversion IH as [|?? Hp Hps]; subst. constructor; [|done].
  simpl. by rewrite Hp, bool_decide_eq_false_2.
Qed.

Lemma Split_keeps_free s c d :
  hasByte d s = false → Forall (λ piece, hasByte d piece = false) (Split s c).
Proof.
  induction s as [|a s IH]; simpl; [by repeat constructor|].
  intros [Ha Hs]%orb_false_elim. specialize (IH Hs).
  destruct (decide (a = c)); [by constructor|].
  destruct (Split s c) as [|piece pieces]; [by repeat constructor; simpl; rewrite Ha|].
  inversion IH as [|?? Hp Hps]; subst. constructor; [|done].
  simpl. by rewrite Ha, Hp.
Qed.

Lemma index_Forall (P : string → Prop) l i : P "" → Forall P l → P (index l i).
Proof.
  intros H0 Hl. unfold index. revert i.
  induction Hl as [|x l Hx _ IH]; intros [|i]; simpl; auto.
Qed.

Lemma accepts_framed cmd e :
  hasByte newline cmd = false → accepts cmd = Some e → entry_framed e.
Proof.
  intros Hn. unfold accepts.
  pose proof (Split_no_sep cmd pipe) as H1.
  pose proof (Split_keeps_free cmd pipe newline Hn) as H2.
  repeat case_decide; intros [= <-]; unfold entry_framed; simpl;
    split_and!; try done; by apply index_Forall.
Qed.

Lemma valid_records_framed data : Forall entry_framed (valid_records data).
Proof.
  unfold valid_records. apply Forall_forall. intros e He.
  apply list_elem_of_omap in He as (cmd & Hcmd & Ha).
  eapply accepts_framed; [|done].
  pose proof (Split_no_sep data newline) as Hs.
  rewrite Forall_forall in Hs. by apply Hs.
Qed.

Lemma ReadEntries_eq w :
  ReadEntries w =
  (let '(e, f) := OpenFile (file w) in
   match e with
   | Some e =>
       (inr ("failed to open WAL file for reading: " +:+ e), mkWAL (filepath w) f (writer w))
   | None =>
       let '(data, e, f) := ReadAll f in
       match e with
       | Some e =>
           (inr ("failed to read data from WAL file: " +:+ e),
            mkWAL (filepath w) f (writer w))
       | None => (inl (valid_records data), mkWAL (filepath w) f (writer w))
       end
   end).
Proof.
  unfold ReadEntries. destruct (OpenFile _) as [[e|] f]; [done|].
  destruct (ReadAll f) as [[data [e|]] f']; [done|].
  by rewrite foldl_readEntry.
Qed.

(** X6.  Whatever bytes the WAL file holds, the entries that [ReadEntries]
    returns are well formed: no pipe and no newline occurs in a key or a
    value, and a Delete entry has the empty value. *)
Theorem ReadEntries_entries_framed (w w' : WAL) (entries : list Entry) :
  ReadEntries w = (inl entries, w') → Forall entry_framed entries.
Proof.
  rewrite ReadEntries_eq. destruct (OpenFile _) as [[e|] f]; [done|].
  destruct (ReadAll f) as [[data [e|]] f']; [done|].
  intros [= <- <-]. apply valid_records_framed.
Qed.

Lemma InitDB_healthy (t : T) w :
  wal_ok w →
  InitDB t w
  = (None, foldl apply_entry t (valid_records (f_data (file w))), (ReadEntries w).2).
Proof.
  intros Hok. destruct (ReadEntries w) as [r w'] eqn:Er.
  destruct (ReadEntries_healthy _ _ _ Hok Er) as [-> _].
  revert Er. unfold InitDB, ReadEntries.
  destruct (OpenFile _) as [[e|] f]; [done|].
  destruct (ReadAll f) as [[data [e|]] f']; [done|].
  rewrite foldl_readEntry, foldl_replayCmd. by intros [= -> <-].
Qed.

(** X7.  [InitDB] is [ReadEntries] followed by the entries applied in order:
    it puts the live entries, deletes the others, fails where [ReadEntries]
    panics, with the same message, and leaves the WAL in the same state. *)
Theorem InitDB_applies_ReadEntries (t : T) (w : WAL) :
  InitDB t w =
  match ReadEntries w with
  | (inl entries, w') => (None, foldl apply_entry t entries, w')
  | (inr msg, w') => (Some msg, t, w')
  end.
Proof.
  rewrite ReadEntries_eq. unfold InitDB.
  destruct (OpenFile _) as [[e|] f]; [done|].
  destruct (ReadAll f) as [[data [e|]] f']; [done|].
  by rewrite foldl_replayCmd.
Qed.

End Replay.

Section TornRecords.
Import OS Bufio Wal.

Lemma one_line_line_of o : one_line o = true → hasByte newline (line_of o) = false.
Proof.
  destruct o as [k v|k]; unfold line_of; simpl;
    rewrite ?andb_true_iff, ?negb_true_iff; rewrite ?hasByte_app; simpl.
  - by intros [-> ->].
  - by intros ->.
Qed.

Lemma valid_records_glue data tail line :
  terminated data → hasByte newline tail = false → hasByte newline line = false →
  valid_records ((data +:+ tail) +:+ line +:+ nl)
  = valid_records data ++ option_list (accepts (tail +:+ line)).
Proof.
  intros Hd Ht Hl. unfold valid_records.
  assert (omap accepts (Split ((tail +:+ line) +:+ nl) newline)
          = option_list (accepts (tail +:+ line))) as Hrec.
  { change ((tail +:+ line) +:+ nl) with ((tail +:+ line) +:+ String newline "").
    rewrite Split_app_sep by (by rewrite hasByte_app, Ht, Hl). simpl.
    by destruct (accepts (tail +:+ line)). }
  rewrite (app_assoc_s data), <- (app_assoc_s tail).
  destruct Hd as [->|[d ->]]; [done|].
  change (d +:+ nl) with (d +:+ String newline "").
  rewrite (app_assoc_s d). change (String newline "" +:+ ?r) with (String newline r).
  rewrite (Split_app_split d ((tail +:+ line) +:+ nl)), (Split_app_split d "").
  rewrite !omap_app, Hrec. simpl. by rewrite app_nil_r.
Qed.

(** X8.  Records are delimited by newlines only.  When the log ends in bytes
    that no newline follows, as a [Write] that failed half-way leaves them,
    the next record is read as one line with those bytes: after [Write] and
    [Persist] on a healthy WAL, [ReadEntries] yields the accepted records of
    the lines before, and what the parser makes of the torn bytes followed by
    the new record.  After a torn [+|k1], a Delete of [k2] is read as a Put
    of [k2] under the key [k1-]. *)
Theorem torn_tail_joins_next_record (w : WAL) (data tail : string) (o : op) :
  wal_ok w → log w = data +:+ tail → terminated data →
  hasByte newline tail = false → one_line o = true →
  ∃ w1 w2 w3,
    Wal.Write (args_of o) w = (None, w1) ∧ Persist w1 = (None, w2) ∧
    ReadEntries w2
    = (inl (valid_records data ++ option_list (accepts (tail +:+ line_of o))), w3) ∧
    (∀ k1 k2, tail = "+|" +:+ k1 → o = OpDelete k2 →
       hasByte pipe k1 = false → hasByte pipe k2 = false →
       accepts (tail +:+ line_of o) = Some (mkEntry (k1 +:+ "-") k2 false)).
Proof.
  intros Hok Hlog Hd Ht Ho.
  destruct (Wal.Write (args_of o) w) as [e w1] eqn:Ew.
  destruct (Wal_Write_healthy _ _ _ _ Hok Ew) as [-> Hok1].
  apply Wal_Write_ok in Ew as (_ & _ & _ & Hl1). rewrite record_line_of in Hl1.
  destruct (Persist w1) as [e w2] eqn:Ep.
  destruct (Persist_healthy _ _ _ Hok1 Ep) as (-> & Hok2 & _ & Hd2 & _).
  destruct (ReadEntries w2) as [r w3] eqn:Er.
  destruct (ReadEntries_healthy _ _ _ Hok2 Er) as [-> _].
  exists w1, w2, w3. split_and!; try done.
  - rewrite Er, Hd2, Hl1, Hlog.
    by rewrite valid_records_glue by (done || by apply one_line_line_of).
  - intros k1 k2 -> -> Hk1 Hk2. unfold accepts.
    change (("+|" +:+ k1) +:+ line_of (OpDelete k2))
      with ("+" +:+ String pipe (k1 +:+ "-|" +:+ k2 +:+ "|")).
    replace (k1 +:+ "-|" +:+ k2 +:+ "|")
      with ((k1 +:+ "-") +:+ String pipe (k2 +:+ String pipe ""))
      by (by rewrite app_assoc_s).
    rewrite !Split_app_sep by (done || by rewrite hasByte_app, Hk1).
    done.
Qed.

End TornRecords.

(** ** The handlers: replies, failures and recovery *)

Section FieldsTokens.

Lemma spaceWidth_byte a r : spaceWidth (String a r) = 0 → asciiSpace a = false.
Proof. simpl. by destruct (asciiSpace a). Qed.

(** Every token of [strings.Fields] is non-empty and holds none of the
    white space bytes. *)
Lemma fieldsFrom_tokens s skip field :
  (∀ c, asciiSpace c = true → hasByte c field = false) →
  Forall (λ t, t ≠ "" ∧ ∀ c, asciiSpace c = true → hasByte c t = false)
         (fieldsFrom s skip field).
Proof.
  assert (∀ field, (∀ c, asciiSpace c = true → hasByte c field = false) →
    Forall (λ t, t ≠ "" ∧ ∀ c, asciiSpace c = true → hasByte c t = false) (emit field))
    as Hemit.
  { intros f Hf. unfold emit. case_decide; by repeat constructor. }
  revert skip field. induction s as [|a r IH]; intros skip field Hf; [by apply Hemit|].
  destruct skip as [|k]; [|by apply IH].
  rewrite fieldsFrom_cons. destruct (spaceWidth (String a r)) as [|k] eqn:Ew.
  - apply IH. intros c Hc. rewrite hasByte_app, Hf by done. simpl.
    apply spaceWidth_byte in Ew. rewrite bool_decide_eq_false_2; [done|congruence].
  - apply Forall_app. split; [by apply Hemit|]. by apply IH.
Qed.

Lemma Fields_tokens s :
  Forall (λ t, t ≠ "" ∧ ∀ c, asciiSpace c = true → hasByte c t = false) (Fields s).
Proof. by apply fieldsFrom_tokens. Qed.

Lemma trimRight_free s c : hasByte c s = false → trimRight s c = s.
Proof.
  induction s as [|a r IH]; simpl; [done|].
  intros [Ha Hr]%orb_false_elim. rewrite IH by done.
  apply bool_decide_eq_false in Ha. destruct r; [|done]. by rewrite decide_False.
Qed.

Lemma Trim_free s c : hasByte c s = false → Trim s c = s.
Proof.
  intros Hs. unfold Trim.
  assert (trimLeft s c = s) as ->; [|by apply trimRight_free].
  destruct s as [|a r]; simpl in *; [done|].
  apply orb_false_elim in Hs as [Ha%bool_decide_eq_false _]. by rewrite decide_False.
Qed.

End FieldsTokens.

Section HandlerFacts.
Import OS Bufio Wal Server.
Context {T : Type} `{Ops : LSMTreeOps T}.

Local Arguments Wal.Write : simpl never.
Local Arguments Wal.Persist : simpl never.

Lemma tcpCommand_outcome cmd (s : Env) :
  match (tcpCommand cmd s).1 with
  | Reply r => ∃ b, r = b +:+ nl
  | Panic m =>
      m = "runtime error: index out of range [1] with length 1" ∧
      cmd = ["GET"] ∧ (Persist (wal s)).1 = None
  end.
Proof.
  unfold tcpCommand. cbv zeta. repeat case_decide;
    unfold bind, ret, walWrite, walPersist, ltreePut, ltreeDel, ltreeGet, Fprintln; simpl;
    try (by eauto).
  - destruct (Wal.Write _ _) as [[e|] w]; simpl; by eauto.
  - destruct (Persist (wal s)) as [[e|] w] eqn:Ep; simpl; [by eauto|].
    destruct cmd as [|c0 [|k cmd']]; simpl in *; [done| |].
    + unfold index in *; simpl in *. by subst.
    + destruct (Get k (ltree s)); simpl; by eauto.
  - destruct (Wal.Write _ _) as [[e|] w]; simpl; by eauto.
Qed.

Lemma handleConnection_cons text lines (s : Env) :
  handleConnection (text :: lines) s =
  match tcpCommand (Fields text) s with
  | (Reply bytes, s1) =>
      let '(rest, s2) := handleConnection lines s1 in (bytes :: rest.1, rest.2, s2)
  | (Panic msg, s1) => ([], Some msg, s1)
  end.
Proof.
  simpl. unfold bind at 1. destruct (tcpCommand _ _) as [[bytes|msg] s1]; [|done].
  unfold bind, ret. by destruct (handleConnection lines s1) as [[??]?].
Qed.

(** X9.  A connection gets one reply per line, each ended by a newline,
    until the handler panics; it panics only on a line whose single token is
    GET, and the lines after that one are not handled. *)
Theorem connection_ends_only_on_bare_GET (lines : list string) (s : Env) :
  let '(replies, panic, _) := handleConnection lines s in
  Forall (λ r, ∃ b, r = b +:+ nl) replies ∧
  match panic with
  | None => length replies = length lines
  | Some m =>
      m = "runtime error: index out of range [1] with length 1" ∧
      ∃ text, lines !! length replies = Some text ∧ Fields text = ["GET"]
  end.
Proof.
  revert s. induction lines as [|text lines IH]; intros s; [by split|].
  rewrite handleConnection_cons.
  pose proof (tcpCommand_outcome (Fields text) s) as Ho.
  destruct (tcpCommand (Fields text) s) as [[bytes|msg] s1]; simpl in Ho.
  - specialize (IH s1). destruct (handleConnection lines s1) as [[replies panic] s2].
    destruct IH as [Hr Hp]. simpl. split; [by constructor|].
    destruct panic as [m|]; [done|]. by rewrite Hp.
  - destruct Ho as (-> & Hg & _). split; [done|]. split; [done|]. by exists text.
Qed.

(** X10.  A GET that is served makes the log durable.  When [Persist]
    returns no error in a GET, over TCP with any number of tokens and over UDP
    with 2, the handler leaves the tree as it is, the buffer of the WAL
    empty, and the file holding, synced, every byte appended so far: a client
    that gets an answer to a GET knows that the mutations acknowledged before
    it are on disk. *)
Theorem answered_GET_makes_log_durable (s : Env) (cmd : list string) :
  index cmd 0 = "GET" → (Persist (wal s)).1 = None →
  let durable (s' : Env) :=
    ltree s' = ltree s ∧ buf (writer (wal s')) = "" ∧
    f_data (file (wal s')) = log (wal s) ∧
    f_synced (file (wal s')) = len (log (wal s)) in
  durable (tcpCommand cmd s).2 ∧ (length cmd = 2 → durable (udpCommand cmd s).2).
Proof.
  intros Hg Hp. pose proof (get_eval s cmd Hg) as He.
  destruct (Persist (wal s)) as [e w] eqn:Ep. simpl in Hp. subst e.
  apply Persist_ok in Ep as (Hb & _ & Hd & Hs). destruct He as [-> ->].
  split.
  - by destruct (cmd !! 1).
  - intros Hl. by rewrite decide_True by done.
Qed.

Lemma tcp_mutation_ok (s : Env) (o : op) w :
  Wal.Write (args_of o) (wal s) = (None, w) →
  tcpCommand (command_of o) s
  = (Reply ("OK" +:+ nl),
     mkEnv (apply_entry (ltree s) (entry_of o)) w
           (calls s ++ [CallWrite (args_of o) None; call_of o])).
Proof.
  intros Hw. destruct o as [k v|k]; simpl in Hw.
  - by apply tcp_put_ok.
  - unfold tcpCommand, index; simpl. unfold bind, walWrite; simpl.
    rewrite Hw; simpl. unfold ret, bind, ltreeDel; simpl. by rewrite <- app_assoc.
Qed.

Lemma udp_mutation_ok (s : Env) (o : op) w :
  Wal.Write (args_of o) (wal s) = (None, w) →
  udpCommand (command_of o) s
  = ("OK",
     mkEnv (apply_entry (ltree s) (entry_of o)) w
           (calls s ++ [CallWrite (args_of o) None; call_of o])).
Proof.
  intros Hw. destruct o as [k v|k]; simpl in Hw.
  - unfold udpCommand, index; simpl. unfold bind, walWrite; simpl.
    rewrite Hw; simpl. unfold ret, bind, ltreePut; simpl. by rewrite <- app_assoc.
  - unfold udpCommand, index; simpl. unfold bind, walWrite; simpl.
    rewrite Hw; simpl. unfold ret, bind, ltreeDel; simpl. by rewrite <- app_assoc.
Qed.

Lemma Fields_command_line o : clean o → Fields (command_line o) = command_of o.
Proof.
  destruct o as [k v|k]; intros [Ht _]; simpl in *.
  - destruct Ht as [[??] [??]]. by apply Fields_put.
  - destruct Ht. change ("DEL " +:+ k) with ("DEL" +:+ " " +:+ k).
    by apply Fields_verb_key.
Qed.

End HandlerFacts.

Section HandlerSessions.
Import OS Bufio Wal Server.
Context {T : Type} `{Ops : LSMTreeOps T}.

Local Arguments Wal.Write : simpl never.
Local Arguments Wal.Persist : simpl never.

Lemma tcpCommand_failed cmd (s : Env) :
  is_Some (err (writer (wal s))) →
  ∃ r cs, tcpCommand cmd s = (Reply r, mkEnv (ltree s) (wal s) cs) ∧ refusal r.
Proof.
  intros [Hw [mp Hp]]%failed_writer. unfold tcpCommand. cbv zeta.
  repeat case_decide;
    unfold bind, ret, walWrite, walPersist; simpl;
    try (destruct s; by eexists _, _; split; [done|left]).
  - destruct (Hw ["+"; index cmd 1; index cmd 2]) as [m ->]. simpl.
    eexists _, _. split; [done|]. right. exists m. left. by rewrite Fprintln2.
  - rewrite Hp. simpl.
    eexists _, _. split; [done|]. right. exists mp. right. by rewrite Fprintln2.
  - destruct (Hw ["-"; index cmd 1]) as [m ->]. simpl.
    eexists _, _. split; [done|]. right. exists m. left. by rewrite Fprintln2.
Qed.

Lemma udpCommand_failed cmd (s : Env) :
  is_Some (err (writer (wal s))) →
  ∃ r cs, udpCommand cmd s = (r, mkEnv (ltree s) (wal s) cs) ∧
          (r = "Invalid command" ∨ r = "Error persisting WAL" ∨
           ∃ e, r = "Error writing to WAL: " +:+ e).
Proof.
  intros [Hw [mp Hp]]%failed_writer. unfold udpCommand. cbv zeta.
  repeat case_decide;
    unfold bind, ret, walWrite, walPersist; simpl;
    try (destruct s; by eexists _, _; split; [done|left]).
  - rewrite Hp. simpl. eexists _, _. split; [done|]. by right; left.
  - destruct (Hw ["+"; index cmd 1; index cmd 2]) as [m ->]. simpl.
    eexists _, _. split; [done|]. right; right. by exists m.
  - destruct (Hw ["-"; index cmd 1]) as [m ->]. simpl.
    eexists _, _. split; [done|]. right; right. by exists m.
Qed.

(** X11.  Once the writer of the WAL holds an error, the handlers serve
    nothing any more: every TCP line and every UDP packet, a GET included,
    is refused with an error or as an invalid command, and the tree and the
    WAL stay as they are. *)
Theorem handlers_refuse_after_wal_failure (lines : list string) (packet : string)
    (s : Env) :
  is_Some (err (writer (wal s))) →
  (let '(replies, panic, s') := handleConnection lines s in
   panic = None ∧ length replies = length lines ∧ Forall refusal replies ∧
   ltree s' = ltree s ∧ wal s' = wal s) ∧
  (let '(r, s') := handleUDPPacket packet s in
   (r = "Invalid command" ∨ r = "Error persisting WAL" ∨
    ∃ e, r = "Error writing to WAL: " +:+ e) ∧
   ltree s' = ltree s ∧ wal s' = wal s).
Proof.
  intros He. split.
  - revert s He. induction lines as [|text lines IH]; intros s He; [done|].
    rewrite handleConnection_cons.
    destruct (tcpCommand_failed (Fields text) s He) as (r & cs & -> & Hr).
    specialize (IH (mkEnv (ltree s) (wal s) cs) He).
    destruct (handleConnection lines _) as [[replies panic] s2].
    destruct IH as (-> & Hl & Hf & Ht & Hw). simpl in *.
    split_and!; try done; [by rewrite Hl|by constructor].
  - unfold handleUDPPacket.
    by destruct (udpCommand_failed (Fields packet) s He) as (r & cs & -> & Hr).
Qed.

End HandlerSessions.

Section HandlerAgreement.
Import OS Bufio Wal Server.
Context {T : Type} `{Ops : LSMTreeOps T}.

Local Arguments Wal.Write : simpl never.
Local Arguments Wal.Persist : simpl never.

Lemma tcp_udp_command cmd (s : Env) :
  (index cmd 0 = "GET" → length cmd = 2 ∧ Trim (index cmd 1) newline = index cmd 1) →
  let '(o, s1) := tcpCommand cmd s in
  let '(r, s2) := udpCommand cmd s in
  s1 = s2 ∧
  (o = Reply (r +:+ nl) ∨
   ∃ e, (Persist (wal s)).1 = Some e ∧ index cmd 0 = "GET" ∧
        r = "Error persisting WAL" ∧
        o = Reply ("Error persisting WAL: " +:+ e +:+ nl)).
Proof.
  intros Hget. destruct (decide (index cmd 0 = "GET")) as [Hg|Hg].
  - destruct (Hget Hg) as [Hl Ht].
    pose proof (get_eval s cmd Hg) as He.
    destruct (Persist (wal s)) as [e w] eqn:Ep. destruct He as [-> ->].
    rewrite decide_True by done. simpl.
    destruct e as [e|]; [by split; [|right; exists e]|].
    destruct cmd as [|c0 [|k cmd']]; [done..|]. simpl.
    rewrite Ht. unfold index; simpl.
    split; [done|]. by left.
  - clear Hget. unfold tcpCommand, udpCommand. cbv zeta.
    repeat case_decide; try congruence;
      unfold bind, ret, walWrite, ltreePut, ltreeDel; simpl;
      try (by split; [|left]).
    + destruct (Wal.Write _ _) as [[e|] w]; simpl; (split; [done|left]); [|done].
      by rewrite Fprintln2.
    + destruct (Wal.Write _ _) as [[e|] w]; simpl; (split; [done|left]); [|done].
      by rewrite Fprintln2.
Qed.

(** X12.  TCP and UDP handle a request alike.  Unless it is a GET whose
    number of tokens is not 2, a line and a packet of the same bytes leave
    the same tree, WAL and calls, and the TCP reply is the UDP reply
    followed by a newline; only a failure of [Persist] is reported with its
    cause on TCP and without it on UDP. *)
Theorem tcp_udp_agree (text : string) (s : Env) :
  let cmd := Fields text in
  (index cmd 0 = "GET" → length cmd = 2) →
  let '(o, s1) := tcpCommand cmd s in
  let '(r, s2) := handleUDPPacket text s in
  s1 = s2 ∧
  (o = Reply (r +:+ nl) ∨
   ∃ e, (Persist (wal s)).1 = Some e ∧ index cmd 0 = "GET" ∧
        r = "Error persisting WAL" ∧
        o = Reply ("Error persisting WAL: " +:+ e +:+ nl)).
Proof.
  intros cmd Hget. unfold handleUDPPacket. fold cmd.
  apply tcp_udp_command. intros Hg. split; [by apply Hget|].
  apply Trim_free. apply (index_Forall (λ t, hasByte newline t = false)); [done|].
  eapply Forall_impl; [apply Fields_tokens|]. intros t [_ Ht]. by apply Ht.
Qed.

End HandlerAgreement.

Section Recovery.
Import OS Bufio Wal Server.
Context {T : Type} `{Ops : LSMTreeOps T}.

Local Arguments Wal.Write : simpl never.
Local Arguments Wal.Persist : simpl never.

Lemma mutation_step (w0 : WAL) (o : op) :
  wal_ok w0 → terminated (log w0) → one_line o = true →
  ∃ w, Wal.Write (args_of o) w0 = (None, w) ∧ wal_ok w ∧
       log w = log w0 +:+ line_of o +:+ nl ∧ terminated (log w) ∧
       valid_records (log w)
       = valid_records (log w0) ++ option_list (accepts (line_of o)).
Proof.
  intros Hok Ht Hn.
  destruct (Wal.Write (args_of o) w0) as [e w] eqn:Ew.
  destruct (Wal_Write_healthy _ _ _ _ Hok Ew) as [-> Hok'].
  exists w. split; [done|]. split; [done|].
  apply Wal_Write_ok in Ew as (_ & _ & _ & Hl). rewrite record_line_of in Hl.
  split; [done|]. split.
  { right. exists (log w0 +:+ line_of o). by rewrite Hl, app_assoc_s. }
  rewrite Hl. unfold valid_records.
  assert (hasByte newline (line_of o) = false) as Hline.
  { destruct o as [k v|k]; unfold line_of; simpl in *;
      rewrite ?andb_true_iff, ?negb_true_iff in Hn; rewrite ?hasByte_app; simpl.
    - destruct Hn as [-> ->]. done.
    - by rewrite Hn. }
  assert (omap accepts (Split (line_of o +:+ nl) newline)
          = option_list (accepts (line_of o))) as Hrec.
  { change (line_of o +:+ nl) with (line_of o +:+ String newline "").
    rewrite Split_app_sep by done. simpl.
    destruct (accepts (line_of o)); simpl; done. }
  destruct Ht as [Hd|[d Hd]]; rewrite Hd; [by rewrite <- Hrec|].
  change (d +:+ nl) with (d +:+ String newline "").
  rewrite app_assoc_s. change (String newline "" +:+ ?r) with (String newline r).
  rewrite (Split_app_split d (line_of o +:+ nl)), (Split_app_split d "").
  rewrite !omap_app, Hrec. simpl. by rewrite app_nil_r.
Qed.

Lemma clean_one_line o : clean o → one_line o = true.
Proof.
  intros [_ Hf]. destruct o as [k v|k]; unfold framed in Hf; simpl;
    rewrite ?andb_true_iff in *; tauto.
Qed.

Lemma foldl_apply_snoc (t : T) es e :
  foldl apply_entry t (es ++ [e]) = apply_entry (foldl apply_entry t es) e.
Proof. by rewrite foldl_app. Qed.

Lemma session_ok (t0 : T) (ops : list op) (s : Env) :
  wal_ok (wal s) → terminated (log (wal s)) → recoverable t0 s → Forall clean ops →
  ∃ s', handleConnection (command_line <$> ops) s
        = ((λ _, "OK" +:+ nl) <$> ops, None, s') ∧
        wal_ok (wal s') ∧ terminated (log (wal s')) ∧ recoverable t0 s' ∧
        ltree s' = foldl apply_entry (ltree s) (entry_of <$> ops).
Proof.
  intros Hok Ht Hr Hops. revert s Hok Ht Hr.
  induction Hops as [|o ops Ho _ IH]; intros s Hok Ht Hr.
  { exists s. by split_and!. }
  destruct (mutation_step (wal s) o Hok Ht (clean_one_line o Ho))
    as (w & Hw & Hok' & Hl & Ht' & Hv).
  rewrite accepts_line_of in Hv by apply Ho. simpl in Hv.
  pose proof (tcp_mutation_ok s o w Hw) as Hc.
  destruct (IH (mkEnv (apply_entry (ltree s) (entry_of o)) w
                  (calls s ++ [CallWrite (args_of o) None; call_of o])))
    as (s' & Hs' & ? & ? & ? & Htree); [done|done| |].
  { unfold recoverable in *; simpl. by rewrite Hv, foldl_apply_snoc, <- Hr. }
  exists s'. split.
  { rewrite !fmap_cons, handleConnection_cons, Fields_command_line, Hc by done.
    by rewrite Hs'. }
  by split_and!.
Qed.

Lemma reopen_healthy path w :
  wal_ok w →
  ∃ w', OpenOrCreateWAL path (IsFile (file w)) = (Some w', None) ∧
        wal_ok w' ∧ f_data (file w') = f_data (file w) ∧ log w' = f_data (file w).
Proof.
  intros [Hh _]. unfold OpenOrCreateWAL, OpenFile.
  destruct (next (file w)) as [r f] eqn:En.
  destruct (next_healthy _ _ _ Hh En) as [-> Hf].
  apply next_data in En as [Hd _].
  eexists. split; [done|]. unfold wal_ok, log; simpl.
  split_and!; try done. by rewrite app_empty_r.
Qed.

(** X13.  A session of mutations is recovered by a restart.  On a healthy WAL
    whose log ends a line, and a tree that is the replay of that log on
    [t0]: a connection that sends PUT and DEL lines whose keys and values are
    tokens without pipe is answered [OK] line by line, and the tree then is
    the entries applied in order.  After a [Persist], a WAL opened anew on
    the file and [InitDB] on [t0] rebuild exactly that tree. *)
Theorem session_recovered_by_restart (t0 : T) (ops : list op) (s : Env)
    (path : string) :
  wal_ok (wal s) → terminated (log (wal s)) → recoverable t0 s → Forall clean ops →
  ∃ s' w1 w2 w3,
    handleConnection (command_line <$> ops) s
    = ((λ _, "OK" +:+ nl) <$> ops, None, s') ∧
    ltree s' = foldl apply_entry (ltree s) (entry_of <$> ops) ∧
    Persist (wal s') = (None, w1) ∧
    OpenOrCreateWAL path (IsFile (file w1)) = (Some w2, None) ∧
    InitDB t0 w2 = (None, ltree s', w3).
Proof.
  intros Hok Ht Hr Hops.
  destruct (session_ok t0 ops s Hok Ht Hr Hops) as (s' & Hs & Hok' & _ & Hr' & Htree).
  destruct (Persist (wal s')) as [e w1] eqn:Ep.
  destruct (Persist_healthy _ _ _ Hok' Ep) as (-> & Hok1 & _ & Hd & _).
  destruct (reopen_healthy path w1 Hok1) as (w2 & Ho & Hok2 & Hd2 & _).
  exists s', w1, w2, (ReadEntries w2).2. split_and!; try done.
  rewrite InitDB_healthy, Hd2, Hd by done. by rewrite Hr'.
Qed.

Lemma Split_has_sep s c : hasByte c s = true → 2 ≤ length (Split s c).
Proof.
  induction s as [|a r IH]; simpl; [done|].
  destruct (decide (a = c)) as [->|Ha].
  - intros _. destruct (Split_cons r c) as (p & ps & ->). simpl. lia.
  - rewrite bool_decide_eq_false_2 by done. simpl. intros Hr%IH.
    destruct (Split r c); simpl in *; lia.
Qed.

Lemma Split_nonempty s c : 1 ≤ length (Split s c).
Proof. destruct (Split_cons s c) as (p & ps & ->). simpl. lia. Qed.

Lemma Split_head s r c :
  hasByte c s = false → index (Split (s +:+ String c r) c) 0 = s.
Proof. intros Hs. by rewrite Split_app_sep. Qed.

Lemma accepts_piped o : piped o = true → accepts (line_of o) = None.
Proof.
  destruct o as [k v|k]; simpl; intros Hp.
  - change ("+|" +:+ k +:+ "|" +:+ v +:+ "|")
      with ("+" +:+ String pipe (k +:+ String pipe (v +:+ String pipe ""))).
    unfold accepts.
    assert (4 < length (Split ("+" +:+ String pipe (k +:+ String pipe (v +:+ String pipe ""))) pipe))
      as Hlen.
    { rewrite !Split_app_split, !length_app. simpl.
      pose proof (Split_nonempty k pipe). pose proof (Split_nonempty v pipe).
      apply orb_true_iff in Hp as [Hk%Split_has_sep|Hv%Split_has_sep]; lia. }
    rewrite Split_head by done.
    rewrite decide_False by (intros [_ ?]; lia).
    by rewrite decide_False by (by intros [? _]).
  - change ("-|" +:+ k +:+ "|") with ("-" +:+ String pipe (k +:+ String pipe "")).
    unfold accepts.
    assert (3 < length (Split ("-" +:+ String pipe (k +:+ String pipe "")) pipe)) as Hlen.
    { rewrite !Split_app_split, !length_app. simpl.
      apply Split_has_sep in Hp. lia. }
    rewrite Split_head by done.
    rewrite decide_False by (by intros [? _]).
    by rewrite decide_False by (intros [_ ?]; lia).
Qed.

(** X14.  A pipe in a key or a value loses the mutation at the next restart.
    On a healthy WAL the handlers answer [OK] and apply the mutation to the
    tree, but the record they append is one that the replay skips: the
    accepted records of the log are those of before, so a tree recovered
    from the log is the tree without the mutation. *)
Theorem piped_mutation_lost_at_replay (t0 : T) (o : op) (s : Env) :
  wal_ok (wal s) → terminated (log (wal s)) → recoverable t0 s →
  one_line o = true → piped o = true →
  ∃ s',
    tcpCommand (command_of o) s = (Reply ("OK" +:+ nl), s') ∧
    udpCommand (command_of o) s = ("OK", s') ∧
    ltree s' = apply_entry (ltree s) (entry_of o) ∧
    log (wal s') = log (wal s) +:+ line_of o +:+ nl ∧
    valid_records (log (wal s')) = valid_records (log (wal s)) ∧
    foldl apply_entry t0 (valid_records (log (wal s'))) = ltree s.
Proof.
  intros Hok Ht Hr Hn Hp.
  destruct (mutation_step (wal s) o Hok Ht Hn) as (w & Hw & Hok' & Hl & Ht' & Hv).
  rewrite accepts_piped, app_nil_r in Hv by done.
  eexists. split; [by apply tcp_mutation_ok|]. split; [by apply udp_mutation_ok|].
  simpl. split_and!; try done. by rewrite Hv.
Qed.

End Recovery.

(** ** The configuration *)

Section ConfigFacts.
Import Config.
Context {float64 : Type} (float_is_zero : float64 → bool).
Context (dflush dfreq : Z) (drate : float64) (dcap dparts : Z) (ddir : string).

Arguments Port {_}.
Arguments Host {_}.
Arguments UDPPort {_}.
Arguments UDPBufferSize {_}.
Arguments DBEngineConfig_ {_}.
Arguments DiskStoreConfig_ {_}.
Arguments WalPath {_}.
Arguments LSMTreeMaxElementsBeforeFlush {_}.
Arguments LSMTreeCompactionFrequency {_}.
Arguments BloomFilterCapacity {_}.
Arguments BloomFilterErrorRate {_}.

Arguments setPort {_}.
Arguments setHost {_}.
Arguments setUDPPort {_}.
Arguments setUDPBufferSize {_}.
Arguments setDBEngineConfig {_}.
Arguments setDiskStoreConfig {_}.
Arguments setWalPath {_}.
Arguments setLSMTreeMaxElementsBeforeFlush {_}.
Arguments setLSMTreeCompactionFrequency {_}.
Arguments setBloomFilterErrorRate {_}.
Arguments setBloomFilterCapacity {_}.

(** Each statement of [LoadServerConfig] sets one field. *)
Ltac one_field :=
  intros [? ? ? ? [] []]; cbv beta delta [
  defaultPort defaultHost defaultUDPPort defaultUDPBufferSize defaultWalPath
  defaultLSMTreeMaxElementsBeforeFlush defaultLSMTreeCompactionFrequency
  defaultBloomFilterErrorRate defaultBloomFilterCapacity defaultNumOfPartitions
  defaultDirectory]; simpl;
  match goal with |- context [if ?b then _ else _] => by destruct b end.

Lemma defaultPort_eq :
  ∀ c, defaultPort float64 c =
  setPort (if decide (Port c = "") then Server.DEFAULT_TCP_PORT else Port c) c.
Proof. one_field. Qed.

Lemma defaultHost_eq :
  ∀ c, defaultHost float64 c =
  setHost (if decide (Host c = "") then Server.DEFAULT_HOST else Host c) c.
Proof. one_field. Qed.

Lemma defaultUDPPort_eq :
  ∀ c, defaultUDPPort float64 c =
  setUDPPort (if decide (UDPPort c = "") then Server.DEFAULT_UDP_PORT else UDPPort c) c.
Proof. one_field. Qed.

Lemma defaultUDPBufferSize_eq :
  ∀ c, defaultUDPBufferSize float64 c =
  setUDPBufferSize (if decide (UDPBufferSize c = 0%Z) then Z.of_nat Server.DEFAULT_UDP_BUFFER_SIZE else UDPBufferSize c) c.
Proof. one_field. Qed.

Lemma defaultWalPath_eq :
  ∀ c, defaultWalPath float64 c =
  setDBEngineConfig (setWalPath (if decide (WalPath (DBEngineConfig_ c) = "") then Wal.DEFAULT_WAL_PATH else WalPath (DBEngineConfig_ c)) (DBEngineConfig_ c)) c.
Proof. one_field. Qed.

Lemma defaultLSMTreeMaxElementsBeforeFlush_eq :
  ∀ c, defaultLSMTreeMaxElementsBeforeFlush float64 dflush c =
  setDBEngineConfig (setLSMTreeMaxElementsBeforeFlush (if decide (LSMTreeMaxElementsBeforeFlush (DBEngineConfig_ c) = 0%Z) then dflush else LSMTreeMaxElementsBeforeFlush (DBEngineConfig_ c)) (DBEngineConfig_ c)) c.
Proof. one_field. Qed.

Lemma defaultLSMTreeCompactionFrequency_eq :
  ∀ c, defaultLSMTreeCompactionFrequency float64 dfreq c =
  setDBEngineConfig (setLSMTreeCompactionFrequency (if decide (LSMTreeCompactionFrequency (DBEngineConfig_ c) = 0%Z) then dfreq else LSMTreeCompactionFrequency (DBEngineConfig_ c)) (DBEngineConfig_ c)) c.
Proof. one_field. Qed.

Lemma defaultBloomFilterErrorRate_eq :
  ∀ c, defaultBloomFilterErrorRate float64 float_is_zero drate c =
  setDBEngineConfig (setBloomFilterErrorRate (if float_is_zero (BloomFilterErrorRate (DBEngineConfig_ c)) then drate else BloomFilterErrorRate (DBEngineConfig_ c)) (DBEngineConfig_ c)) c.
Proof. one_field. Qed.

Lemma defaultBloomFilterCapacity_eq :
  ∀ c, defaultBloomFilterCapacity float64 dcap c =
  setDBEngineConfig (setBloomFilterCapacity (if decide (BloomFilterCapacity (DBEngineConfig_ c) = 0%Z) then dcap else BloomFilterCapacity (DBEngineConfig_ c)) (DBEngineConfig_ c)) c.
Proof. one_field. Qed.

Lemma defaultNumOfPartitions_eq :
  ∀ c, defaultNumOfPartitions float64 dparts c =
  setDiskStoreConfig (setNumOfPartitions (if decide (NumOfPartitions (DiskStoreConfig_ c) = 0%Z) then dparts else NumOfPartitions (DiskStoreConfig_ c)) (DiskStoreConfig_ c)) c.
Proof. one_field. Qed.

Lemma defaultDirectory_eq :
  ∀ c, defaultDirectory float64 ddir c =
  setDiskStoreConfig (setDirectory (if decide (Directory (DiskStoreConfig_ c) = "") then ddir else Directory (DiskStoreConfig_ c)) (DiskStoreConfig_ c)) c.
Proof. one_field. Qed.

Lemma load_fields (c : ServerConfig float64) :
  LoadServerConfig float64 float_is_zero dflush dfreq drate dcap dparts ddir (c, None) =
  (mkServerConfig float64
     (if decide (Port c = "") then Server.DEFAULT_TCP_PORT else Port c)
     (if decide (Host c = "") then Server.DEFAULT_HOST else Host c)
     (if decide (UDPPort c = "") then Server.DEFAULT_UDP_PORT else UDPPort c)
     (if decide (UDPBufferSize c = 0%Z) then Z.of_nat Server.DEFAULT_UDP_BUFFER_SIZE
      else UDPBufferSize c)
     (mkDBEngineConfig float64
        (if decide (LSMTreeMaxElementsBeforeFlush (DBEngineConfig_ c) = 0%Z) then dflush
         else LSMTreeMaxElementsBeforeFlush (DBEngineConfig_ c))
        (if decide (LSMTreeCompactionFrequency (DBEngineConfig_ c) = 0%Z) then dfreq
         else LSMTreeCompactionFrequency (DBEngineConfig_ c))
        (if decide (BloomFilterCapacity (DBEngineConfig_ c) = 0%Z) then dcap
         else BloomFilterCapacity (DBEngineConfig_ c))
        (if float_is_zero (BloomFilterErrorRate (DBEngineConfig_ c)) then drate
         else BloomFilterErrorRate (DBEngineConfig_ c))
        (if decide (WalPath (DBEngineConfig_ c) = "") then Wal.DEFAULT_WAL_PATH
         else WalPath (DBEngineConfig_ c)))
     (mkDiskStoreConfig
        (if decide (NumOfPartitions (DiskStoreConfig_ c) = 0%Z) then dparts
         else NumOfPartitions (DiskStoreConfig_ c))
        (if decide (Directory (DiskStoreConfig_ c) = "") then ddir
         else Directory (DiskStoreConfig_ c))),
   None).
Proof.
  destruct c as [p h u b [mf cf bc br wp] [np dir]]. unfold LoadServerConfig.
  cbv zeta iota beta.
  rewrite defaultPort_eq; simpl. rewrite defaultHost_eq; simpl.
  rewrite defaultUDPPort_eq; simpl. rewrite defaultUDPBufferSize_eq; simpl.
  rewrite defaultWalPath_eq; simpl.
  rewrite defaultLSMTreeMaxElementsBeforeFlush_eq; simpl.
  rewrite defaultLSMTreeCompactionFrequency_eq; simpl.
  rewrite defaultBloomFilterErrorRate_eq; simpl.
  rewrite defaultBloomFilterCapacity_eq; simpl.
  rewrite defaultNumOfPartitions_eq; simpl.
  rewrite defaultDirectory_eq; simpl.
  reflexivity.
Qed.

Lemma or_default_string (x d : string) :
  (if decide ((if decide (x = "") then d else x) = "") then d
   else if decide (x = "") then d else x)
  = if decide (x = "") then d else x.
Proof. by repeat case_decide. Qed.

Lemma or_default_int (x d : Z) :
  (if decide ((if decide (x = 0%Z) then d else x) = 0%Z) then d
   else if decide (x = 0%Z) then d else x)
  = if decide (x = 0%Z) then d else x.
Proof. by repeat case_decide. Qed.

Lemma or_default_float (x d : float64) :
  (if float_is_zero (if float_is_zero x then d else x) then d
   else if float_is_zero x then d else x)
  = if float_is_zero x then d else x.
Proof.
  destruct (float_is_zero x) eqn:Hx; [by destruct (float_is_zero d)|by rewrite Hx].
Qed.

(** X15.  [LoadServerConfig] on a configuration that was parsed without
    error returns no error and a configuration in which the ports, the host
    and the WAL path are not empty and the UDP buffer size is not zero; a
    configuration in which every parameter is specified is returned as it
    is; loading the result again changes nothing.  An error of the parser is
    returned with the configuration as parsed, no default applied.
    [initServerConfig] of the earlier [main] computes the same. *)
Theorem LoadServerConfig_defaults (c : ServerConfig float64) :
  let load :=
    LoadServerConfig float64 float_is_zero dflush dfreq drate dcap dparts ddir in
  let c' := (load (c, None)).1 in
  (load (c, None)).2 = None ∧
  Port c' ≠ "" ∧ Host c' ≠ "" ∧ UDPPort c' ≠ "" ∧ UDPBufferSize c' ≠ 0%Z ∧
  WalPath (DBEngineConfig_ c') ≠ "" ∧
  (specified float64 float_is_zero c → c' = c) ∧
  load (load (c, None)) = load (c, None) ∧
  (∀ e, load (c, Some e) = (c, Some e)) ∧
  (∀ parsed,
     initServerConfig float64 float_is_zero dflush dfreq drate dcap dparts ddir parsed
     = load parsed).
Proof.
  intros load c'. subst c' load.
  split_and!; try done; try (by rewrite load_fields; simpl; case_decide).
  - rewrite load_fields. destruct c as [p h u b [mf cf bc br wp] [np dir]].
    unfold specified. simpl.
    intros (? & ? & ? & ? & ? & ? & ? & -> & ? & ? & ?).
    by rewrite !decide_False by done.
  - rewrite (load_fields c), load_fields. simpl.
    by rewrite !or_default_string, !or_default_int, or_default_float.
Qed.

End ConfigFacts.

(** ** Concrete runs of the further properties *)

Section FurtherWitnesses.
Import OS Bufio Wal Server.

Lemma failed_Write_is_final_witness :
  let w' := (Wal.Write ["+"; "k"; "v"] full_wal).2 in
  (∀ data', ∃ m', Wal.Write data' w' = (Some m', w')) ∧
  (∃ m', Persist w' = (Some m', w')).
Proof.
  apply (failed_Write_is_final ["+"; "k"; "v"] full_wal _
           "failed to flush buffer: failed to flush buffer to file: no space left on device").
  vm_compute. reflexivity.
Defined.

Lemma opened_wal_invariants_witness :
  let w := new_wal in
  let w' := (Persist (Wal.Write ["+"; "k"; "v"] w).2).2 in
  filepath w' = "wal.aof" ∧
  size (writer w') = 4096 ∧ Buffered (writer w') ≤ 4096 ∧
  (∃ more, log w' = data_at (NoFile []) +:+ more) ∧
  (∃ moved, f_data (file w') = data_at (NoFile []) +:+ moved).
Proof.
  apply (opened_wal_invariants "wal.aof" (NoFile []) new_wal _ None); [reflexivity|].
  eapply rtc_l; [apply (call_Write _ ["+"; "k"; "v"])|].
  eapply rtc_l; [apply call_Persist|]. apply rtc_refl.
Defined.

Lemma Write_buffers_small_record_witness :
  ∃ w', Wal.Write ["+"; "k"; "v"] new_wal = (None, w') ∧
        file w' = file new_wal ∧
        buf (writer w') = buf (writer new_wal) +:+ record ["+"; "k"; "v"] ∧
        (ReadEntries w').1 = (ReadEntries new_wal).1.
Proof.
  apply (Write_buffers_small_record ["+"; "k"; "v"] new_wal); [reflexivity|].
  vm_compute. lia.
Defined.

Lemma ReadEntries_entries_framed_witness :
  Forall entry_framed [mkEntry "b" "2" false; mkEntry "a" "" true; mkEntry "c" "3" false].
Proof.
  apply (ReadEntries_entries_framed (Server.Wal (Server.DBEngine_ demo_server))
           (Server.Wal (Server.DBEngine_ demo_server))).
  reflexivity.
Defined.

Lemma torn_tail_joins_next_record_witness :
  let w := mkWAL "wal.aof" (mkFile ("+|a|1|" +:+ nl +:+ "+|b") 0 []) NewWriter in
  ∃ w1 w2 w3,
    Wal.Write ["-"; "c"] w = (None, w1) ∧ Persist w1 = (None, w2) ∧
    ReadEntries w2
    = (inl (valid_records ("+|a|1|" +:+ nl)
            ++ option_list (accepts ("+|b" +:+ line_of (OpDelete "c")))), w3) ∧
    (∀ k1 k2, "+|b" = "+|" +:+ k1 → OpDelete "c" = OpDelete k2 →
       hasByte pipe k1 = false → hasByte pipe k2 = false →
       accepts ("+|b" +:+ line_of (OpDelete "c")) = Some (mkEntry (k1 +:+ "-") k2 false)).
Proof.
  apply (torn_tail_joins_next_record
           (mkWAL "wal.aof" (mkFile ("+|a|1|" +:+ nl +:+ "+|b") 0 []) NewWriter)
           ("+|a|1|" +:+ nl) "+|b" (OpDelete "c")).
  - split; [constructor|reflexivity].
  - reflexivity.
  - right. by exists "+|a|1|".
  - reflexivity.
  - reflexivity.
Defined.

Lemma handlers_refuse_after_wal_failure_witness :
  let s := Server.mkEnv demo_tree (Wal.Write ["+"; "k"; "v"] full_wal).2 [] in
  (let '(replies, panic, s') := Server.handleConnection ["PUT a b"; "GET a"; "DEL a"] s in
   panic = None ∧ length replies = 3 ∧ Forall refusal replies ∧
   Server.ltree s' = Server.ltree s ∧ Server.wal s' = Server.wal s) ∧
  (let '(r, s') := Server.handleUDPPacket "GET a" s in
   (r = "Invalid command" ∨ r = "Error persisting WAL" ∨
    ∃ e, r = "Error writing to WAL: " +:+ e) ∧
   Server.ltree s' = Server.ltree s ∧ Server.wal s' = Server.wal s).
Proof.
  apply (handlers_refuse_after_wal_failure (T := Lsm.LSMTree)
           ["PUT a b"; "GET a"; "DEL a"] "GET a").
  vm_compute. eauto.
Defined.

Lemma tcp_udp_agree_witness :
  let '(o, s1) := tcpCommand (Fields "GET a") demo_env in
  let '(r, s2) := handleUDPPacket "GET a" demo_env in
  s1 = s2 ∧
  (o = Reply (r +:+ nl) ∨
   ∃ e, (Persist (wal demo_env)).1 = Some e ∧ index (Fields "GET a") 0 = "GET" ∧
        r = "Error persisting WAL" ∧
        o = Reply ("Error persisting WAL: " +:+ e +:+ nl)).
Proof. apply (tcp_udp_agree "GET a" demo_env). intros _. reflexivity. Defined.

Lemma session_recovered_by_restart_witness :
  let ops := [OpPut "k" "v"; OpDelete "a"] in
  ∃ s' w1 w2 w3,
    handleConnection (command_line <$> ops) demo_env
    = ((λ _, "OK" +:+ nl) <$> ops, None, s') ∧
    ltree s' = foldl apply_entry (ltree demo_env) (entry_of <$> ops) ∧
    Persist (wal s') = (None, w1) ∧
    OpenOrCreateWAL "wal.aof" (IsFile (file w1)) = (Some w2, None) ∧
    InitDB demo_tree w2 = (None, ltree s', w3).
Proof.
  apply (session_recovered_by_restart demo_tree [OpPut "k" "v"; OpDelete "a"]
           demo_env "wal.aof").
  - split; [constructor|reflexivity].
  - left. reflexivity.
  - reflexivity.
  - repeat constructor; simpl; done.
Defined.

Lemma piped_mutation_lost_at_replay_witness :
  let o := OpPut "a|b" "c" in
  ∃ s',
    tcpCommand (command_of o) demo_env = (Reply ("OK" +:+ nl), s') ∧
    udpCommand (command_of o) demo_env = ("OK", s') ∧
    ltree s' = apply_entry (ltree demo_env) (entry_of o) ∧
    log (wal s') = log (wal demo_env) +:+ line_of o +:+ nl ∧
    valid_records (log (wal s')) = valid_records (log (wal demo_env)) ∧
    foldl apply_entry demo_tree (valid_records (log (wal s'))) = ltree demo_env.
Proof.
  apply (piped_mutation_lost_at_replay demo_tree (OpPut "a|b" "c") demo_env).
  - split; [constructor|reflexivity].
  - left. reflexivity.
  - reflexivity.
  - reflexivity.
  - reflexivity.
Defined.

Lemma answered_GET_makes_log_durable_witness :
  let s := (tcpCommand ["PUT"; "k"; "v"] demo_env).2 in
  let durable (s' : Env) :=
    ltree s' = ltree s ∧ buf (writer (wal s')) = "" ∧
    f_data (file (wal s')) = log (wal s) ∧
    f_synced (file (wal s')) = len (log (wal s)) in
  durable (tcpCommand ["GET"; "k"] s).2 ∧
  (length ["GET"; "k"] = 2 → durable (udpCommand ["GET"; "k"] s).2).
Proof.
  apply (answered_GET_makes_log_durable
           (tcpCommand ["PUT"; "k"; "v"] demo_env).2 ["GET"; "k"]); reflexivity.
Defined.

End FurtherWitnesses.
